(** * Measurable order statistics and transforms: a shallow embedding

    This development embeds the parts of [pymc/logprob/utils.py],
    [pymc/logprob/order.py], [pymc3/distributions/transforms.py] and
    [pymc3/distributions/continuous.py] that the specification talks about,
    with the functions around them, and states their properties.

    - [Graph]: the graph IR the rewriters consume (variables, apply nodes,
      operations), as far as the code inspects it.
    - [Utils]: [walk] and [check_potential_measurability].
    - [Py], [XReal], [Expr]: results and exceptions, tensor elements with
      the special values of floating point, and the expressions the density
      rules build, with their evaluation.
    - [Order]: the recognisers [find_measurable_max],
      [find_measurable_max_neg] and the four density rules.
    - [Distributions], [Numerics]: the base distributions of the two worked
      scenarios, and fixed-point bounds of the exponential.
    - [Tensor], [Transforms]: tensors of rank up to two, the transform
      classes and [Chain].
    - [Samples]: concrete graphs and variables.
    - [PyFloat], [Continuous]: float arithmetic that can fail, and the
      parameter conversions of the continuous distributions.
    - [XRealOps], [ContinuousLogp]: more elementwise operations, and the
      [logp] and [logcdf] methods of the continuous distributions.
    - [GraphQueries], [Subtensor]: [rvs_in_graph], [convert_indices] and
      [indices_from_subtensor].
    - [TransformLaws], [Support]: what it is for a [jacobian_det] to be
      the log-derivative of [backward], and sums over integer ranges.

    The definitions come first; the facts about them follow, in the same
    order. *)

From Stdlib Require Import Reals Lra Lia ZArith List String Bool.
From stdpp Require Import base decidable option list gmap sets sorting.


(* ===================================================================== *)
(** * The graph IR *)
(* ===================================================================== *)

Module Graph.

(** Scalar operations an [Elemwise] can carry; only [Mul] is looked at. *)
Inductive ScalarOp := Mul | Add | Sub | Neg | Exp | Log | OtherScalar (name : string).

(** Operation classes.  [Max] and its four marker subclasses carry the
    reduction axes.  [OtherOp] stands for any other operation class; its
    flag says whether the class was registered with
    [MeasurableVariable]. *)
Inductive Op :=
| RandomVariable (name : string) (ndim_supp : nat) (dtype : string)
| Max (axis : list Z)
| MeasurableMax (axis : list Z)
| MeasurableMaxDiscrete (axis : list Z)
| MeasurableMaxNeg (axis : list Z)
| MeasurableDiscreteMaxNeg (axis : list Z)
| Elemwise (scalar_op : ScalarOp)
| DiracDelta
| OtherOp (name : string) (registered_measurable : bool).

(** [var.type]: element type and static rank. *)
Record TensorType := mkType { dtype : string; ndim : nat }.

(** A variable is a Python object: [vid] is its identity ([id(var)]),
    [owner] the apply node that produced it, if any.  A [TensorConstant]
    has no owner and carries its [data]. *)
Inductive TensorVariable :=
| mkVar (vid : nat) (type : TensorType) (owner : option Apply)
| mkConstant (vid : nat) (type : TensorType) (data : Z)
with Apply :=
| mkApply (op : Op) (inputs : list TensorVariable).

Definition vid (v : TensorVariable) : nat :=
  match v with mkVar i _ _ | mkConstant i _ _ => i end.
Definition type (v : TensorVariable) : TensorType :=
  match v with mkVar _ t _ | mkConstant _ t _ => t end.
Definition owner (v : TensorVariable) : option Apply :=
  match v with mkVar _ _ o => o | mkConstant _ _ _ => None end.
Definition op (a : Apply) : Op := let 'mkApply o _ := a in o.
Definition inputs (a : Apply) : list TensorVariable := let 'mkApply _ i := a in i.

(** [isinstance(op, MeasurableVariable)]: the classes registered with the
    abstract base class are [RandomVariable] (by the library), the four
    markers of [order.py] and [DiracDelta] of [utils.py]. *)
Definition is_MeasurableVariable (o : Op) : bool :=
  match o with
  | RandomVariable _ _ _ => true
  | Max _ => false
  | MeasurableMax _ | MeasurableMaxDiscrete _
  | MeasurableMaxNeg _ | MeasurableDiscreteMaxNeg _ => true
  | Elemwise _ => false
  | DiracDelta => true
  | OtherOp _ m => m
  end.

(** [isinstance(op, Max)]: [Max] and its subclasses. *)
Definition is_Max (o : Op) : option (list Z) :=
  match o with
  | Max ax | MeasurableMax ax | MeasurableMaxDiscrete ax
  | MeasurableMaxNeg ax | MeasurableDiscreteMaxNeg ax => Some ax
  | _ => None
  end.

(** Number of constructors of a variable's graph, an upper bound on the
    number of loop iterations of a backward walk from it. *)
Fixpoint var_size (v : TensorVariable) : nat :=
  match v with
  | mkVar _ _ None | mkConstant _ _ _ => 1
  | mkVar _ _ (Some (mkApply _ ins)) =>
      S ((fix go (l : list TensorVariable) : nat :=
            match l with
            | [] => 0
            | x :: l' => var_size x + go l'
            end) ins)
  end.

Definition vars_size (l : list TensorVariable) : nat :=
  foldr (fun v acc => var_size v + acc) 0 l.

End Graph.

(* ===================================================================== *)
(** * [pymc/logprob/utils.py]: potential measurability *)
(* ===================================================================== *)

Module Utils.
Import Graph.

(** [pytensor.graph.basic.walk(nodes, expand, bfs=False)], the generator the
    source iterates.  The deque is kept with its right end at the head of the
    list, so [nodes.pop()] is the head, and [nodes.extend(new_nodes)] pushes
    [reverse new_nodes] in front.  [rval_set] holds the [id]s already
    yielded.  The result is the list of yielded nodes, in order.  [fuel]
    bounds the number of iterations of the [while] loop. *)
Fixpoint walk_loop (fuel : nat) (expand : TensorVariable -> list TensorVariable)
    (nodes : list TensorVariable) (rval_set : gset nat) : list TensorVariable :=
  match fuel with
  | O => []
  | S fuel' =>
      match nodes with
      | [] => []
      | node :: nodes' =>
          if decide (vid node ∈ rval_set)
          then walk_loop fuel' expand nodes' rval_set
          else node :: walk_loop fuel' expand
                         (reverse (expand node) ++ nodes')
                         ({[vid node]} ∪ rval_set)
      end
  end.

(** [walk(nodes, expand, bfs=False)].  The fuel is the size of the graphs
    under [nodes]; it is enough whenever [expand] returns inputs of the node
    it is given ([walk_loop_fuel] below). *)
Definition walk (nodes : list TensorVariable)
    (expand : TensorVariable -> list TensorVariable) : list TensorVariable :=
  walk_loop (vars_size nodes) expand (reverse nodes) ∅.

(** The inner [expand_fn] of [check_potential_measurability]: it does not go
    beyond valued variables or any [MeasurableVariable]. *)
Definition expand_fn (valued_rvs : gset nat) (var : TensorVariable) : list TensorVariable :=
  match owner var with
  | Some o =>
      if negb (is_MeasurableVariable (op o)) && bool_decide (vid var ∉ valued_rvs)
      then reverse (inputs o)
      else []
  | None => []
  end.

(** The filter of the generator expression inside [any(...)]. *)
Definition unvalued_measurable (valued_rvs : gset nat) (ancestor_var : TensorVariable) : bool :=
  match owner ancestor_var with
  | Some o => is_MeasurableVariable (op o) && bool_decide (vid ancestor_var ∉ valued_rvs)
  | None => false
  end.

(** [set(valued_rvs)]: membership of variables is by identity. *)
Definition valued_set (valued_rvs : list TensorVariable) : gset nat :=
  list_to_set (vid <$> valued_rvs).

Definition check_potential_measurability
    (inputs : list TensorVariable) (valued_rvs : list TensorVariable) : bool :=
  let valued_rvs := valued_set valued_rvs in
  if existsb (unvalued_measurable valued_rvs) (walk inputs (expand_fn valued_rvs))
  then true
  else false.

(** The nodes a walk can get to: the start nodes, closed under [expand]. *)
Inductive walk_reach (expand : TensorVariable -> list TensorVariable)
    (nodes : list TensorVariable) : TensorVariable -> Prop :=
| walk_reach_start v : v ∈ nodes -> walk_reach expand nodes v
| walk_reach_expand u v :
    walk_reach expand nodes u -> v ∈ expand u -> walk_reach expand nodes v.

(** ** The reachability the specification describes *)

(** [reaches inputs valued v]: a backward walk from a candidate input gets
    to [v] without expanding a node that is measurable or valued. *)
Inductive reaches (inputs : list TensorVariable) (valued : gset nat) : TensorVariable -> Prop :=
| reaches_input v : v ∈ inputs -> reaches inputs valued v
| reaches_step u o v :
    reaches inputs valued u ->
    owner u = Some o ->
    is_MeasurableVariable (op o) = false ->
    vid u ∉ valued ->
    v ∈ Graph.inputs o ->
    reaches inputs valued v.

(** All variables of the graphs under [l] (the ancestors, with repetition). *)
Fixpoint ancestors_of (v : TensorVariable) : list TensorVariable :=
  v :: match v with
       | mkVar _ _ None | mkConstant _ _ _ => []
       | mkVar _ _ (Some (mkApply _ ins)) =>
           (fix go (l : list TensorVariable) : list TensorVariable :=
              match l with
              | [] => []
              | x :: l' => ancestors_of x ++ go l'
              end) ins
       end.

Definition ancestors (l : list TensorVariable) : list TensorVariable :=
  foldr (fun v acc => ancestors_of v ++ acc) [] l.

(** Identities are those of objects: two variables of the graph with the
    same [id] are the same variable. *)
Definition ids_consistent (inputs : list TensorVariable) : Prop :=
  forall u w, u ∈ ancestors inputs -> w ∈ ancestors inputs -> vid u = vid w -> u = w.

End Utils.

(* ===================================================================== *)
(** * Values and log-density expressions *)
(* ===================================================================== *)

(** Exceptions and results of the modelled Python code. *)
Module Py.

Inductive exn :=
| AttributeError | IndexError | ValueError | NotConstantValueError.

Inductive outcome (A : Type) :=
| Return (a : A)
| Raise (e : exn).
Arguments Return {A} a.
Arguments Raise {A} e.

Definition bind {A B : Type} (m : outcome A) (f : A -> outcome B) : outcome B :=
  match m with
  | Return a => f a
  | Raise e => Raise e
  end.

End Py.

(** Tensor elements as the density rules see them: a real number or one of
    the special values [inf], [-inf], [nan].  Arithmetic on finite values is
    exact; the special values follow the IEEE 754 rules the source relies
    on ([-inf - -inf = nan], [log 0 = -inf], [exp (-inf) = 0]). *)
Module XReal.
Local Open Scope R_scope.

Inductive xreal := Fin (r : R) | PInf | NInf | NaN.

Definition xneg (a : xreal) : xreal :=
  match a with
  | Fin x => Fin (- x)
  | PInf => NInf
  | NInf => PInf
  | NaN => NaN
  end.

Definition xadd (a b : xreal) : xreal :=
  match a, b with
  | NaN, _ | _, NaN => NaN
  | Fin x, Fin y => Fin (x + y)
  | PInf, NInf | NInf, PInf => NaN
  | PInf, _ | _, PInf => PInf
  | NInf, _ | _, NInf => NInf
  end.

Definition xsub (a b : xreal) : xreal := xadd a (xneg b).

(** The sign of a finite factor decides a product with an infinity;
    [0 * inf = nan]. *)
Definition xscale_inf (x : R) (pos : bool) : xreal :=
  if Rlt_dec 0 x then (if pos then PInf else NInf)
  else if Rlt_dec x 0 then (if pos then NInf else PInf)
  else NaN.

Definition xmul (a b : xreal) : xreal :=
  match a, b with
  | NaN, _ | _, NaN => NaN
  | Fin x, Fin y => Fin (x * y)
  | Fin x, PInf | PInf, Fin x => xscale_inf x true
  | Fin x, NInf | NInf, Fin x => xscale_inf x false
  | PInf, PInf | NInf, NInf => PInf
  | PInf, NInf | NInf, PInf => NInf
  end.

Definition xexp (a : xreal) : xreal :=
  match a with
  | Fin x => Fin (exp x)
  | PInf => PInf
  | NInf => Fin 0
  | NaN => NaN
  end.

Definition xlog (a : xreal) : xreal :=
  match a with
  | Fin x => if Rlt_dec 0 x then Fin (ln x)
             else if Rlt_dec x 0 then NaN else NInf
  | PInf => PInf
  | NInf => NaN
  | NaN => NaN
  end.

Arguments xlog : simpl never.

(** [log1mexp x = log (1 - exp x)]. *)
Definition xlog1mexp (a : xreal) : xreal := xlog (xsub (Fin 1) (xexp a)).

(** The value of [logdiffexp a b = a + log1mexp (b - a)]. *)
Definition xlogdiffexp (a b : xreal) : xreal := xadd a (xlog1mexp (xsub b a)).

(** Comparisons: anything compared with [nan] is false. *)
Definition xeqb (a b : xreal) : bool :=
  match a, b with
  | Fin x, Fin y => if Req_dec_T x y then true else false
  | PInf, PInf | NInf, NInf => true
  | _, _ => false
  end.

Definition xltb (a b : xreal) : bool :=
  match a, b with
  | NaN, _ | _, NaN => false
  | Fin x, Fin y => if Rlt_dec x y then true else false
  | _, NInf | PInf, _ => false
  | NInf, _ | _, PInf => true
  end.

Definition xleb (a b : xreal) : bool :=
  match a, b with
  | NaN, _ | _, NaN => false
  | Fin x, Fin y => if Rle_dec x y then true else false
  | NInf, _ | _, PInf => true
  | _, _ => false
  end.

End XReal.

(** The graphs the density rules build, as expressions: [pt] operations on
    value variables, constants, and the results of the two services
    [_logprob_helper] and [_logcdf_helper] on a base variable. *)
Module Expr.
Import Graph XReal.

Inductive expr :=
| EValue (name : string)
| EConst (c : xreal)
| ENeg (a : expr)
| EAdd (a b : expr)
| ESub (a b : expr)
| EMul (a b : expr)
| ELog (a : expr)
| EExp (a : expr)
| ELog1mexp (a : expr)
| EWhere (c : bexpr) (a b : expr)
| ELogprob (rv : TensorVariable) (value : expr)
| ELogcdf (rv : TensorVariable) (value : expr)
with bexpr :=
| BEq (a b : expr)
| BLt (a b : expr)
| BLe (a b : expr)
| BGt (a b : expr)
| BGe (a b : expr)
| BAnd (c d : bexpr)
| BOr (c d : bexpr).

(** What the services and the value variables stand for. *)
Record interp := mkInterp {
  logprob_of : TensorVariable -> xreal -> xreal;
  logcdf_of : TensorVariable -> xreal -> xreal;
  value_of : string -> xreal
}.

Fixpoint eval (I : interp) (e : expr) : xreal :=
  match e with
  | EValue name => value_of I name
  | EConst c => c
  | ENeg a => xneg (eval I a)
  | EAdd a b => xadd (eval I a) (eval I b)
  | ESub a b => xsub (eval I a) (eval I b)
  | EMul a b => xmul (eval I a) (eval I b)
  | ELog a => xlog (eval I a)
  | EExp a => xexp (eval I a)
  | ELog1mexp a => xlog1mexp (eval I a)
  | EWhere c a b => if beval I c then eval I a else eval I b
  | ELogprob rv value => logprob_of I rv (eval I value)
  | ELogcdf rv value => logcdf_of I rv (eval I value)
  end
with beval (I : interp) (c : bexpr) : bool :=
  match c with
  | BEq a b => xeqb (eval I a) (eval I b)
  | BLt a b => xltb (eval I a) (eval I b)
  | BLe a b => xleb (eval I a) (eval I b)
  | BGt a b => xltb (eval I b) (eval I a)
  | BGe a b => xleb (eval I b) (eval I a)
  | BAnd c d => beval I c && beval I d
  | BOr c d => beval I c || beval I d
  end.

(** A Python integer or float as a graph constant. *)
Definition EInt (n : Z) : expr := EConst (Fin (IZR n)).

End Expr.
(* ===================================================================== *)
(** * [pymc/logprob/order.py]: recognisers and density rules *)
(* ===================================================================== *)

Module Order.
Import Graph Py XReal Expr.

(** ** The rewriting context *)

(** The [preserve_rv_mappings] feature, as far as the recognisers use it:
    [request_measurable(vars)], of which only the truth value of the result
    is looked at.  The feature is an object of the rewriting session, not
    of this module; it is a field so that each graph brings its own. *)
Record PreserveRVMappings := mkFeature {
  request_measurable : list TensorVariable -> bool
}.

(** [getattr(fgraph, "preserve_rv_mappings", None)]. *)
Record FunctionGraph := mkFgraph {
  preserve_rv_mappings : option PreserveRVMappings
}.

(** What a call of a recogniser did: the arguments of its calls to
    [request_measurable], in order, and what it returned or raised. *)
Record traced (A : Type) := mkTraced {
  requests : list (list TensorVariable);
  result : outcome A
}.
Arguments mkTraced {A} requests result.
Arguments requests {A} t.
Arguments result {A} t.

Definition returned {A : Type} (log : list (list TensorVariable)) (a : A) : traced A :=
  mkTraced log (Return a).
Definition raised {A : Type} (log : list (list TensorVariable)) (e : exn) : traced A :=
  mkTraced log (Raise e).

(** ** Tests on operations *)

Definition is_MeasurableMax (o : Op) : bool :=
  match o with MeasurableMax _ => true | _ => false end.

Definition is_MeasurableMaxNeg (o : Op) : bool :=
  match o with MeasurableMaxNeg _ => true | _ => false end.

Definition is_Elemwise (o : Op) : bool :=
  match o with Elemwise _ => true | _ => false end.

(** [isinstance(op, RandomVariable) and op.ndim_supp == 0]. *)
Definition is_univariate_rv (o : Op) : bool :=
  match o with
  | RandomVariable _ ndim_supp _ => Nat.eqb ndim_supp 0
  | _ => false
  end.

(** [op.dtype] of a [RandomVariable]. *)
Definition op_dtype (o : Op) : option string :=
  match o with
  | RandomVariable _ _ dtype => Some dtype
  | _ => None
  end.

(** [for params in owner.inputs[3:]: if params.type.ndim != 0: return None]
    returns early exactly when this is [true]. *)
Definition some_param_not_scalar (ins : list TensorVariable) : bool :=
  existsb (fun params => negb (Nat.eqb (ndim (type params)) 0)) (drop 3 ins).

(** [range(n)]. *)
Definition range (n : nat) : list Z := Z.of_nat <$> seq 0 n.

(** [list(axis)] of a set of small non-negative integers: CPython iterates
    it in increasing order. *)
Definition list_of_set (axis : gset Z) : list Z := merge_sort Z.le (elements axis).

(** [op.make_node(x).outputs] of a [Max] operation: one output, a new
    variable of identity [fresh] owned by the new apply node. *)
Definition make_node_outputs (fresh : nat) (o : Op) (x : TensorVariable) : list TensorVariable :=
  let out_ndim := match is_Max o with
                  | Some ax => ndim (type x) - length ax
                  | None => ndim (type x)
                  end in
  [mkVar fresh (mkType (dtype (type x)) out_ndim) (Some (mkApply o [x]))].

(** ** [find_measurable_max] *)

Definition find_measurable_max (fresh : nat) (fgraph : FunctionGraph) (node : Apply)
  : traced (option (list TensorVariable)) :=
  match preserve_rv_mappings fgraph with
  | None => returned [] None
  | Some rv_map_feature =>
  if is_MeasurableMax (op node) then returned [] None else
  match inputs node !! 0%nat with
  | None => raised [] IndexError
  | Some base_var =>
  match owner base_var with
  | None => returned [] None
  | Some base_owner =>
  let log := [inputs node] in
  if negb (request_measurable rv_map_feature (inputs node)) then returned log None else
  (* Non-univariate distributions and non-RVs must be rejected *)
  if negb (is_univariate_rv (op base_owner)) then returned log None else
  (* univariate i.i.d. test which also rules out other distributions *)
  if some_param_not_scalar (inputs base_owner) then returned log None else
  (* Check whether axis covers all dimensions *)
  match is_Max (op node) with
  | None => raised log AttributeError
  | Some node_axis =>
  let axis : gset Z := list_to_set node_axis in
  let base_var_dims : gset Z := list_to_set (range (ndim (type base_var))) in
  if bool_decide (axis ≠ base_var_dims) then returned log None else
  (* distinguish measurable discrete and continuous *)
  match op_dtype (op base_owner) with
  | None => raised log AttributeError
  | Some dt =>
  let measurable_max :=
    if String.prefix "int" dt
    then MeasurableMaxDiscrete (list_of_set axis)
    else MeasurableMax (list_of_set axis) in
  let max_rv := make_node_outputs fresh measurable_max base_var in
  returned log (Some max_rv)
  end end end end end.

(** ** [find_measurable_max_neg] *)

Section MaxNeg.

(** [pymc.logprob.utils.find_negated_var], which is not part of the file
    at hand: it returns the variable that [var] negates, if [var] is a
    multiplication by minus one. *)
Variable find_negated_var : TensorVariable -> option TensorVariable.

Definition find_measurable_max_neg (fresh : nat) (fgraph : FunctionGraph) (node : Apply)
  : traced (option (list TensorVariable)) :=
  match preserve_rv_mappings fgraph with
  | None => returned [] None
  | Some rv_map_feature =>
  if is_MeasurableMaxNeg (op node) then returned [] None else
  match inputs node !! 0%nat with
  | None => raised [] IndexError
  | Some base_var =>
  (* Min is the Max of the negation of the same distribution. Hence, op must be Elemwise *)
  if negb (match owner base_var with
           | Some base_owner => is_Elemwise (op base_owner)
           | None => false
           end) then returned [] None else
  match find_negated_var base_var with
  (* negation is rv * (-1). Hence the scalar_op must be Mul *)
  | None => returned [] None
  | Some base_rv =>
  match owner base_rv with
  | None => raised [] AttributeError
  | Some rv_owner =>
  (* Non-univariate distributions and non-RVs must be rejected *)
  if negb (is_univariate_rv (op rv_owner)) then returned [] None else
  (* univariate i.i.d. test which also rules out other distributions *)
  if some_param_not_scalar (inputs rv_owner) then returned [] None else
  (* Check whether axis is supported or not *)
  match is_Max (op node) with
  | None => raised [] AttributeError
  | Some node_axis =>
  let axis : gset Z := list_to_set node_axis in
  let base_var_dims : gset Z := list_to_set (range (ndim (type base_var))) in
  if bool_decide (axis ≠ base_var_dims) then returned [] None else
  let log := [[base_rv]] in
  if negb (request_measurable rv_map_feature [base_rv]) then returned log None else
  (* distinguish measurable discrete and continuous *)
  match op_dtype (op rv_owner) with
  | None => raised log AttributeError
  | Some dt =>
  let measurable_min :=
    if String.prefix "int" dt
    then MeasurableDiscreteMaxNeg (list_of_set axis)
    else MeasurableMaxNeg (list_of_set axis) in
  returned log (Some (make_node_outputs fresh measurable_min base_rv))
  end end end end end end.

End MaxNeg.

(** Modelled from the spec: [find_negated_var], the "negated variable"
    detection the recogniser delegates to.  The pattern is a
    multiply-by-negative-one: an [Elemwise] multiplication of two inputs,
    one of which is the constant [-1]; the other input is returned. *)
Definition is_minus_one (v : TensorVariable) : bool :=
  match v with
  | mkConstant _ _ data => Z.eqb data (-1)
  | _ => false
  end.

Definition find_negated_var (var : TensorVariable) : option TensorVariable :=
  match owner var with
  | Some (mkApply (Elemwise Mul) [a; b]) =>
      if is_minus_one a then Some b
      else if is_minus_one b then Some a
      else None
  | _ => None
  end.

(** ** The density rules *)

(** Modelled from the spec: [pymc.math.logdiffexp], the
    log-difference-of-exponentials primitive [log(exp(a) - exp(b))], computed
    in log space as [a + log1mexp(b - a)].  It takes a [-inf] second argument;
    with both arguments [-inf] the subtraction of the two is [nan]. *)
Definition logdiffexp (a b : expr) : expr := EAdd a (ELog1mexp (ESub b a)).

Section Rules.

(** [constant_fold([base_rv.size])] followed by the unpacking [[n] = ...]:
    the number of draws of [base_rv] as an integer, or
    [NotConstantValueError] when the size is not a static constant. *)
Variable constant_fold_size : TensorVariable -> outcome Z.

(** [_logprob_helper(rv, value)] and [_logcdf_helper(rv, value)]. *)
Definition _logprob_helper (rv : TensorVariable) (value : expr) : expr := ELogprob rv value.
Definition _logcdf_helper (rv : TensorVariable) (value : expr) : expr := ELogcdf rv value.

Definition max_logprob (op : Op) (values : list expr) (base_rv : TensorVariable)
  : outcome expr :=
  match values with
  | [value] =>
      let logprob := _logprob_helper base_rv value in
      let logcdf := _logcdf_helper base_rv value in
      bind (constant_fold_size base_rv) (fun n =>
      let logprob := EAdd (EAdd (EMul (EInt (n - 1)) logcdf) logprob) (ELog (EInt n)) in
      Return logprob)
  | _ => Raise ValueError
  end.

Definition max_logprob_discrete (op : Op) (values : list expr) (base_rv : TensorVariable)
  : outcome expr :=
  match values with
  | [value] =>
      let logcdf := _logcdf_helper base_rv value in
      let logcdf_prev := _logcdf_helper base_rv (ESub value (EInt 1)) in
      bind (constant_fold_size base_rv) (fun n =>
      let logprob := logdiffexp (EMul (EInt n) logcdf) (EMul (EInt n) logcdf_prev) in
      Return logprob)
  | _ => Raise ValueError
  end.

Definition max_neg_logprob (op : Op) (values : list expr) (base_rv : TensorVariable)
  : outcome expr :=
  match values with
  | [value] =>
      let logprob := _logprob_helper base_rv (ENeg value) in
      let logcdf := _logcdf_helper base_rv (ENeg value) in
      bind (constant_fold_size base_rv) (fun n =>
      let logprob :=
        EAdd (EAdd (EMul (EInt (n - 1)) (ELog (ESub (EInt 1) (EExp logcdf)))) logprob)
             (ELog (EInt n)) in
      Return logprob)
  | _ => Raise ValueError
  end.

Definition discrete_max_neg_logprob (op : Op) (values : list expr) (base_rv : TensorVariable)
  : outcome expr :=
  match values with
  | [value] =>
      (* The cdf of a negative variable is the survival at the negated value *)
      let logcdf := ELog1mexp (_logcdf_helper base_rv (ENeg value)) in
      let logcdf_prev := ELog1mexp (_logcdf_helper base_rv (ENeg (EAdd value (EInt 1)))) in
      bind (constant_fold_size base_rv) (fun n =>
      (* Now we can use the same expression as the discrete max *)
      let logprob :=
        EWhere (BAnd (BEq logcdf (EConst NInf)) (BEq logcdf_prev (EConst NInf)))
               (EConst NInf)
               (logdiffexp (EMul (EInt n) logcdf_prev) (EMul (EInt n) logcdf)) in
      Return logprob)
  | _ => Raise ValueError
  end.

End Rules.

End Order.
(* ===================================================================== *)
(** * Base distributions of the two scenarios *)
(* ===================================================================== *)

Module Distributions.
Import Graph XReal Expr.
Local Open Scope R_scope.

(** [bound(logp, c1, c2)] of [pymc3.distributions.dist_math], as
    [src/pymc3/tests/test_dist_math.py] pins it down: [logp] where the
    conditions hold and [-inf] elsewhere. *)
Definition bound (logp : expr) (c1 c2 : bexpr) : expr :=
  EWhere (BAnd c1 c2) logp (EConst NInf).

(** [Uniform.logp] of [src/pymc3/distributions/continuous.py]. *)
Definition Uniform_logp (lower upper value : expr) : expr :=
  bound (ENeg (ELog (ESub upper lower))) (BGe value lower) (BLe value upper).

(** [Uniform.logcdf] of [src/pymc3/distributions/continuous.py]. *)
Definition Uniform_logcdf (lower upper value : expr) : expr :=
  EWhere (BOr (BLt value lower) (BGt value upper))
    (EConst NInf)
    (EWhere (BEq value upper)
       (EInt 0)
       (ESub (ELog (ESub value lower)) (ELog (ESub upper lower)))).

(** An interpretation for closed expressions. *)
Definition no_services : interp :=
  mkInterp (fun _ _ => NaN) (fun _ _ => NaN) (fun _ => NaN).

(** The services for a standard uniform base variable, with every value
    variable bound to [x]. *)
Definition uniform01 (x : xreal) : interp :=
  mkInterp
    (fun _ v => eval no_services (Uniform_logp (EInt 0) (EInt 1) (EConst v)))
    (fun _ v => eval no_services (Uniform_logcdf (EInt 0) (EInt 1) (EConst v)))
    (fun _ => x).

(** Modelled from the spec: the discrete uniform distribution over
    [{lower, ..., upper}], every outcome with the same probability; its
    log-CDF at [x] is the logarithm of the share of outcomes that are at
    most [x].  The distribution classes for discrete variables are not part
    of the files at hand. *)
Definition discrete_uniform_logcdf (lower upper : Z) (x : xreal) : xreal :=
  match x with
  | Fin r =>
      if Rlt_dec r (IZR lower) then NInf
      else if Rle_dec (IZR upper) r then Fin 0
      else Fin (ln (IZR (Int_part r - lower + 1) / IZR (upper - lower + 1)))
  | PInf => Fin 0
  | NInf => NInf
  | NaN => NaN
  end.

Definition discrete_uniform_logp (lower upper : Z) (x : xreal) : xreal :=
  match x with
  | Fin r =>
      if Rlt_dec r (IZR lower) then NInf
      else if Rlt_dec (IZR upper) r then NInf
      else if Req_dec_T (IZR (Int_part r)) r
           then Fin (- ln (IZR (upper - lower + 1)))
           else NInf
  | _ => NInf
  end.

(** The services for a discrete uniform base variable over
    [{0, ..., 4}], with every value variable bound to [x]. *)
Definition discrete_uniform04 (x : xreal) : interp :=
  mkInterp
    (fun _ v => discrete_uniform_logp 0 4 v)
    (fun _ v => discrete_uniform_logcdf 0 4 v)
    (fun _ => x).

End Distributions.

(** Certified lower bounds of the exponential, in fixed point: the bound
    [exp y >= (1 + y / 2^k) ^ (2^k)] with [k] squarings rounded down. *)
Module Numerics.
Local Open Scope Z_scope.

Definition scale : Z := 10 ^ 30.

Definition sq_down (l : Z) : Z := (l * l) / scale.

Fixpoint sq_iter (k : nat) (l : Z) : Z :=
  match k with
  | O => l
  | S k' => sq_iter k' (sq_down l)
  end.

(** A lower bound of [scale * exp (yn / yd)]. *)
Definition exp_lb (k : nat) (yn yd : Z) : Z :=
  let d := yd * 2 ^ Z.of_nat k in
  sq_iter k ((scale * (d + yn)) / d).

End Numerics.
(* ===================================================================== *)
(** * [pymc3/distributions/transforms.py] *)
(* ===================================================================== *)

(** Tensors of rank 0, 1 and 2 with real entries: scalars, vectors, and
    batches (rows) of vectors.  The last axis is the innermost list.  These
    are the ranks the transforms below are modelled at. *)
Module Tensor.
Import Py.
Local Open Scope R_scope.

Inductive tensor :=
| T0 (x : R)
| T1 (v : list R)
| T2 (m : list (list R)).

Definition ndim (t : tensor) : nat :=
  match t with T0 _ => 0 | T1 _ => 1 | T2 _ => 2 end.

Fixpoint mapM {A B : Type} (f : A -> outcome B) (l : list A) : outcome (list B) :=
  match l with
  | [] => Return []
  | a :: l' => bind (f a) (fun b => bind (mapM f l') (fun bs => Return (b :: bs)))
  end.

Definition Rsum (l : list R) : R := fold_right Rplus 0 l.

(** An elementwise operation. *)
Definition tmap (f : R -> R) (t : tensor) : tensor :=
  match t with
  | T0 x => T0 (f x)
  | T1 v => T1 (map f v)
  | T2 m => T2 (map (map f) m)
  end.

(** An operation along the last axis ([x[..., ...]], [axis=-1]); a scalar has
    no last axis. *)
Definition tlast (f : list R -> outcome (list R)) (t : tensor) : outcome tensor :=
  match t with
  | T0 _ => Raise IndexError
  | T1 v => bind (f v) (fun w => Return (T1 w))
  | T2 m => bind (mapM f m) (fun m' => Return (T2 m'))
  end.

(** A reduction over the last axis. *)
Definition treduce (g : list R -> R) (t : tensor) : outcome tensor :=
  match t with
  | T0 _ => Raise IndexError
  | T1 v => Return (T0 (g v))
  | T2 m => Return (T1 (map g m))
  end.

(** [t.sum(axis=-1)] and [aet.sum(t)]. *)
Definition tsum_last (t : tensor) : outcome tensor := treduce Rsum t.

Definition tsum_all (t : tensor) : R :=
  match t with
  | T0 x => x
  | T1 v => Rsum v
  | T2 m => Rsum (map Rsum m)
  end.

(** Addition of two lists with broadcasting of a list of length one. *)
Definition zip_bcast {A : Type} (add : A -> A -> outcome A) (u v : list A)
  : outcome (list A) :=
  if Nat.eqb (length u) (length v)
  then mapM (fun p => add (fst p) (snd p)) (combine u v)
  else match u, v with
       | [a], _ => mapM (add a) v
       | _, [b] => mapM (fun a => add a b) u
       | _, _ => Raise ValueError
       end.

Definition radd (a b : R) : outcome R := Return (a + b).

(** [t1 + t2] with broadcasting: shapes are aligned at the last axis, and a
    missing or length-one axis is stretched. *)
Definition tadd (t1 t2 : tensor) : outcome tensor :=
  match t1, t2 with
  | T0 a, _ => Return (tmap (fun x => a + x) t2)
  | _, T0 b => Return (tmap (fun x => x + b) t1)
  | T1 u, T1 v => bind (zip_bcast radd u v) (fun w => Return (T1 w))
  | T1 u, T2 m => bind (mapM (zip_bcast radd u) m) (fun m' => Return (T2 m'))
  | T2 m, T1 v => bind (mapM (fun r => zip_bcast radd r v) m) (fun m' => Return (T2 m'))
  | T2 m1, T2 m2 => bind (zip_bcast (zip_bcast radd) m1 m2) (fun m' => Return (T2 m'))
  end.



(** Every entry satisfies [P]. *)
Definition tall (P : R -> Prop) (t : tensor) : Prop :=
  match t with
  | T0 x => P x
  | T1 v => Forall P v
  | T2 m => Forall (Forall P) m
  end.


End Tensor.

Module Transforms.
Import Py Tensor.
Local Open Scope R_scope.

(** ** Scalar functions of the tensor library and of [pymc3.math] *)

Definition sigmoid (x : R) : R := 1 / (1 + exp (- x)).
Definition softplus (x : R) : R := ln (1 + exp x).

(** Modelled from the spec: the logit/log-odds pair of [pymc3.math], which is
    not among the files at hand: [logit p = log (p / (1 - p))] and
    [invlogit x eps = (1 - 2 eps) / (1 + exp (-x)) + eps]. *)
Definition logit (p : R) : R := ln (p / (1 - p)).
Definition invlogit (x eps : R) : R := (1 - 2 * eps) / (1 + exp (- x)) + eps.

(** [arctan2(y, x)]: the angle of the point [(x, y)], in [(-pi, pi]]. *)
Definition arctan2 (y x : R) : R :=
  if Rlt_dec 0 x then atan (y / x)
  else if Rlt_dec x 0 then
         (if Rle_dec 0 y then atan (y / x) + PI else atan (y / x) - PI)
       else if Rlt_dec 0 y then PI / 2
       else if Rlt_dec y 0 then - (PI / 2)
       else 0.

(** The maximum of a list, [0] for the empty list. *)
Definition Rmax_list (l : list R) : R :=
  match l with
  | [] => 0
  | x :: l' => fold_right Rmax x l'
  end.

(** Modelled from the spec: [pymc3.math.logsumexp], the stable
    log-sum-of-exponentials along an axis. *)
Definition logsumexp (l : list R) : R :=
  let x_max := Rmax_list l in
  ln (Rsum (map (fun x => exp (x - x_max)) l)) + x_max.




(** ** The interface *)

(** What the transforms read off the random variable [rv_var]. *)
Record RandomVar := mkRV { broadcastable : list bool }.

(** [rv_var.broadcastable[-1]]. *)
Definition broadcastable_last (rv_var : RandomVar) : outcome bool :=
  match last (broadcastable rv_var) with
  | Some b => Return b
  | None => Raise IndexError
  end.

Record Transform := mkTransform {
  name : string;
  forward : RandomVar -> tensor -> outcome tensor;
  backward : RandomVar -> tensor -> outcome tensor;
  jacobian_det : RandomVar -> tensor -> outcome tensor
}.

(** [ElemwiseTransform.jacobian_det]: [log |grad|] of the sum of [backward],
    that is the log of the absolute derivative of [backward] at each entry.
    The derivative, which the source gets from symbolic differentiation, is
    an argument. *)
Definition ElemwiseTransform_jacobian_det (dbackward : R -> R)
    (rv_var : RandomVar) (rv_value : tensor) : outcome tensor :=
  Return (tmap (fun x => ln (Rabs (dbackward x))) rv_value).

(** ** [Log] *)

Definition Log_backward (rv_var : RandomVar) (rv_value : tensor) : outcome tensor :=
  Return (tmap exp rv_value).
Definition Log_forward (rv_var : RandomVar) (rv_value : tensor) : outcome tensor :=
  Return (tmap ln rv_value).
Definition Log_jacobian_det (rv_var : RandomVar) (rv_value : tensor) : outcome tensor :=
  Return rv_value.
Definition Log : Transform :=
  mkTransform "log" Log_forward Log_backward Log_jacobian_det.

(** ** [LogExpM1] *)

Definition LogExpM1_backward (rv_var : RandomVar) (rv_value : tensor) : outcome tensor :=
  Return (tmap softplus rv_value).
Definition LogExpM1_forward (rv_var : RandomVar) (rv_value : tensor) : outcome tensor :=
  Return (tmap (fun x => ln (1 - exp (- x)) + x) rv_value).
Definition LogExpM1_jacobian_det (rv_var : RandomVar) (rv_value : tensor) : outcome tensor :=
  Return (tmap (fun x => - softplus (- x)) rv_value).
Definition LogExpM1 : Transform :=
  mkTransform "log_exp_m1" LogExpM1_forward LogExpM1_backward LogExpM1_jacobian_det.

(** ** [LogOdds] *)

Definition LogOdds_backward (rv_var : RandomVar) (rv_value : tensor) : outcome tensor :=
  Return (tmap (fun x => invlogit x 0) rv_value).
Definition LogOdds_forward (rv_var : RandomVar) (rv_value : tensor) : outcome tensor :=
  Return (tmap logit rv_value).
Definition LogOdds : Transform :=
  mkTransform "logodds" LogOdds_forward LogOdds_backward
    (ElemwiseTransform_jacobian_det (fun x => invlogit x 0 * (1 - invlogit x 0))).

(** ** [Interval] *)

Section Interval.

(** [param_extract_fn(rv_var)]: the two bounds, [None] for a side that is
    not bounded. *)
Variable param_extract_fn : RandomVar -> option R * option R.

Definition Interval_backward (rv_var : RandomVar) (rv_value : tensor) : outcome tensor :=
  match param_extract_fn rv_var with
  | (Some a, Some b) =>
      Return (tmap (fun x => let sigmoid_x := sigmoid x in
                             sigmoid_x * b + (1 - sigmoid_x) * a) rv_value)
  | (Some a, None) => Return (tmap (fun x => exp x + a) rv_value)
  | (None, Some b) => Return (tmap (fun x => b - exp x) rv_value)
  | (None, None) => Return rv_value
  end.

Definition Interval_forward (rv_var : RandomVar) (rv_value : tensor) : outcome tensor :=
  match param_extract_fn rv_var with
  | (Some a, Some b) => Return (tmap (fun x => ln (x - a) - ln (b - x)) rv_value)
  | (Some a, None) => Return (tmap (fun x => ln (x - a)) rv_value)
  | (None, Some b) => Return (tmap (fun x => ln (b - x)) rv_value)
  | (None, None) => Return rv_value
  end.

Definition Interval_jacobian_det (rv_var : RandomVar) (rv_value : tensor) : outcome tensor :=
  match param_extract_fn rv_var with
  | (Some a, Some b) =>
      Return (tmap (fun x => let s := softplus (- x) in ln (b - a) - 2 * s - x) rv_value)
  | _ => Return rv_value
  end.

Definition Interval : Transform :=
  mkTransform "interval" Interval_forward Interval_backward Interval_jacobian_det.

End Interval.

(** ** [Ordered] *)




(** ** [SumTo1] *)

Definition SumTo1_backward_vec (v : list R) : outcome (list R) :=
  let remaining := 1 - Rsum v in
  Return (v ++ [remaining]).

Definition SumTo1_forward_vec (v : list R) : outcome (list R) :=
  Return (removelast v).

Definition SumTo1_backward (rv_var : RandomVar) (rv_value : tensor) : outcome tensor :=
  tlast SumTo1_backward_vec rv_value.
Definition SumTo1_forward (rv_var : RandomVar) (rv_value : tensor) : outcome tensor :=
  tlast SumTo1_forward_vec rv_value.
Definition SumTo1_jacobian_det (rv_var : RandomVar) (rv_value : tensor) : outcome tensor :=
  treduce (fun v => Rsum (map (fun _ => 0) v)) rv_value.
Definition SumTo1 : Transform :=
  mkTransform "sumto1" SumTo1_forward SumTo1_backward SumTo1_jacobian_det.

(** ** [StickBreaking] *)

(** The body of [forward] on one simplex: the transposes of the source
    bring the last axis to the front, so [x.shape[0]] is its length and the
    sums over axis 0 run along it. *)
Definition StickBreaking_forward_vec (x : list R) : outcome (list R) :=
  let n := INR (length x) in
  let lx := map ln x in
  let shift := Rsum lx / n in
  Return (map (fun l => l - shift) (removelast lx)).

Definition StickBreaking_backward_vec (y : list R) : outcome (list R) :=
  let y := y ++ [- Rsum y] in
  let e_y := map (fun v => exp (v - Rmax_list y)) y in
  Return (map (fun e => e / Rsum e_y) e_y).

Definition StickBreaking_jacobian_vec (y : list R) : R :=
  let Km1 := INR (length y + 1) in
  let sy := Rsum y in
  let r := map (fun v => v + sy) y ++ [0] in
  let sr := logsumexp r in
  ln Km1 + Km1 * sy - Km1 * sr.

Definition StickBreaking_forward (rv_var : RandomVar) (rv_value : tensor) : outcome tensor :=
  bind (broadcastable_last rv_var) (fun degenerate =>
  if degenerate then Return rv_value
  else tlast StickBreaking_forward_vec rv_value).

Definition StickBreaking_backward (rv_var : RandomVar) (rv_value : tensor) : outcome tensor :=
  bind (broadcastable_last rv_var) (fun degenerate =>
  if degenerate then Return rv_value
  else tlast StickBreaking_backward_vec rv_value).

Definition StickBreaking_jacobian_det (rv_var : RandomVar) (rv_value : tensor) : outcome tensor :=
  bind (broadcastable_last rv_var) (fun degenerate =>
  if degenerate then Return (tmap (fun _ => 1) rv_value)
  else treduce StickBreaking_jacobian_vec rv_value).

Definition StickBreaking : Transform :=
  mkTransform "stickbreaking" StickBreaking_forward StickBreaking_backward
    StickBreaking_jacobian_det.

(** ** [Circular] *)

Definition Circular_backward (rv_var : RandomVar) (rv_value : tensor) : outcome tensor :=
  Return (tmap (fun x => arctan2 (sin x) (cos x)) rv_value).
Definition Circular_forward (rv_var : RandomVar) (rv_value : tensor) : outcome tensor :=
  Return rv_value.
Definition Circular_jacobian_det (rv_var : RandomVar) (rv_value : tensor) : outcome tensor :=
  Return (tmap (fun _ => 0) rv_value).
Definition Circular : Transform :=
  mkTransform "circular" Circular_forward Circular_backward Circular_jacobian_det.

(** ** [CholeskyCovPacked] *)

Section CholeskyCovPacked.

(** [param_extract_fn(rv_var)]: the indices of the diagonal entries. *)
Variable param_extract_fn : RandomVar -> list nat.






End CholeskyCovPacked.

(** ** [Chain] *)

Section Chain.

Variable transform_list : list Transform.

Definition Chain_forward (rv_var : RandomVar) (rv_value : tensor) : outcome tensor :=
  fold_left (fun y transf => bind y (forward transf rv_var))
    transform_list (Return rv_value).

Definition Chain_backward (rv_var : RandomVar) (rv_value : tensor) : outcome tensor :=
  fold_left (fun x transf => bind x (backward transf rv_var))
    (rev transform_list) (Return rv_value).

(** The state of the first loop of [jacobian_det]. *)
Record det_state := mkDetState {
  det_list : list tensor;
  y_ : tensor;
  ndim0 : nat
}.

Definition Chain_det_step (rv_var : RandomVar) (st : outcome det_state) (transf : Transform)
  : outcome det_state :=
  bind st (fun st =>
  bind (jacobian_det transf rv_var (y_ st)) (fun det_ =>
  bind (backward transf rv_var (y_ st)) (fun y =>
  Return (mkDetState (det_list st ++ [det_]) y (Nat.min (ndim0 st) (ndim det_)))))).

(** One iteration of the second loop: [det += det_.sum(axis=-1)] or
    [det += det_]. *)
Definition Chain_det_add (ndim0 : nat) (det : outcome tensor) (det_ : tensor)
  : outcome tensor :=
  bind det (fun det =>
  if Nat.ltb ndim0 (ndim det_)
  then bind (tsum_last det_) (fun s => tadd det s)
  else tadd det det_).

Definition Chain_jacobian_det (rv_var : RandomVar) (rv_value : tensor) : outcome tensor :=
  let y := rv_value in
  bind (fold_left (Chain_det_step rv_var) (rev transform_list)
          (Return (mkDetState [] y (ndim y)))) (fun st =>
  (* match the shape of the smallest jacobian_det *)
  fold_left (Chain_det_add (ndim0 st)) (det_list st) (Return (T0 0))).

Definition Chain : Transform :=
  mkTransform (String.concat "+" (map name transform_list))
    Chain_forward Chain_backward Chain_jacobian_det.

End Chain.

(** ** Domains and round trips *)







End Transforms.
(* ===================================================================== *)
(** * Sample graphs *)
(* ===================================================================== *)

Module Samples.
Import Graph Py XReal Expr Order.
Local Open Scope string_scope.

Definition float_vector : TensorType := mkType "float64" 1.
Definition float_scalar : TensorType := mkType "float64" 0.
Definition int_vector : TensorType := mkType "int64" 1.

(** The first three inputs of a random draw: generator, size, dtype. *)
Definition rng : TensorVariable := mkVar 100 float_scalar None.
Definition size3 : TensorVariable := mkConstant 101 (mkType "int64" 1) 3.
Definition dtype_in : TensorVariable := mkConstant 102 (mkType "int64" 0) 11.
Definition zero : TensorVariable := mkConstant 103 float_scalar 0.
Definition one : TensorVariable := mkConstant 104 float_scalar 1.
Definition four : TensorVariable := mkConstant 105 (mkType "int64" 0) 4.
Definition minus_one : TensorVariable := mkConstant 106 float_scalar (-1).

(** [x = pt.random.uniform(0, 1, size=(3,))]. *)
Definition x_uniform : TensorVariable :=
  mkVar 1 float_vector
    (Some (mkApply (RandomVariable "uniform" 0 "float64") [rng; size3; dtype_in; zero; one])).

(** A discrete uniform over [{0, ..., 4}], three draws. *)
Definition x_discrete : TensorVariable :=
  mkVar 2 int_vector
    (Some (mkApply (RandomVariable "integers" 0 "int64") [rng; size3; dtype_in; zero; four])).

(** [pt.exp(x)], [pt.max(x)], [-x] as [(-1) * x], and [pt.max(-x)]. *)
Definition exp_x : TensorVariable :=
  mkVar 3 float_vector (Some (mkApply (Elemwise Exp) [x_uniform])).
Definition max_x : Apply := mkApply (Max [0%Z]) [x_uniform].
Definition neg_x : TensorVariable :=
  mkVar 4 float_vector (Some (mkApply (Elemwise Mul) [minus_one; x_uniform])).
Definition max_neg_x : Apply := mkApply (Max [0%Z]) [neg_x].

(** A free input, and the maximum of it. *)
Definition free_input : TensorVariable := mkVar 5 float_vector None.
Definition max_free : Apply := mkApply (Max [0%Z]) [free_input].

(** A session whose feature grants every request. *)
Definition fgraph_granting : FunctionGraph :=
  mkFgraph (Some (mkFeature (fun _ => true))).

(** The value variables of the two scenarios. *)
Definition x_max_value : expr := EValue "x_max_value".
Definition k_value : expr := EValue "k".

(** Three draws, as [constant_fold] finds them. *)
Definition fold_three (rv : TensorVariable) : outcome Z := Return 3%Z.

(** Variables for the transforms: one whose last axis has length one, and
    one whose last axis does not. *)
Definition degenerate_rv : Transforms.RandomVar := Transforms.mkRV [true].
Definition vector_rv : Transforms.RandomVar := Transforms.mkRV [false].

(** Bounds of the unit interval, and a single diagonal index. *)
Definition unit_bounds (rv : Transforms.RandomVar) : option R * option R :=
  (Some 0%R, Some 1%R).

End Samples.

(* ===================================================================== *)
(** * [pymc3/distributions/continuous.py]: parameters *)
(* ===================================================================== *)

(** Arithmetic of Python floats that can fail.  Rounding is not modelled:
    a float is a real number. *)
Module PyFloat.
Local Open Scope R_scope.

Inductive exn := ValueError | ZeroDivisionError.

Inductive outcome (A : Type) :=
| Return (a : A)
| Raise (e : exn).
Arguments Return {A} a.
Arguments Raise {A} e.

Definition bind {A B : Type} (m : outcome A) (f : A -> outcome B) : outcome B :=
  match m with
  | Return a => f a
  | Raise e => Raise e
  end.

(** [x / y] under [from __future__ import division]. *)
Definition truediv (x y : R) : outcome R :=
  if Req_dec_T y 0 then Raise ZeroDivisionError else Return (x / y).

(** [x ** y] for a float exponent.  A positive base has every power; zero
    has no negative power; a negative base has its integer powers only (a
    fractional power of a negative float is no float: Python 2 raises
    [ValueError], and so does the model). *)
Definition float_pow (x y : R) : outcome R :=
  if Rlt_dec 0 x then Return (Rpower x y)
  else if Req_dec_T x 0 then
         (if Rlt_dec y 0 then Raise ZeroDivisionError
          else if Req_dec_T y 0 then Return 1 else Return 0)
       else if Req_dec_T (IZR (Int_part y)) y
            then Return (powerRZ x (Int_part y))
            else Raise ValueError.

End PyFloat.

Module Continuous.
Import PyFloat.
Local Open Scope R_scope.

(** [get_tau_sd(tau=None, sd=None)]: precision and standard deviation from
    whichever of the two is given.  The final [floatX] casts round to the
    configured width and are not modelled. *)
Definition get_tau_sd (tau sd : option R) : outcome (R * R) :=
  match tau with
  | None =>
      match sd with
      | None =>
          let sd := 1 in
          let tau := 1 in
          Return (1 * tau, 1 * sd)
      | Some sd =>
          bind (float_pow sd (- 2)) (fun tau =>
          Return (1 * tau, 1 * sd))
      end
  | Some tau =>
      match sd with
      | Some _ => Raise ValueError
      | None =>
          bind (float_pow tau (- (5 / 10))) (fun sd =>
          Return (1 * tau, 1 * sd))
      end
  end.

(** [Wald.get_mu_lam_phi(mu, lam, phi)]. *)
Definition get_mu_lam_phi (mu lam phi : option R) : outcome (R * R * R) :=
  match mu with
  | None =>
      match lam, phi with
      | Some lam, Some phi =>
          bind (truediv lam phi) (fun m => Return (m, lam, phi))
      | _, _ => Raise ValueError
      end
  | Some mu =>
      match lam with
      | None =>
          match phi with
          | None => bind (truediv 1 mu) (fun p => Return (mu, 1, p))
          | Some phi => Return (mu, mu * phi, phi)
          end
      | Some lam =>
          match phi with
          | None => bind (truediv lam mu) (fun p => Return (mu, lam, p))
          | Some _ => Raise ValueError
          end
      end
  end.

(** [Beta.get_alpha_beta(alpha, beta, mu, sd)]. *)
Definition Beta_get_alpha_beta (alpha beta mu sd : option R) : outcome (R * R) :=
  match alpha, beta with
  | Some alpha, Some beta => Return (alpha, beta)
  | _, _ =>
      match mu, sd with
      | Some mu, Some sd =>
          bind (truediv (mu * (1 - mu)) (sd ^ 2)) (fun q =>
          let kappa := q - 1 in
          let alpha := mu * kappa in
          let beta := (1 - mu) * kappa in
          Return (alpha, beta))
      | _, _ => Raise ValueError
      end
  end.

(** [self.mean] and [self.variance] of [Beta.__init__]. *)
Definition Beta_mean (alpha beta : R) : R := alpha / (alpha + beta).
Definition Beta_variance (alpha beta : R) : R :=
  alpha * beta / ((alpha + beta) ^ 2 * (alpha + beta + 1)).

(** [Gamma.get_alpha_beta(alpha, beta, mu, sd)]. *)
Definition Gamma_get_alpha_beta (alpha beta mu sd : option R) : outcome (R * R) :=
  match alpha, beta with
  | Some alpha, Some beta => Return (alpha, beta)
  | _, _ =>
      match mu, sd with
      | Some mu, Some sd =>
          bind (truediv (mu ^ 2) (sd ^ 2)) (fun alpha =>
          bind (truediv mu (sd ^ 2)) (fun beta =>
          Return (alpha, beta)))
      | _, _ => Raise ValueError
      end
  end.

(** [self.mean] and [self.variance] of [Gamma.__init__]. *)
Definition Gamma_mean (alpha beta : R) : R := alpha / beta.
Definition Gamma_variance (alpha beta : R) : R := alpha / beta ^ 2.

(** [ChiSquared.__init__]: the parameters it hands to [Gamma]. *)
Definition ChiSquared_alpha_beta (nu : R) : option R * option R :=
  (Some (nu / 2), Some (5 / 10)).

End Continuous.

(* ===================================================================== *)
(** * [pymc3/distributions/continuous.py]: log-densities and log-CDFs *)
(* ===================================================================== *)

(** More elementwise operations of the tensor library on [xreal]. *)
Module XRealOps.
Import XReal.
Local Open Scope R_scope.

Definition xabs (a : xreal) : xreal :=
  match a with
  | Fin x => Fin (Rabs x)
  | PInf | NInf => PInf
  | NaN => NaN
  end.

(** Division.  The reals have one zero, which divides as [+0.0] does: a
    non-zero number by zero is the infinity of its sign, [0 / 0 = nan]. *)
Definition xdiv (a b : xreal) : xreal :=
  match a, b with
  | NaN, _ | _, NaN => NaN
  | Fin x, Fin y =>
      if Req_dec_T y 0
      then (if Rlt_dec 0 x then PInf else if Rlt_dec x 0 then NInf else NaN)
      else Fin (x / y)
  | Fin _, PInf | Fin _, NInf => Fin 0
  | PInf, Fin y => if Rle_dec 0 y then PInf else NInf
  | NInf, Fin y => if Rle_dec 0 y then NInf else PInf
  | PInf, PInf | PInf, NInf | NInf, PInf | NInf, NInf => NaN
  end.

(** [log1p x = log (1 + x)] and [expm1 x = exp x - 1]. *)
Definition xlog1p (a : xreal) : xreal := xlog (xadd (Fin 1) a).
Definition xexpm1 (a : xreal) : xreal := xsub (xexp a) (Fin 1).


(** [x ** 2]. *)
Definition xsqr (a : xreal) : xreal := xmul a a.

(** The probability, or density, that a log-probability stands for. *)
Definition prob (l : xreal) : R :=
  match xexp l with
  | Fin p => p
  | _ => 0
  end.

End XRealOps.

(** The methods [logp] and [logcdf] of the distribution classes, at one
    element: parameters and value are scalars, and [tt.switch] selects
    between its two branches. *)
Module ContinuousLogp.
Import XReal XRealOps.
Local Open Scope R_scope.

(** [bound(logp, *conditions)] of [pymc3.distributions.dist_math], as
    [src/pymc3/tests/test_dist_math.py] pins it down: [logp] where all
    conditions hold and [-inf] elsewhere. *)
Definition bound (logp : xreal) (conditions : list bool) : xreal :=
  if forallb (fun c : bool => c) conditions then logp else NInf.

(** ** [Exponential] *)

Definition Exponential_logp (lam value : xreal) : xreal :=
  bound (xsub (xlog lam) (xmul lam value))
        [xltb (Fin 0) value; xltb (Fin 0) lam].

Definition Exponential_logcdf (lam value : xreal) : xreal :=
  let a := xmul lam value in
  if xleb value (Fin 0) then NInf
  else if xleb a (xlog (Fin 2)) then xlog (xneg (xexpm1 (xneg a)))
  else xlog1p (xneg (xexp (xneg a))).

(** [self.mean] and [self.median] of [Exponential.__init__]. *)
Definition Exponential_mean (lam : xreal) : xreal := xdiv (Fin 1) lam.
Definition Exponential_median (lam : xreal) : xreal :=
  xmul (Exponential_mean lam) (xlog (Fin 2)).

(** ** [Laplace] *)

Definition Laplace_logp (mu b value : xreal) : xreal :=
  xsub (xneg (xlog (xmul (Fin 2) b))) (xdiv (xabs (xsub value mu)) b).

Definition Laplace_logcdf (mu b value : xreal) : xreal :=
  let a := mu in
  let y := xdiv (xsub value a) b in
  if xleb value a then xadd (xlog (Fin (5 / 10))) y
  else if xltb (Fin 1) y
       then xlog1p (xmul (Fin (- (5 / 10))) (xexp (xneg y)))
       else xlog (xsub (Fin 1) (xmul (Fin (5 / 10)) (xexp (xneg y)))).

(** ** [Cauchy] *)

Definition Cauchy_logp (alpha beta value : xreal) : xreal :=
  bound (xsub (xsub (xneg (xlog (Fin PI))) (xlog beta))
              (xlog1p (xsqr (xdiv (xsub value alpha) beta))))
        [xltb (Fin 0) beta].


(** ** [HalfCauchy] *)

Definition HalfCauchy_logp (beta value : xreal) : xreal :=
  bound (xsub (xsub (xsub (xlog (Fin 2)) (xlog (Fin PI))) (xlog beta))
              (xlog1p (xsqr (xdiv value beta))))
        [xleb (Fin 0) value; xltb (Fin 0) beta].

(** ** [Normal], [HalfNormal], [Lognormal] *)

(** The three classes keep [tau] and [sd] as [get_tau_sd] returns them;
    the log-densities take them as they are kept. *)
Definition Normal_logp (mu sd tau value : xreal) : xreal :=
  bound (xdiv (xadd (xmul (xneg tau) (xsqr (xsub value mu)))
                    (xlog (xdiv (xdiv tau (Fin PI)) (Fin 2))))
              (Fin 2))
        [xltb (Fin 0) sd].

Definition HalfNormal_logp (sd tau value : xreal) : xreal :=
  bound (xadd (xmul (xmul (Fin (- (5 / 10))) tau) (xsqr value))
              (xmul (Fin (5 / 10)) (xlog (xdiv (xmul tau (Fin 2)) (Fin PI)))))
        [xleb (Fin 0) value; xltb (Fin 0) tau; xltb (Fin 0) sd].

Definition Lognormal_logp (mu tau value : xreal) : xreal :=
  bound (xsub (xadd (xmul (xmul (Fin (- (5 / 10))) tau) (xsqr (xsub (xlog value) mu)))
                    (xmul (Fin (5 / 10)) (xlog (xdiv tau (xmul (Fin 2) (Fin PI))))))
              (xlog value))
        [xltb (Fin 0) tau].

(** ** [Triangular] *)

(** [alltrue_elemwise(conditions)] of [pymc3.distributions.dist_math]: the
    elementwise conjunction of the conditions. *)
Definition alltrue_elemwise (conditions : list bool) : bool :=
  forallb (fun c : bool => c) conditions.

Definition Triangular_logp (lower upper c value : xreal) : xreal :=
  if alltrue_elemwise [xleb lower value; xltb value c]
  then xlog (xdiv (xmul (Fin 2) (xsub value lower))
                  (xmul (xsub upper lower) (xsub c lower)))
  else if xeqb value c then xlog (xdiv (Fin 2) (xsub upper lower))
  else if alltrue_elemwise [xltb c value; xleb value upper]
       then xlog (xdiv (xmul (Fin 2) (xsub upper value))
                       (xmul (xsub upper lower) (xsub upper c)))
       else PInf.

Definition Triangular_logcdf (lower upper c value : xreal) : xreal :=
  let l := lower in
  let u := upper in
  if xleb value l then NInf
  else if xleb value c
       then xlog (xdiv (xsqr (xsub value l)) (xmul (xsub u l) (xsub c l)))
       else if xltb value u
            then xlog1p (xdiv (xneg (xsqr (xsub u value)))
                              (xmul (xsub u l) (xsub u c)))
            else Fin 0.

End ContinuousLogp.

(* ===================================================================== *)
(** * [pymc/logprob/utils.py]: the random variables of a graph *)
(* ===================================================================== *)

Module GraphQueries.
Import Graph Utils.

Section RvsInGraph.

(** [op.inner_outputs] of an operation with an inner graph (an instance of
    [HasInnerGraph]: a [Scan], an [OpFromGraph]); [None] for every other
    operation. *)
Variable inner_outputs : Op -> option (list TensorVariable).

(** The inner [expand] of [rvs_in_graph]; [walk] takes its [None] for a
    variable without owner as no new nodes. *)
Definition expand (r : TensorVariable) : list TensorVariable :=
  match owner r with
  | Some owner =>
      let inputs := reverse (inputs owner) in
      match inner_outputs (op owner) with
      | Some inner => inputs ++ inner
      | None => inputs
      end
  | None => []
  end.

Definition is_RandomVariable (o : Op) : bool :=
  match o with RandomVariable _ _ _ => true | _ => false end.

(** The condition of the set comprehension. *)
Definition is_rv_node (node : TensorVariable) : bool :=
  match owner node with
  | Some o => is_RandomVariable (op o) || is_MeasurableVariable (op o)
  | None => false
  end.

(** [rvs_in_graph(vars)] for a sequence [vars].  The set it returns is
    given as the list of its elements in the order the walk yields them;
    the walk yields no variable twice.  The fuel of [walk] covers the
    graphs under [vars], not inner graphs. *)
Definition rvs_in_graph (vars : list TensorVariable) : list TensorVariable :=
  List.filter is_rv_node (walk vars expand).

End RvsInGraph.

(** No operation has an inner graph. *)
Definition no_inner_graph (inner_outputs : Op -> option (list TensorVariable)) : Prop :=
  forall o, inner_outputs o = None.

End GraphQueries.

(* ===================================================================== *)
(** * [pymc/logprob/utils.py]: indices of a subtensor *)
(* ===================================================================== *)

Module Subtensor.
Import Graph.

(** The objects found in the index list of a [*Subtensor*] operation and
    among its index inputs: a type object (an instance of [CType], holding
    the place of an index input), a [slice], [None], an integer, a
    variable. *)
Inductive index :=
| CType (name : string)
| Slice (start stop step : index)
| NoneIdx
| Int (z : Z)
| Var (v : TensorVariable).

(** [convert_indices(indices, entry)].  The function pops from the list
    [indices]; it is returned as it is left, beside the result. *)
Fixpoint convert_indices (indices : list index) (entry : index) : index * list index :=
  match entry with
  | CType _ =>
      match indices with
      | rval :: indices => (rval, indices)
      | [] => (entry, [])
      end
  | Slice start stop step =>
      let '(start, indices) := convert_indices indices start in
      let '(stop, indices) := convert_indices indices stop in
      let '(step, indices) := convert_indices indices step in
      (Slice start stop step, indices)
  | _ => (entry, indices)
  end.

(** [indices_from_subtensor(idx_list, indices)]: every entry of [idx_list]
    is converted against [list(indices)], a copy of its own. *)
Definition indices_from_subtensor (idx_list : list index) (indices : list index)
  : list index :=
  match idx_list with
  | [] => indices
  | _ => map (fun idx => fst (convert_indices indices idx)) idx_list
  end.

(** The number of type objects in an entry, and whether it has none. *)
Fixpoint placeholders (entry : index) : nat :=
  match entry with
  | CType _ => 1
  | Slice start stop step => placeholders start + placeholders stop + placeholders step
  | _ => 0
  end.

End Subtensor.

(* ===================================================================== *)
(** * What a log-determinant is to its transform *)
(* ===================================================================== *)

Module TransformLaws.
Import Py Tensor Transforms.
Local Open Scope R_scope.

(** [T] acts elementwise: its [backward] applies [b] to every entry, [b]
    has the derivative [db] everywhere, and its [jacobian_det] is, at every
    entry, the logarithm of the absolute value of that derivative. *)
Definition elementwise_jacobian (T : Transform) (rv_var : RandomVar) (b db : R -> R) : Prop :=
  (forall t, backward T rv_var t = Return (tmap b t)) /\
  (forall y, derivable_pt_lim b y (db y)) /\
  (forall t, jacobian_det T rv_var t = Return (tmap (fun y => ln (Rabs (db y))) t)).

(** The angle [arctan2(sin y, cos y)] that [Circular.backward] computes. *)
Definition wrap (y : R) : R := arctan2 (sin y) (cos y).

End TransformLaws.

(* ===================================================================== *)
(** * Discrete supports *)
(* ===================================================================== *)

(** What is needed to add up the probabilities that a log-probability
    graph gives to the integers of an interval. *)
Module Support.
Import Graph XReal Expr.

(** [len] consecutive integers from [first] on, and the integers from [lo]
    to [hi]. *)
Fixpoint zrange_from (first : Z) (len : nat) : list Z :=
  match len with
  | O => []
  | S len' => first :: zrange_from (first + 1) len'
  end.

Definition zrange (lo hi : Z) : list Z := zrange_from lo (Z.to_nat (hi - lo + 1)).

(** The services of a base variable, with every value variable bound to
    the integer [k]. *)
Definition at_integer (lp lc : TensorVariable -> xreal -> xreal) (k : Z) : interp :=
  mkInterp lp lc (fun _ => Fin (IZR k)).

(** The sum of [exp e] over the values [ks]. *)
Definition total_mass (lp lc : TensorVariable -> xreal -> xreal) (e : expr) (ks : list Z)
  : xreal :=
  foldr xadd (Fin 0) (map (fun k => xexp (eval (at_integer lp lc k) e)) ks).

(** The CDF of the discrete uniform distribution over [{0, ..., 4}] at the
    integers. *)
Definition uniform04_cdf (k : Z) : R :=
  if (k <? 0)%Z then 0%R else if (4 <=? k)%Z then 1%R else ((IZR k + 1) / 5)%R.

End Support.
(* ===================================================================== *)
(** * Facts about the graph IR and the backward walk *)
(* ===================================================================== *)

Section GraphFacts.
Import Graph.

Lemma var_size_unfold i t o ins :
  var_size (mkVar i t (Some (mkApply o ins))) = S (vars_size ins).
Proof. reflexivity. Qed.

Lemma var_size_pos v : 0 < var_size v.
Proof. destruct v as [i t [[o ins]|]|i t d]; simpl; lia. Qed.

Lemma vars_size_app l1 l2 : vars_size (l1 ++ l2) = vars_size l1 + vars_size l2.
Proof. induction l1 as [|x l IH]; simpl; [done|]. rewrite IH. lia. Qed.

Lemma vars_size_reverse l : vars_size (reverse l) = vars_size l.
Proof.
  induction l as [|x l IH]; [done|].
  rewrite reverse_cons, vars_size_app, IH. simpl. lia.
Qed.

Lemma vars_size_elem x l : x ∈ l -> var_size x <= vars_size l.
Proof.
  induction 1 as [x l|x y l _ IH]; simpl; lia.
Qed.

(** Induction over the graph under a variable, by its size. *)
Lemma TensorVariable_size_ind (P : TensorVariable -> Prop) :
  (forall v, (forall x, var_size x < var_size v -> P x) -> P v) ->
  forall v, P v.
Proof.
  intros step v. remember (var_size v) as n eqn:Hn.
  revert v Hn. induction (lt_wf n) as [n _ IH].
  intros v ->. apply step. intros x Hx. by apply (IH (var_size x)).
Qed.

End GraphFacts.

Section WalkFacts.
Import Graph Utils.

Variable expand : TensorVariable -> list TensorVariable.

Lemma walk_reach_mono nodes1 nodes2 v :
  (forall n, n ∈ nodes1 -> walk_reach expand nodes2 n) ->
  walk_reach expand nodes1 v -> walk_reach expand nodes2 v.
Proof.
  intros Hsub. induction 1 as [v Hv|u v _ IH Hv]; [by apply Hsub|].
  by eapply walk_reach_expand.
Qed.

(** Every yielded node was reached from the start nodes. *)
Lemma walk_loop_sound fuel : forall nodes rval_set y,
  y ∈ walk_loop fuel expand nodes rval_set -> walk_reach expand nodes y.
Proof.
  induction fuel as [|fuel IH]; intros nodes rval_set y; simpl.
  { intros H. by apply elem_of_nil in H. }
  destruct nodes as [|node nodes'].
  { intros H. by apply elem_of_nil in H. }
  destruct (decide (vid node ∈ rval_set)) as [Hin|Hnin].
  - intros Hy. apply IH in Hy.
    eapply walk_reach_mono; [|exact Hy].
    intros n Hn. apply walk_reach_start. by apply list_elem_of_further.
  - intros Hy. apply elem_of_cons in Hy as [->|Hy].
    + apply walk_reach_start. apply list_elem_of_here.
    + apply IH in Hy. eapply walk_reach_mono; [|exact Hy].
      intros n Hn. apply elem_of_app in Hn as [Hn|Hn].
      * rewrite elem_of_reverse in Hn.
        eapply walk_reach_expand; [|exact Hn].
        apply walk_reach_start, list_elem_of_here.
      * apply walk_reach_start. by apply list_elem_of_further.
Qed.

Hypothesis expand_smaller : forall v, vars_size (expand v) < var_size v.

(** With enough fuel the loop runs until the deque is empty: whatever is on
    the deque ends up yielded (or was yielded before), and so does whatever
    a yielded node expands to. *)
Lemma walk_loop_closed fuel : forall nodes rval_set,
  vars_size nodes <= fuel ->
  let Y := walk_loop fuel expand nodes rval_set in
  (forall n, n ∈ nodes -> vid n ∈ rval_set \/ exists y, y ∈ Y /\ vid y = vid n) /\
  (forall y c, y ∈ Y -> c ∈ expand y ->
     vid c ∈ rval_set \/ exists y', y' ∈ Y /\ vid y' = vid c).
Proof.
  induction fuel as [|fuel IH]; intros nodes rval_set Hfuel; simpl.
  { destruct nodes as [|node nodes'].
    - split; intros ? *; intros H; by apply elem_of_nil in H.
    - simpl in Hfuel. pose proof (var_size_pos node). lia. }
  destruct nodes as [|node nodes'].
  { split; intros ? *; intros H; by apply elem_of_nil in H. }
  simpl in Hfuel. pose proof (var_size_pos node) as Hpos.
  destruct (decide (vid node ∈ rval_set)) as [Hin|Hnin].
  - destruct (IH nodes' rval_set ltac:(lia)) as [H1 H2]. split.
    + intros n Hn. apply elem_of_cons in Hn as [->|Hn]; [by left|by apply H1].
    + exact H2.
  - pose proof (expand_smaller node) as Hsm.
    destruct (IH (reverse (expand node) ++ nodes') ({[vid node]} ∪ rval_set)) as [H1 H2].
    { rewrite vars_size_app, vars_size_reverse. lia. }
    split.
    + intros n Hn. apply elem_of_cons in Hn as [->|Hn].
      * right. exists node. split; [apply list_elem_of_here|done].
      * destruct (H1 n) as [Hs|(y & Hy & Hid)].
        { apply elem_of_app. by right. }
        { apply elem_of_union in Hs as [Hs|Hs]; [|by left].
          apply elem_of_singleton in Hs. right. exists node.
          split; [apply list_elem_of_here|done]. }
        { right. exists y. split; [by apply list_elem_of_further|done]. }
    + intros y c Hy Hc.
      assert (Hpush : vid c ∈ ({[vid node]} ∪ rval_set : gset nat) \/
                      exists y', y' ∈ walk_loop fuel expand
                        (reverse (expand node) ++ nodes') ({[vid node]} ∪ rval_set)
                        /\ vid y' = vid c).
      { apply elem_of_cons in Hy as [->|Hy].
        - apply H1. apply elem_of_app. left. by rewrite elem_of_reverse.
        - by apply (H2 y c). }
      destruct Hpush as [Hs|(y' & Hy' & Hid)].
      * apply elem_of_union in Hs as [Hs|Hs]; [|by left].
        apply elem_of_singleton in Hs. right. exists node.
        split; [apply list_elem_of_here|done].
      * right. exists y'. split; [by apply list_elem_of_further|done].
Qed.

(** More fuel than the size of the deque changes nothing. *)
Lemma walk_loop_fuel fuel : forall k nodes rval_set,
  vars_size nodes <= fuel ->
  walk_loop (fuel + k) expand nodes rval_set = walk_loop fuel expand nodes rval_set.
Proof.
  induction fuel as [|fuel IH]; intros k nodes rval_set Hfuel.
  { destruct nodes as [|node nodes']; [by destruct k|].
    simpl in Hfuel. pose proof (var_size_pos node). lia. }
  simpl. destruct nodes as [|node nodes']; [done|].
  simpl in Hfuel. pose proof (var_size_pos node) as Hpos.
  destruct (decide (vid node ∈ rval_set)).
  - apply IH. lia.
  - f_equal. apply IH. pose proof (expand_smaller node).
    rewrite vars_size_app, vars_size_reverse. lia.
Qed.

(** Every node reachable from the start nodes has the identity of a
    yielded node. *)
Lemma walk_complete nodes v :
  (forall u y, walk_reach expand nodes u -> y ∈ walk nodes expand -> vid y = vid u -> y = u) ->
  walk_reach expand nodes v -> v ∈ walk nodes expand.
Proof.
  intros Hid. unfold walk in *.
  destruct (walk_loop_closed (vars_size nodes) (reverse nodes) ∅) as [H1 H2].
  { by rewrite vars_size_reverse. }
  induction 1 as [v Hv|u v Hu IH Hv].
  - destruct (H1 v) as [Hs|(y & Hy & Hyv)].
    { by rewrite elem_of_reverse. }
    { by apply elem_of_empty in Hs. }
    rewrite <- (Hid v y); [done|by apply walk_reach_start|done|done].
  - destruct (H2 u v IH Hv) as [Hs|(y & Hy & Hyv)].
    { by apply elem_of_empty in Hs. }
    rewrite <- (Hid v y); [done| |done|done].
    by eapply walk_reach_expand.
Qed.

End WalkFacts.

Section PotentialMeasurability.
Import Graph Utils.

Lemma ancestors_of_unfold i t o ins :
  ancestors_of (mkVar i t (Some (mkApply o ins)))
  = mkVar i t (Some (mkApply o ins)) :: ancestors ins.
Proof. reflexivity. Qed.

Lemma ancestors_of_self v : v ∈ ancestors_of v.
Proof. destruct v as [i t [[o ins]|]|i t d]; apply list_elem_of_here. Qed.

Lemma elem_of_ancestors l v :
  v ∈ ancestors l <-> exists x, x ∈ l /\ v ∈ ancestors_of x.
Proof.
  induction l as [|a l IH]; simpl.
  - rewrite elem_of_nil. split; [done|]. intros (x & Hx & _). by apply elem_of_nil in Hx.
  - rewrite elem_of_app, IH. split.
    + intros [Hv|(x & Hx & Hv)].
      * exists a. split; [apply list_elem_of_here|done].
      * exists x. split; [by apply list_elem_of_further|done].
    + intros (x & Hx & Hv). apply elem_of_cons in Hx as [->|Hx]; [by left|].
      right. by exists x.
Qed.

(** The inputs of an ancestor are ancestors. *)
Lemma ancestors_of_inputs : forall w u o c,
  u ∈ ancestors_of w -> owner u = Some o -> c ∈ inputs o -> c ∈ ancestors_of w.
Proof.
  induction w as [w IH] using TensorVariable_size_ind.
  intros u o c Hu Ho Hc.
  destruct w as [i t [[o' ins]|]|i t d].
  - rewrite ancestors_of_unfold in Hu |- *.
    apply elem_of_cons in Hu as [->|Hu].
    + simpl in Ho. injection Ho as <-. simpl in Hc.
      apply list_elem_of_further, elem_of_ancestors.
      exists c. split; [done|apply ancestors_of_self].
    + apply elem_of_ancestors in Hu as (x & Hx & Hu).
      apply list_elem_of_further, elem_of_ancestors. exists x. split; [done|].
      apply (IH x) with u o; [|done..].
      rewrite var_size_unfold. pose proof (vars_size_elem x ins Hx). lia.
  - simpl in Hu. apply list_elem_of_singleton in Hu as ->. by simpl in Ho.
  - simpl in Hu. apply list_elem_of_singleton in Hu as ->. by simpl in Ho.
Qed.

Lemma expand_fn_smaller valued v : vars_size (expand_fn valued v) < var_size v.
Proof.
  destruct v as [i t [[o ins]|]|i t d]; unfold expand_fn; cbn [owner op inputs vid].
  - rewrite var_size_unfold.
    destruct (negb (is_MeasurableVariable o) && bool_decide (i ∉ valued)).
    + rewrite vars_size_reverse. lia.
    + cbn. lia.
  - cbn. lia.
  - cbn. lia.
Qed.

Lemma elem_of_expand_fn valued u v :
  (v ∈ expand_fn valued u) <->
  exists o, owner u = Some o /\ is_MeasurableVariable (op o) = false /\
            (vid u ∉ valued) /\ v ∈ inputs o.
Proof.
  unfold expand_fn. destruct (owner u) as [o|].
  - destruct (is_MeasurableVariable (op o)) eqn:Hm; simpl.
    + rewrite elem_of_nil. split; [done|]. by intros (o' & [= <-] & Hm' & _); congruence.
    + destruct (bool_decide (vid u ∉ valued)) eqn:Hv.
      * apply bool_decide_eq_true in Hv. rewrite elem_of_reverse. split.
        -- intros Hin. by exists o.
        -- by intros (o' & [= <-] & _ & _ & Hin).
      * apply bool_decide_eq_false in Hv. rewrite elem_of_nil. split; [done|].
        by intros (o' & _ & _ & Hv' & _).
  - rewrite elem_of_nil. split; [done|]. by intros (o & Ho & _).
Qed.

Lemma reaches_walk_reach inputs valued v :
  reaches inputs valued v <-> walk_reach (expand_fn valued) inputs v.
Proof.
  split.
  - induction 1 as [v Hv|u o v _ IH Ho Hm Hu Hv].
    + by apply walk_reach_start.
    + eapply walk_reach_expand; [exact IH|].
      apply elem_of_expand_fn. by exists o.
  - induction 1 as [v Hv|u v _ IH Hv].
    + by apply reaches_input.
    + apply elem_of_expand_fn in Hv as (o & Ho & Hm & Hu & Hv).
      by eapply reaches_step.
Qed.

Lemma reaches_ancestors inputs valued v :
  reaches inputs valued v -> v ∈ ancestors inputs.
Proof.
  induction 1 as [v Hv|u o v _ IH Ho Hm Hu Hv].
  - apply elem_of_ancestors. exists v. split; [done|apply ancestors_of_self].
  - apply elem_of_ancestors in IH as (x & Hx & IH).
    apply elem_of_ancestors. exists x. split; [done|].
    by apply ancestors_of_inputs with u o.
Qed.

(** What the generator yields: exactly the variables a backward walk
    reaches without looking inside a measurable or valued node. *)
Lemma walk_expand_fn_reaches inputs valued v :
  ids_consistent inputs ->
  v ∈ walk inputs (expand_fn valued) <-> reaches inputs valued v.
Proof.
  intros Hids. rewrite reaches_walk_reach. split.
  - unfold walk. intros Hv. apply walk_loop_sound in Hv.
    eapply walk_reach_mono; [|exact Hv].
    intros n Hn. apply walk_reach_start. by rewrite elem_of_reverse in Hn.
  - apply walk_complete; [apply expand_fn_smaller|].
    intros u y Hu Hy Hid. apply Hids; [| |done].
    + apply reaches_ancestors with valued, reaches_walk_reach.
      unfold walk in Hy. apply walk_loop_sound in Hy.
      eapply walk_reach_mono; [|exact Hy].
      intros n Hn. apply walk_reach_start. by rewrite elem_of_reverse in Hn.
    + by apply reaches_ancestors with valued, reaches_walk_reach.
Qed.

(** C5.  [check_potential_measurability inputs valued_rvs] is [True] exactly
    when a backward walk from some candidate input reaches a variable whose
    owner's operation is measurable and which is not valued, where the walk
    does not expand a variable that is itself measurable or valued;
    otherwise it is [False].  Identities are those of objects
    ([ids_consistent]). *)
Theorem check_potential_measurability_iff inputs valued_rvs :
  ids_consistent inputs ->
  check_potential_measurability inputs valued_rvs = true <->
  exists v o,
    reaches inputs (valued_set valued_rvs) v /\
    owner v = Some o /\ is_MeasurableVariable (op o) = true /\
    vid v ∉ valued_set valued_rvs.
Proof.
  intros Hids. unfold check_potential_measurability.
  set (valued := valued_set valued_rvs).
  destruct (existsb _ _) eqn:Hex.
  - split; [intros _|done].
    apply existsb_exists in Hex as (v & Hv & Hf).
    apply list_elem_of_In, walk_expand_fn_reaches in Hv; [|done].
    unfold unvalued_measurable in Hf. destruct (owner v) as [o|] eqn:Ho; [|done].
    apply andb_true_iff in Hf as [Hm Hu]. apply bool_decide_eq_true in Hu.
    by exists v, o.
  - split; [done|]. intros (v & o & Hr & Ho & Hm & Hu).
    assert (existsb (unvalued_measurable valued)
              (walk inputs (expand_fn valued)) = true) as Hex'; [|congruence].
    apply existsb_exists. exists v. split.
    + by apply list_elem_of_In, walk_expand_fn_reaches.
    + unfold unvalued_measurable. rewrite Ho, Hm. simpl.
      by apply bool_decide_eq_true.
Qed.

End PotentialMeasurability.

Section PotentialMeasurabilitySamples.
Import Graph Utils Samples.

(** Decides [ids_consistent] on a concrete graph by going through its
    ancestors. *)
Ltac ids_by_cases :=
  let u := fresh "u" in let w := fresh "w" in
  let Hu := fresh "Hu" in let Hw := fresh "Hw" in let Hid := fresh "Hid" in
  intros u w Hu Hw Hid;
  match type of Hu with
  | _ ∈ ?l => let l' := eval vm_compute in l in change l with l' in Hu, Hw
  end;
  repeat match goal with
         | H : _ ∈ _ :: _ |- _ => apply elem_of_cons in H as [->|H]
         | H : _ ∈ [] |- _ => by apply elem_of_nil in H
         end;
  first [reflexivity | by (cbv in Hid)].

Lemma ids_consistent_exp_x : ids_consistent [exp_x].
Proof. ids_by_cases. Qed.

(** The walk from [exp(x)] finds the unvalued draw [x]. *)
Lemma check_potential_measurability_iff_witness :
  ids_consistent [exp_x] /\
  (check_potential_measurability [exp_x] [] = true <->
   exists v o,
     reaches [exp_x] (valued_set []) v /\
     owner v = Some o /\ is_MeasurableVariable (op o) = true /\
     vid v ∉ valued_set []).
Proof.
  split; [exact ids_consistent_exp_x|].
  apply (check_potential_measurability_iff [exp_x] []).
  exact ids_consistent_exp_x.
Defined.

Example check_potential_measurability_finds_draw :
  check_potential_measurability [exp_x] [] = true.
Proof. vm_compute. reflexivity. Qed.

(** A valued draw is a barrier and is not itself counted. *)
Example check_potential_measurability_valued_draw :
  check_potential_measurability [exp_x] [x_uniform] = false.
Proof. vm_compute. reflexivity. Qed.

(** A valued node is not looked inside: with [exp(x)] itself valued, the
    draw under it is never visited. *)
Example check_potential_measurability_barrier :
  check_potential_measurability [exp_x] [exp_x] = false.
Proof. vm_compute. reflexivity. Qed.

End PotentialMeasurabilitySamples.

(* ===================================================================== *)
(** * The recognisers *)
(* ===================================================================== *)

Section Recognisers.
Import Graph Py Order.

(** C6.  A [Max] node that fails a precondition of the recogniser is left
    alone: when its operand has no owner, or the owner's operation is not a
    [RandomVariable] with scalar support, or some distribution parameter
    (an input of the draw from the fourth on) has rank other than 0, or the
    axes of the reduction are not exactly the dimensions of the operand,
    [find_measurable_max] returns [None]; it does not raise. *)
Theorem find_measurable_max_rejects fresh fgraph node axis base_var :
  is_Max (op node) = Some axis ->
  inputs node !! 0%nat = Some base_var ->
  ( owner base_var = None
    \/ (exists base_owner, owner base_var = Some base_owner /\
                           is_univariate_rv (op base_owner) = false)
    \/ (exists base_owner params, owner base_var = Some base_owner /\
          params ∈ drop 3 (inputs base_owner) /\ ndim (type params) <> 0%nat)
    \/ (list_to_set axis : gset Z) <> list_to_set (range (ndim (type base_var))) ) ->
  result (find_measurable_max fresh fgraph node) = Return None.
Proof.
  intros Hmax Hin Hfail. unfold find_measurable_max.
  destruct (preserve_rv_mappings fgraph) as [feature|]; [|done].
  destruct (is_MeasurableMax (op node)); [done|].
  rewrite Hin.
  destruct (owner base_var) as [base_owner|] eqn:Hown; [|done].
  destruct (request_measurable feature (inputs node)); [|done]. simpl.
  destruct (is_univariate_rv (op base_owner)) eqn:Huni; [|done]. simpl.
  destruct (some_param_not_scalar (inputs base_owner)) eqn:Hpar; [done|].
  rewrite Hmax.
  destruct (bool_decide _) eqn:Hax; [done|].
  apply bool_decide_eq_false in Hax.
  exfalso. destruct Hfail as [Hf|[Hf|[Hf|Hf]]].
  - done.
  - destruct Hf as (o & [= <-] & Hf). congruence.
  - destruct Hf as (o & params & [= <-] & Hp & Hnd).
    unfold some_param_not_scalar in Hpar.
    assert (existsb (fun params => negb (ndim (type params) =? 0)%nat)
              (drop 3 (inputs base_owner)) = true) as Hex; [|congruence].
    apply existsb_exists. exists params. split; [by apply list_elem_of_In|].
    apply negb_true_iff. by apply Nat.eqb_neq.
  - apply Hax. intros Heq. by apply Hf.
Qed.

(** C7.  When [find_measurable_max_neg] returns a replacement, the operand
    of the node was recognised by [find_negated_var] as the negation of a
    variable [base_rv]; the marker node it builds has [base_rv] as its only
    input, its operation is one of the two negated markers, and the one
    request made to [request_measurable] is for [[base_rv]], which was
    granted. *)
Theorem find_measurable_max_neg_wraps_base find_negated_var fresh fgraph node outs :
  result (find_measurable_max_neg find_negated_var fresh fgraph node)
    = Return (Some outs) ->
  exists base_var base_rv rv_owner feature marker out_type,
    inputs node !! 0%nat = Some base_var /\
    find_negated_var base_var = Some base_rv /\
    owner base_rv = Some rv_owner /\
    is_univariate_rv (op rv_owner) = true /\
    some_param_not_scalar (inputs rv_owner) = false /\
    outs = [mkVar fresh out_type (Some (mkApply marker [base_rv]))] /\
    (exists ax, marker = MeasurableMaxNeg ax \/ marker = MeasurableDiscreteMaxNeg ax) /\
    preserve_rv_mappings fgraph = Some feature /\
    request_measurable feature [base_rv] = true /\
    requests (find_measurable_max_neg find_negated_var fresh fgraph node)
      = [[base_rv]].
Proof.
  unfold find_measurable_max_neg.
  destruct (preserve_rv_mappings fgraph) as [feature|]; [|done].
  destruct (is_MeasurableMaxNeg (op node)); [done|].
  destruct (inputs node !! 0%nat) as [base_var|]; [|done].
  destruct (negb _); [done|].
  destruct (find_negated_var base_var) as [base_rv|] eqn:Hneg; [|done].
  destruct (owner base_rv) as [rv_owner|] eqn:Hown; [|done].
  destruct (is_univariate_rv (op rv_owner)) eqn:Huni; [|done]. simpl.
  destruct (some_param_not_scalar (inputs rv_owner)) eqn:Hpar; [done|].
  destruct (is_Max (op node)) as [node_axis|]; [|done].
  destruct (bool_decide _); [done|].
  destruct (request_measurable feature [base_rv]) eqn:Hreq; [|done]. simpl.
  destruct (op_dtype (op rv_owner)) as [dt|]; [|done]. simpl.
  intros [= <-].
  eexists base_var, base_rv, rv_owner, feature, _, _.
  repeat split; try done.
  destruct (String.prefix "int" dt); eexists; [by right|by left].
Qed.

End Recognisers.

Section RecogniserSamples.
Import Graph Py Order Samples.

(** The maximum of a free input is left alone. *)
Lemma find_measurable_max_rejects_witness :
  is_Max (op max_free) = Some [0%Z] /\
  inputs max_free !! 0%nat = Some free_input /\
  result (find_measurable_max 9 fgraph_granting max_free) = Return None.
Proof.
  split; [reflexivity|]. split; [reflexivity|].
  apply (find_measurable_max_rejects 9 fgraph_granting max_free [0%Z] free_input).
  - reflexivity.
  - reflexivity.
  - left. reflexivity.
Defined.

(** The other three rejections, on concrete nodes. *)
Example find_measurable_max_rejects_non_rv :
  result (find_measurable_max 9 fgraph_granting (mkApply (Max [0%Z]) [exp_x]))
  = Return None.
Proof. vm_compute. reflexivity. Qed.

Example find_measurable_max_rejects_partial_axis :
  let x2 := mkVar 7 (mkType "float64" 2)
              (Some (mkApply (RandomVariable "uniform" 0 "float64")
                       [rng; size3; dtype_in; zero; one])) in
  result (find_measurable_max 9 fgraph_granting (mkApply (Max [0%Z]) [x2]))
  = Return None.
Proof. vm_compute. reflexivity. Qed.

Example find_measurable_max_rejects_non_iid :
  let mu := mkVar 8 (mkType "float64" 1) None in
  let x := mkVar 7 (mkType "float64" 1)
             (Some (mkApply (RandomVariable "normal" 0 "float64")
                      [rng; size3; dtype_in; mu; one])) in
  result (find_measurable_max 9 fgraph_granting (mkApply (Max [0%Z]) [x]))
  = Return None.
Proof. vm_compute. reflexivity. Qed.

Example find_measurable_max_rejects_multivariate :
  let x := mkVar 7 (mkType "float64" 1)
             (Some (mkApply (RandomVariable "dirichlet" 1 "float64")
                      [rng; size3; dtype_in; one])) in
  result (find_measurable_max 9 fgraph_granting (mkApply (Max [0%Z]) [x]))
  = Return None.
Proof. vm_compute. reflexivity. Qed.

(** A node that passes every test is rewritten. *)
Example find_measurable_max_accepts :
  result (find_measurable_max 9 fgraph_granting max_x)
  = Return (Some [mkVar 9 float_scalar (Some (mkApply (MeasurableMax [0%Z]) [x_uniform]))]).
Proof. vm_compute. reflexivity. Qed.

Example find_measurable_max_neg_accepts :
  find_measurable_max_neg find_negated_var 9 fgraph_granting max_neg_x
  = mkTraced [[x_uniform]]
      (Return (Some [mkVar 9 float_scalar
                       (Some (mkApply (MeasurableMaxNeg [0%Z]) [x_uniform]))])).
Proof. vm_compute. reflexivity. Qed.

(** [max(-x)] for the uniform draw [x]: the marker is built over [x]. *)
Lemma find_measurable_max_neg_wraps_base_witness :
  exists base_var base_rv rv_owner feature marker out_type,
    inputs max_neg_x !! 0%nat = Some base_var /\
    find_negated_var base_var = Some base_rv /\
    owner base_rv = Some rv_owner /\
    is_univariate_rv (op rv_owner) = true /\
    some_param_not_scalar (inputs rv_owner) = false /\
    [mkVar 9 float_scalar (Some (mkApply (MeasurableMaxNeg [0%Z]) [x_uniform]))]
      = [mkVar 9 out_type (Some (mkApply marker [base_rv]))] /\
    (exists ax, marker = MeasurableMaxNeg ax \/ marker = MeasurableDiscreteMaxNeg ax) /\
    preserve_rv_mappings fgraph_granting = Some feature /\
    request_measurable feature [base_rv] = true /\
    requests (find_measurable_max_neg find_negated_var 9 fgraph_granting max_neg_x)
      = [[base_rv]].
Proof.
  apply (find_measurable_max_neg_wraps_base find_negated_var 9 fgraph_granting max_neg_x).
  vm_compute. reflexivity.
Defined.

(** The negation of a free input makes the recogniser raise: it reads
    [base_rv.owner.op] of a variable without owner. *)
Example find_measurable_max_neg_raises :
  let neg_free := mkVar 6 float_vector (Some (mkApply (Elemwise Mul) [minus_one; free_input])) in
  result (find_measurable_max_neg find_negated_var 9 fgraph_granting
            (mkApply (Max [0%Z]) [neg_free]))
  = Raise AttributeError.
Proof. vm_compute. reflexivity. Qed.

End RecogniserSamples.

(* ===================================================================== *)
(** * Arithmetic of the value domain *)
(* ===================================================================== *)

(** Case analysis on every comparison of reals in sight. *)
Ltac cases_R :=
  repeat match goal with
         | |- context [Rlt_dec ?a ?b] => destruct (Rlt_dec a b); try lra
         | |- context [Rle_dec ?a ?b] => destruct (Rle_dec a b); try lra
         | |- context [Req_dec_T ?a ?b] => destruct (Req_dec_T a b); try lra
         end.

Section XRealFacts.
Import XReal.
Local Open Scope R_scope.

Lemma xadd_comm a b : xadd a b = xadd b a.
Proof. destruct a, b; simpl; try reflexivity. f_equal. lra. Qed.

Lemma xadd_assoc a b c : xadd a (xadd b c) = xadd (xadd a b) c.
Proof. destruct a, b, c; simpl; try reflexivity. f_equal. lra. Qed.

Lemma xlog_pos x : 0 < x -> xlog (Fin x) = Fin (ln x).
Proof. intros H. unfold xlog. cases_R. reflexivity. Qed.

Lemma xlog_zero : xlog (Fin 0) = NInf.
Proof. unfold xlog. cases_R. reflexivity. Qed.

Lemma xlog_neg x : x < 0 -> xlog (Fin x) = NaN.
Proof. intros H. unfold xlog. cases_R. reflexivity. Qed.

Lemma xlog_NInf_inv x : 0 <= x -> xlog (Fin x) = NInf -> x = 0.
Proof. unfold xlog. intros H. cases_R; intros E; first [discriminate | lra]. Qed.

Lemma xmul_pos_NInf x : 0 < x -> xmul (Fin x) NInf = NInf.
Proof. intros H. simpl. unfold xscale_inf. cases_R. reflexivity. Qed.

(** [log1mexp] of a log-probability is the log of the complement. *)
Lemma xlog1mexp_Fin x : xlog1mexp (Fin x) = xlog (Fin (1 - exp x)).
Proof. unfold xlog1mexp. simpl. f_equal. Qed.

Lemma xlog1mexp_NInf : xlog1mexp NInf = Fin 0.
Proof.
  unfold xlog1mexp. simpl. rewrite xlog_pos by lra. f_equal.
  replace (1 + - 0) with 1 by lra. apply ln_1.
Qed.

(** Two [-inf] arguments: the inner subtraction is [nan]. *)
Lemma xlogdiffexp_NInf_NInf : xlogdiffexp NInf NInf = NaN.
Proof. reflexivity. Qed.

Lemma IZR_to_nat n : (0 <= n)%Z -> INR (Z.to_nat n) = IZR n.
Proof. intros H. by rewrite INR_IZR_INZ, Z2Nat.id. Qed.

Lemma scaled_log_pos n s :
  (0 <= n)%Z -> 0 < s ->
  xmul (Fin (IZR n)) (xlog (Fin s)) = Fin (ln (s ^ Z.to_nat n)).
Proof.
  intros Hn Hs. rewrite xlog_pos by done. simpl. f_equal.
  rewrite ln_pow by done. by rewrite IZR_to_nat.
Qed.

Lemma scaled_log_zero n :
  (1 <= n)%Z -> xmul (Fin (IZR n)) (xlog (Fin 0)) = NInf.
Proof.
  intros Hn. rewrite xlog_zero. apply xmul_pos_NInf.
  apply IZR_lt. lia.
Qed.

Lemma pow_zero_to_nat n : (1 <= n)%Z -> 0 ^ Z.to_nat n = 0.
Proof.
  intros Hn. destruct (Z.to_nat n) eqn:E; [lia|]. simpl. lra.
Qed.

(** The log-difference of two scaled logarithms is the logarithm of the
    difference of the powers, unless both bases are zero. *)
Lemma xlogdiffexp_pow n s1 s2 :
  (1 <= n)%Z -> 0 <= s1 -> 0 <= s2 -> ~ (s1 = 0 /\ s2 = 0) ->
  xlogdiffexp (xmul (Fin (IZR n)) (xlog (Fin s1))) (xmul (Fin (IZR n)) (xlog (Fin s2)))
  = xlog (Fin (s1 ^ Z.to_nat n - s2 ^ Z.to_nat n)).
Proof.
  intros Hn H1 H2 Hnz. unfold xlogdiffexp.
  destruct (Rle_lt_or_eq_dec 0 s1 H1) as [Hs1| <-];
  destruct (Rle_lt_or_eq_dec 0 s2 H2) as [Hs2| <-].
  - rewrite !scaled_log_pos by (done || lia).
    set (k := Z.to_nat n).
    assert (0 < s1 ^ k) as Hp1 by (by apply pow_lt).
    assert (0 < s2 ^ k) as Hp2 by (by apply pow_lt).
    cbn [xsub xneg xadd]. rewrite xlog1mexp_Fin.
    assert (exp (ln (s2 ^ k) + - ln (s1 ^ k)) = s2 ^ k / s1 ^ k) as ->.
    { rewrite exp_plus, exp_Ropp, !exp_ln by done. reflexivity. }
    assert (s1 ^ k - s2 ^ k = s1 ^ k * (1 - s2 ^ k / s1 ^ k)) as Hfac.
    { field. lra. }
    destruct (Rtotal_order (s2 ^ k) (s1 ^ k)) as [Hlt|[Heq|Hgt]].
    + assert (0 < 1 - s2 ^ k / s1 ^ k) as Ht.
      { apply Rmult_lt_reg_l with (s1 ^ k); [done|]. rewrite <- Hfac. lra. }
      rewrite !xlog_pos by lra. simpl. f_equal.
      rewrite Hfac, ln_mult by done. reflexivity.
    + rewrite Heq. replace (1 - s1 ^ k / s1 ^ k) with 0 by (field; lra).
      replace (s1 ^ k - s1 ^ k) with 0 by lra.
      rewrite xlog_zero. reflexivity.
    + assert (1 - s2 ^ k / s1 ^ k < 0) as Ht.
      { apply Rmult_lt_reg_l with (s1 ^ k); [done|]. rewrite <- Hfac. lra. }
      rewrite !xlog_neg by lra. reflexivity.
  - rewrite scaled_log_pos by (done || lia).
    rewrite scaled_log_zero by done.
    set (k := Z.to_nat n).
    assert (0 < s1 ^ k) as Hp1 by (by apply pow_lt).
    cbn [xsub xneg xadd]. rewrite xlog1mexp_NInf. simpl.
    unfold k. rewrite pow_zero_to_nat by done. fold k.
    rewrite Rminus_0_r, Rplus_0_r. by rewrite xlog_pos.
  - rewrite scaled_log_zero by done.
    rewrite scaled_log_pos by (done || lia).
    set (k := Z.to_nat n).
    assert (0 < s2 ^ k) as Hp2 by (by apply pow_lt).
    unfold k. rewrite pow_zero_to_nat by done. fold k.
    rewrite Rminus_0_l, xlog_neg; [reflexivity|].
    apply Ropp_lt_gt_0_contravar, Hp2.
  - exfalso. by apply Hnz.
Qed.

End XRealFacts.

(* ===================================================================== *)
(** * Certified bounds of [exp] and [ln] *)
(* ===================================================================== *)

Section NumericsFacts.
Import Numerics.
Local Open Scope R_scope.

Lemma scale_pos : 0 < IZR scale.
Proof. apply IZR_lt. reflexivity. Qed.

Lemma sq_down_sound l y :
  (0 <= l)%Z -> IZR l / IZR scale <= y ->
  (0 <= sq_down l)%Z /\ IZR (sq_down l) / IZR scale <= y * y.
Proof.
  intros Hl Hy. pose proof scale_pos as HS.
  assert (0 < scale)%Z as HSz by reflexivity.
  unfold sq_down. split.
  { apply Z.div_pos; [|done]. by apply Z.mul_nonneg_nonneg. }
  pose proof (Z.mul_div_le (l * l) scale HSz) as Hdiv.
  apply IZR_le in Hdiv. rewrite !mult_IZR in Hdiv.
  set (q := IZR (l * l / scale)) in *. set (S := IZR scale) in *. set (L := IZR l) in *.
  assert (0 <= L) as HL by (by apply IZR_le in Hl).
  assert (0 <= L / S) as HLS.
  { apply Rmult_le_pos; [done|]. by apply Rlt_le, Rinv_0_lt_compat. }
  apply Rle_trans with ((L / S) * (L / S)).
  - replace (q / S) with ((S * q) * / (S * S)) by (field; lra).
    replace (L / S * (L / S)) with ((L * L) * / (S * S)) by (field; lra).
    apply Rmult_le_compat_r; [|done].
    apply Rlt_le, Rinv_0_lt_compat. by apply Rmult_lt_0_compat.
  - by apply Rmult_le_compat.
Qed.

Lemma sq_iter_sound k : forall l z,
  (0 <= l)%Z -> IZR l / IZR scale <= exp z ->
  IZR (sq_iter k l) / IZR scale <= exp (2 ^ k * z).
Proof.
  induction k as [|k IH]; intros l z Hl Hz.
  - simpl. by rewrite Rmult_1_l.
  - destruct (sq_down_sound l (exp z) Hl Hz) as [H0 Hsq].
    rewrite <- exp_plus in Hsq.
    replace (2 ^ S k * z) with (2 ^ k * (z + z)) by (simpl; lra).
    simpl. by apply IH.
Qed.

Lemma exp_lb_sound k yn yd :
  (0 < yd)%Z -> (0 <= yd * 2 ^ Z.of_nat k + yn)%Z ->
  IZR (exp_lb k yn yd) / IZR scale <= exp (IZR yn / IZR yd).
Proof.
  intros Hyd Hnn. pose proof scale_pos as HS.
  unfold exp_lb. set (d := (yd * 2 ^ Z.of_nat k)%Z) in *.
  assert (0 < d)%Z as Hd.
  { unfold d. apply Z.mul_pos_pos; [done|]. apply Z.pow_pos_nonneg; lia. }
  assert (IZR d = IZR yd * 2 ^ k) as HdR.
  { unfold d. rewrite mult_IZR. f_equal. by rewrite <- pow_IZR. }
  assert (0 < IZR yd) as HydR by (by apply IZR_lt).
  assert (0 < 2 ^ k) as Hpow by (apply pow_lt; lra).
  assert (0 < IZR d) as HdR0 by (by apply IZR_lt).
  set (z := IZR yn / IZR yd / 2 ^ k).
  replace (IZR yn / IZR yd) with (2 ^ k * z) by (unfold z; field; lra).
  apply sq_iter_sound.
  { apply Z.div_pos; [|done]. apply Z.mul_nonneg_nonneg; [|done]. by vm_compute. }
  apply Rle_trans with (1 + z); [|apply exp_ineq1_le].
  pose proof (Z.mul_div_le (scale * (d + yn)) d Hd) as Hdiv.
  apply IZR_le in Hdiv. rewrite !mult_IZR, plus_IZR in Hdiv.
  set (l0 := IZR (scale * (d + yn) / d)) in *.
  assert (1 + z = (IZR scale * (IZR d + IZR yn)) / (IZR scale * IZR d)) as ->.
  { unfold z. rewrite HdR. field. lra. }
  replace (l0 / IZR scale) with ((IZR d * l0) / (IZR scale * IZR d)) by (field; lra).
  apply Rmult_le_compat_r; [|done].
  apply Rlt_le, Rinv_0_lt_compat. by apply Rmult_lt_0_compat.
Qed.

(** A rational below the computed bound is below the exponential. *)
Lemma exp_gt_by_lb k yn yd pn pd :
  (0 < yd)%Z -> (0 < pd)%Z -> (0 <= yd * 2 ^ Z.of_nat k + yn)%Z ->
  (pn * scale < exp_lb k yn yd * pd)%Z ->
  IZR pn / IZR pd < exp (IZR yn / IZR yd).
Proof.
  intros Hyd Hpd Hnn Hlt. pose proof scale_pos as HS.
  eapply Rlt_le_trans; [|by apply (exp_lb_sound k)].
  apply IZR_lt in Hlt. rewrite !mult_IZR in Hlt.
  assert (0 < IZR pd) as HpdR by (by apply IZR_lt).
  set (lb := IZR (exp_lb k yn yd)) in *.
  replace (IZR pn / IZR pd) with ((IZR pn * IZR scale) / (IZR pd * IZR scale)) by (field; lra).
  replace (lb / IZR scale) with ((lb * IZR pd) / (IZR pd * IZR scale)) by (field; lra).
  apply Rmult_lt_compat_r; [|done].
  apply Rinv_0_lt_compat. by apply Rmult_lt_0_compat.
Qed.

(** [an/ad < ln (qn/qd)], from a lower bound of [exp (-an/ad)]. *)
Lemma ln_gt_by_lb k an ad qn qd :
  (0 < ad)%Z -> (0 < qn)%Z -> (0 < qd)%Z ->
  (0 <= ad * 2 ^ Z.of_nat k + - an)%Z ->
  (qd * scale < exp_lb k (- an) ad * qn)%Z ->
  IZR an / IZR ad < ln (IZR qn / IZR qd).
Proof.
  intros Had Hqn Hqd Hnn Hlt.
  pose proof (exp_gt_by_lb k (- an) ad qd qn Had Hqn Hnn Hlt) as Hexp.
  assert (0 < IZR qn) as HqnR by (by apply IZR_lt).
  assert (0 < IZR qd) as HqdR by (by apply IZR_lt).
  assert (0 < IZR ad) as HadR by (by apply IZR_lt).
  set (a := IZR an / IZR ad).
  replace (IZR (- an) / IZR ad) with (- a) in Hexp
    by (unfold a; rewrite opp_IZR; field; lra).
  rewrite exp_Ropp in Hexp.
  pose proof (exp_pos a) as Ha.
  rewrite <- (ln_exp a) at 1. apply ln_increasing; [done|].
  assert (0 < IZR qd / IZR qn) as Hq.
  { apply Rmult_lt_0_compat; [done|]. by apply Rinv_0_lt_compat. }
  apply Rinv_lt_contravar in Hexp.
  - rewrite Rinv_inv in Hexp.
    replace (/ (IZR qd / IZR qn)) with (IZR qn / IZR qd) in Hexp by (field; lra).
    done.
  - apply Rmult_lt_0_compat; [done|]. by apply Rinv_0_lt_compat.
Qed.

(** [ln (qn/qd) < bn/bd], from a lower bound of [exp (bn/bd)]. *)
Lemma ln_lt_by_lb k bn bd qn qd :
  (0 < bd)%Z -> (0 < qn)%Z -> (0 < qd)%Z ->
  (0 <= bd * 2 ^ Z.of_nat k + bn)%Z ->
  (qn * scale < exp_lb k bn bd * qd)%Z ->
  ln (IZR qn / IZR qd) < IZR bn / IZR bd.
Proof.
  intros Hbd Hqn Hqd Hnn Hlt.
  pose proof (exp_gt_by_lb k bn bd qn qd Hbd Hqd Hnn Hlt) as Hexp.
  assert (0 < IZR qn / IZR qd) as Hq.
  { apply Rmult_lt_0_compat; [by apply IZR_lt|].
    by apply Rinv_0_lt_compat, IZR_lt. }
  rewrite <- (ln_exp (IZR bn / IZR bd)). by apply ln_increasing.
Qed.

(** The two numbers of the scenarios. *)
Lemma ln_21675_bounds :
  7735 / 10000 < ln (21675 / 10000) /\ ln (21675 / 10000) < 7736 / 10000.
Proof.
  split.
  - apply (ln_gt_by_lb 24 7735 10000 21675 10000); by vm_compute.
  - apply (ln_lt_by_lb 24 7736 10000 21675 10000); by vm_compute.
Qed.


End NumericsFacts.

(* ===================================================================== *)
(** * The density rules *)
(* ===================================================================== *)

Section DensityRules.
Import Graph Py XReal Expr Order.
Local Open Scope R_scope.

Lemma eval_logdiffexp I a b :
  eval I (logdiffexp a b) = xlogdiffexp (eval I a) (eval I b).
Proof. reflexivity. Qed.

Lemma xeqb_NInf a : xeqb a NInf = true <-> a = NInf.
Proof. destruct a; simpl; split; congruence. Qed.

Lemma xexp_xlog F : 0 <= F -> xexp (xlog (Fin F)) = Fin F.
Proof.
  intros [HF| <-].
  - rewrite xlog_pos by done. simpl. by rewrite exp_ln.
  - by rewrite xlog_zero.
Qed.

(** The log-survival term of a log-CDF. *)
Lemma xlog1mexp_xlog F : 0 <= F -> xlog1mexp (xlog (Fin F)) = xlog (Fin (1 - F)).
Proof. intros HF. unfold xlog1mexp. by rewrite xexp_xlog. Qed.

(** C4.  For a base variable of foldable size [n], [max_neg_logprob]
    returns the graph [(n - 1) * log(1 - exp(logcdf)) + logprob + log(n)]
    with both services applied to the negated value; its value is
    [log n + (n - 1) * log (1 - exp (logF (-x))) + logf (-x)]. *)
Theorem max_neg_logprob_formula constant_fold_size op value base_rv n I :
  constant_fold_size base_rv = Return n ->
  exists e,
    max_neg_logprob constant_fold_size op [value] base_rv = Return e /\
    e = EAdd (EAdd (EMul (EInt (n - 1))
                      (ELog (ESub (EInt 1) (EExp (_logcdf_helper base_rv (ENeg value))))))
                (_logprob_helper base_rv (ENeg value)))
             (ELog (EInt n)) /\
    let x := eval I value in
    let logF := logcdf_of I base_rv (xneg x) in
    let logf := logprob_of I base_rv (xneg x) in
    eval I e =
      xadd (xadd (xlog (Fin (IZR n)))
                 (xmul (Fin (IZR (n - 1))) (xlog (xsub (Fin 1) (xexp logF)))))
           logf.
Proof.
  intros Hn. eexists. unfold max_neg_logprob. rewrite Hn. cbn [bind].
  split; [reflexivity|]. split; [reflexivity|].
  cbn zeta. cbn [eval EInt _logcdf_helper _logprob_helper].
  rewrite (xadd_comm (xadd _ _) (xlog _)). by rewrite xadd_assoc.
Qed.

(** The discrete-min rule, in general. *)
Lemma discrete_max_neg_logprob_graph constant_fold_size op value base_rv n :
  constant_fold_size base_rv = Return n ->
  discrete_max_neg_logprob constant_fold_size op [value] base_rv =
  Return
    (let logcdf := ELog1mexp (_logcdf_helper base_rv (ENeg value)) in
     let logcdf_prev :=
       ELog1mexp (_logcdf_helper base_rv (ENeg (EAdd value (EInt 1)))) in
     EWhere (BAnd (BEq logcdf (EConst NInf)) (BEq logcdf_prev (EConst NInf)))
       (EConst NInf)
       (logdiffexp (EMul (EInt n) logcdf_prev) (EMul (EInt n) logcdf))).
Proof. intros Hn. unfold discrete_max_neg_logprob. by rewrite Hn. Qed.

(** C3.  For a base variable of foldable size [n] and a value [x], let
    [lc] and [lcp] be [log1mexp] of the base log-CDF at [-x] and at its
    predecessor [-(x + 1)].  When both are [-inf], [discrete_max_neg_logprob]
    evaluates to [-inf] through its [where] branch, although the
    log-difference under it is [nan] there; otherwise it evaluates to the
    log-difference of [n * lcp] and [n * lc].  With [F] and [Fp] the CDF at
    [-x] and [-(x + 1)], this is [log ((1 - Fp)^n - (1 - F)^n)]. *)
Theorem discrete_max_neg_logprob_guard constant_fold_size op value base_rv n I :
  constant_fold_size base_rv = Return n ->
  exists e,
    discrete_max_neg_logprob constant_fold_size op [value] base_rv = Return e /\
    let x := eval I value in
    let logF := logcdf_of I base_rv (xneg x) in
    let logFp := logcdf_of I base_rv (xneg (xadd x (Fin 1))) in
    let lc := xlog1mexp logF in
    let lcp := xlog1mexp logFp in
    let unguarded := xlogdiffexp (xmul (Fin (IZR n)) lcp) (xmul (Fin (IZR n)) lc) in
    (lc = NInf -> lcp = NInf ->
       eval I e = NInf /\ ((1 <= n)%Z -> unguarded = NaN)) /\
    (~ (lc = NInf /\ lcp = NInf) -> eval I e = unguarded) /\
    (forall F Fp,
       (1 <= n)%Z -> logF = xlog (Fin F) -> logFp = xlog (Fin Fp) ->
       0 <= F <= 1 -> 0 <= Fp <= 1 ->
       eval I e = xlog (Fin ((1 - Fp) ^ Z.to_nat n - (1 - F) ^ Z.to_nat n))).
Proof.
  intros Hn. eexists. split; [by apply discrete_max_neg_logprob_graph|].
  cbn zeta. unfold logdiffexp, _logcdf_helper, EInt, xlogdiffexp. cbn [eval beval].
  set (lc := xlog1mexp (logcdf_of I base_rv (xneg (eval I value)))).
  set (lcp := xlog1mexp (logcdf_of I base_rv (xneg (xadd (eval I value) (Fin 1))))).
  set (U := xadd (xmul (Fin (IZR n)) lcp)
              (xlog1mexp (xsub (xmul (Fin (IZR n)) lc) (xmul (Fin (IZR n)) lcp)))).
  assert (Hguard : lc = NInf -> lcp = NInf ->
            (if xeqb lc NInf && xeqb lcp NInf then NInf else U) = NInf).
  { intros -> ->. reflexivity. }
  assert (Helse : ~ (lc = NInf /\ lcp = NInf) ->
            (if xeqb lc NInf && xeqb lcp NInf then NInf else U) = U).
  { intros Hnot. destruct (xeqb lc NInf && xeqb lcp NInf) eqn:E; [|done].
    apply andb_true_iff in E as [E1 E2].
    apply xeqb_NInf in E1, E2. exfalso. by apply Hnot. }
  assert (Hpow : forall F Fp, (1 <= n)%Z ->
            lc = xlog (Fin (1 - F)) -> lcp = xlog (Fin (1 - Fp)) ->
            0 <= 1 - F -> 0 <= 1 - Fp -> ~ (1 - Fp = 0 /\ 1 - F = 0) ->
            U = xlog (Fin ((1 - Fp) ^ Z.to_nat n - (1 - F) ^ Z.to_nat n))).
  { intros F Fp Hn1 Elc Elcp HF HFp Hnz. unfold U. rewrite Elc, Elcp.
    by apply xlogdiffexp_pow. }
  split; [|split].
  - intros Hlc Hlcp. split; [by apply Hguard|].
    intros Hn1. unfold U. rewrite Hlc, Hlcp.
    rewrite xmul_pos_NInf by (apply IZR_lt; lia). reflexivity.
  - exact Helse.
  - intros F Fp Hn1 HF HFp [HF0 HF1] [HFp0 HFp1].
    assert (lc = xlog (Fin (1 - F))) as Elc.
    { unfold lc. rewrite HF. by apply xlog1mexp_xlog. }
    assert (lcp = xlog (Fin (1 - Fp))) as Elcp.
    { unfold lcp. rewrite HFp. by apply xlog1mexp_xlog. }
    destruct (Req_dec_T (1 - F) 0) as [EF|NF];
      [destruct (Req_dec_T (1 - Fp) 0) as [EFp|NFp]|].
    + rewrite Hguard.
      * rewrite EF, EFp, pow_zero_to_nat by done.
        rewrite Rminus_diag. by rewrite xlog_zero.
      * by rewrite Elc, EF, xlog_zero.
      * by rewrite Elcp, EFp, xlog_zero.
    + rewrite Helse.
      * apply Hpow; [done..|lra|lra|tauto].
      * intros [_ H]. rewrite Elcp in H.
        apply xlog_NInf_inv in H; [done|lra].
    + rewrite Helse.
      * apply Hpow; [done..|lra|lra|tauto].
      * intros [H _]. rewrite Elc in H.
        apply xlog_NInf_inv in H; [done|lra].
Qed.

End DensityRules.

(* ===================================================================== *)
(** * The continuous and the discrete maximum *)
(* ===================================================================== *)

Section MaxRules.
Import Graph Py XReal Expr Order Distributions Samples.
Local Open Scope R_scope.

Lemma max_logprob_graph constant_fold_size op value base_rv n :
  constant_fold_size base_rv = Return n ->
  max_logprob constant_fold_size op [value] base_rv =
  Return (EAdd (EAdd (EMul (EInt (n - 1)) (_logcdf_helper base_rv value))
                     (_logprob_helper base_rv value))
               (ELog (EInt n))).
Proof. intros Hn. unfold max_logprob. by rewrite Hn. Qed.

Lemma max_logprob_discrete_graph constant_fold_size op value base_rv n :
  constant_fold_size base_rv = Return n ->
  max_logprob_discrete constant_fold_size op [value] base_rv =
  Return (logdiffexp (EMul (EInt n) (_logcdf_helper base_rv value))
                     (EMul (EInt n) (_logcdf_helper base_rv (ESub value (EInt 1))))).
Proof. intros Hn. unfold max_logprob_discrete. by rewrite Hn. Qed.

(** The value of the continuous-max graph. *)
Lemma max_logprob_eval I base_rv value n :
  let x := eval I value in
  eval I (EAdd (EAdd (EMul (EInt (n - 1)) (_logcdf_helper base_rv value))
                     (_logprob_helper base_rv value))
               (ELog (EInt n)))
  = xadd (xadd (xlog (Fin (IZR n)))
               (xmul (Fin (IZR (n - 1))) (logcdf_of I base_rv x)))
         (logprob_of I base_rv x).
Proof.
  cbn zeta. cbn [eval EInt _logcdf_helper _logprob_helper].
  rewrite (xadd_comm (xadd _ _) (xlog _)). by rewrite xadd_assoc.
Qed.

(** The value of the discrete-max graph where the CDF is positive. *)
Lemma max_logprob_discrete_eval I base_rv value n F Fp :
  (1 <= n)%Z ->
  logcdf_of I base_rv (eval I value) = xlog (Fin F) ->
  logcdf_of I base_rv (xsub (eval I value) (Fin 1)) = xlog (Fin Fp) ->
  0 < F -> 0 <= Fp ->
  eval I (logdiffexp (EMul (EInt n) (_logcdf_helper base_rv value))
                     (EMul (EInt n) (_logcdf_helper base_rv (ESub value (EInt 1)))))
  = xlog (Fin (F ^ Z.to_nat n - Fp ^ Z.to_nat n)).
Proof.
  intros Hn HF HFp HF0 HFp0. rewrite eval_logdiffexp.
  cbn [eval EInt _logcdf_helper]. rewrite HF, HFp.
  apply xlogdiffexp_pow; [done|lra|done|]. intros [-> _]. lra.
Qed.


(** ** The uniform scenario *)

Lemma uniform01_logcdf x rv v :
  0 < v < 1 ->
  logcdf_of (uniform01 x) rv (Fin v) = Fin (ln v).
Proof.
  intros Hv. unfold uniform01, Uniform_logcdf, EInt. cbn [logcdf_of eval beval].
  unfold xltb, xeqb. cases_R. cbn [orb].
  cbn [xsub xneg xadd]. rewrite !xlog_pos by lra.
  cbn [xsub xneg xadd]. f_equal.
  replace (1 + - 0) with 1 by lra. replace (v + - 0) with v by lra.
  rewrite ln_1. lra.
Qed.

Lemma uniform01_logprob x rv v :
  0 <= v <= 1 ->
  logprob_of (uniform01 x) rv (Fin v) = Fin 0.
Proof.
  intros Hv. unfold uniform01, Uniform_logp, bound, EInt. cbn [logprob_of eval beval].
  unfold xleb. cases_R. cbn [andb].
  cbn [xsub xneg xadd]. rewrite xlog_pos by lra.
  cbn [xneg]. f_equal.
  replace (1 + - 0) with 1 by lra. rewrite ln_1. lra.
Qed.

(** Three uniform draws, maximum observed at [0.85]. *)
Lemma max_logprob_uniform_value :
  exists e,
    max_logprob fold_three (MeasurableMax [0%Z]) [x_max_value] x_uniform = Return e /\
    eval (uniform01 (Fin (85 / 100))) e = Fin (ln 3 + 2 * ln (85 / 100)).
Proof.
  eexists. split; [by apply max_logprob_graph|].
  rewrite max_logprob_eval. cbn zeta. cbn [eval x_max_value value_of uniform01].
  fold (uniform01 (Fin (85 / 100))).
  rewrite uniform01_logcdf, uniform01_logprob by lra.
  rewrite xlog_pos by lra. simpl. f_equal.
  change (IZR (3 - 1)) with 2. lra.
Qed.

Lemma ln3_2ln085 : ln 3 + 2 * ln (85 / 100) = ln (21675 / 10000).
Proof.
  replace (21675 / 10000) with (3 * ((85 / 100) * (85 / 100))) by lra.
  rewrite !ln_mult by lra. lra.
Qed.

Lemma max_logprob_uniform_bounds :
  7735 / 10000 < ln 3 + 2 * ln (85 / 100) < 7736 / 10000.
Proof. rewrite ln3_2ln085. apply ln_21675_bounds. Qed.

(** ** The discrete uniform scenario *)

Lemma Int_part_IZR z : Int_part (IZR z) = z.
Proof. symmetry. apply Int_part_spec. lra. Qed.

Lemma discrete_uniform04_logcdf k :
  (0 <= k < 4)%Z ->
  discrete_uniform_logcdf 0 4 (Fin (IZR k)) = xlog (Fin (IZR (k + 1) / 5)).
Proof.
  intros [Hk0 Hk4]. apply IZR_le in Hk0. apply IZR_lt in Hk4.
  unfold discrete_uniform_logcdf. cases_R.
  rewrite Int_part_IZR.
  replace (k - 0 + 1)%Z with (k + 1)%Z by lia.
  change (IZR (4 - 0 + 1)) with 5.
  rewrite xlog_pos; [reflexivity|]. rewrite plus_IZR. lra.
Qed.



(** Below the support both log-CDFs are [-inf], and the unguarded
    log-difference is [nan]. *)
Example max_logprob_discrete_below_support :
  exists e,
    max_logprob_discrete fold_three (MeasurableMaxDiscrete [0%Z]) [k_value] x_discrete
      = Return e /\
    eval (discrete_uniform04 (Fin (-1))) e = NaN.
Proof.
  eexists. split; [by apply max_logprob_discrete_graph|].
  rewrite eval_logdiffexp.
  cbn [eval EInt k_value _logcdf_helper value_of discrete_uniform04 logcdf_of
       xsub xneg xadd].
  unfold discrete_uniform_logcdf. cases_R.
  rewrite xmul_pos_NInf by lra. reflexivity.
Qed.

End MaxRules.

Section DensityRuleStatements.
Import Graph Py XReal Expr Order Distributions Samples.
Local Open Scope R_scope.

(** C1.  For a base variable of foldable size [n], [max_logprob] returns
    the graph [(n - 1) * logcdf + logprob + log(n)], whose value is
    [log n + (n - 1) * logF x + logf x], with [logF] and [logf] the base
    log-CDF and log-density at the observed value.  For three standard
    uniform draws and a maximum observed at [0.85] this is
    [log 3 + 2 * log 0.85], which lies between [0.7735] and [0.7736]. *)
Theorem max_logprob_formula :
  (forall constant_fold_size op value base_rv n I,
     constant_fold_size base_rv = Return n ->
     exists e,
       max_logprob constant_fold_size op [value] base_rv = Return e /\
       e = EAdd (EAdd (EMul (EInt (n - 1)) (_logcdf_helper base_rv value))
                      (_logprob_helper base_rv value))
                (ELog (EInt n)) /\
       let x := eval I value in
       eval I e =
         xadd (xadd (xlog (Fin (IZR n)))
                    (xmul (Fin (IZR (n - 1))) (logcdf_of I base_rv x)))
              (logprob_of I base_rv x)) /\
  (exists e v,
     max_logprob fold_three (MeasurableMax [0%Z]) [x_max_value] x_uniform = Return e /\
     eval (uniform01 (Fin (85 / 100))) e = Fin v /\
     v = ln 3 + 2 * ln (85 / 100) /\
     7735 / 10000 < v < 7736 / 10000).
Proof.
  split.
  - intros cfs op value base_rv n I Hn. eexists.
    split; [by apply max_logprob_graph|]. split; [reflexivity|].
    apply max_logprob_eval.
  - destruct max_logprob_uniform_value as (e & He & Hv).
    exists e, (ln 3 + 2 * ln (85 / 100)).
    split; [done|]. split; [done|]. split; [done|].
    apply max_logprob_uniform_bounds.
Qed.

Lemma max_logprob_formula_witness :
  exists e,
    max_logprob fold_three (MeasurableMax [0%Z]) [x_max_value] x_uniform = Return e /\
    e = EAdd (EAdd (EMul (EInt (3 - 1)) (_logcdf_helper x_uniform x_max_value))
                   (_logprob_helper x_uniform x_max_value))
             (ELog (EInt 3)) /\
    eval (uniform01 (Fin (85 / 100))) e =
      xadd (xadd (xlog (Fin 3))
                 (xmul (Fin (IZR (3 - 1)))
                    (logcdf_of (uniform01 (Fin (85 / 100))) x_uniform (Fin (85 / 100)))))
           (logprob_of (uniform01 (Fin (85 / 100))) x_uniform (Fin (85 / 100))).
Proof.
  apply (proj1 max_logprob_formula fold_three (MeasurableMax [0%Z]) x_max_value
           x_uniform 3%Z (uniform01 (Fin (85 / 100)))).
  reflexivity.
Defined.

(** The value of the uniform scenario is not within [0.1] of [0.3315]. *)
Lemma max_logprob_uniform_not_03315 :
  ~ (exists e v,
       max_logprob fold_three (MeasurableMax [0%Z]) [x_max_value] x_uniform = Return e /\
       eval (uniform01 (Fin (85 / 100))) e = Fin v /\
       Rabs (v - 3315 / 10000) < 1 / 10).
Proof.
  intros (e & v & He & Hv & Habs).
  destruct max_logprob_uniform_value as (e' & He' & Hv').
  rewrite He in He'. injection He' as <-.
  assert (v = ln 3 + 2 * ln (85 / 100)) as -> by congruence.
  pose proof max_logprob_uniform_bounds as [Hlo Hhi].
  apply Rabs_def2 in Habs as [Ha Hb]. lra.
Qed.




(** Three discrete uniform draws on [{0, ..., 4}], and [-5] observed for the
    maximum of the negation (a minimum of [5], above the support): both
    log-survival terms are [-inf] and the rule gives [-inf]. *)
Lemma discrete_max_neg_logprob_guard_witness :
  exists e,
    discrete_max_neg_logprob fold_three (MeasurableDiscreteMaxNeg [0%Z]) [k_value] x_discrete
      = Return e /\
    eval (discrete_uniform04 (Fin (-5))) e = NInf.
Proof.
  destruct (discrete_max_neg_logprob_guard fold_three (MeasurableDiscreteMaxNeg [0%Z])
              k_value x_discrete 3%Z (discrete_uniform04 (Fin (-5))) eq_refl)
    as (e & He & Hboth & _).
  exists e. split; [exact He|].
  apply Hboth.
  - cbn [eval k_value value_of discrete_uniform04 logcdf_of xneg].
    unfold discrete_uniform_logcdf. cases_R.
    rewrite xlog1mexp_Fin, exp_0, Rminus_diag. apply xlog_zero.
  - cbn [eval k_value value_of discrete_uniform04 logcdf_of xneg xadd].
    unfold discrete_uniform_logcdf. cases_R.
    rewrite xlog1mexp_Fin, exp_0, Rminus_diag. apply xlog_zero.
Defined.

(** Three uniform draws and the maximum of their negation. *)
Lemma max_neg_logprob_formula_witness :
  exists e,
    max_neg_logprob fold_three (MeasurableMaxNeg [0%Z]) [x_max_value] x_uniform
      = Return e /\
    e = EAdd (EAdd (EMul (EInt (3 - 1))
                      (ELog (ESub (EInt 1)
                               (EExp (_logcdf_helper x_uniform (ENeg x_max_value))))))
                (_logprob_helper x_uniform (ENeg x_max_value)))
             (ELog (EInt 3)) /\
    let I := uniform01 (Fin (- (15 / 100))) in
    let x := eval I x_max_value in
    let logF := logcdf_of I x_uniform (xneg x) in
    let logf := logprob_of I x_uniform (xneg x) in
    eval I e =
      xadd (xadd (xlog (Fin 3))
                 (xmul (Fin (IZR (3 - 1))) (xlog (xsub (Fin 1) (xexp logF)))))
           logf.
Proof.
  apply (max_neg_logprob_formula fold_three (MeasurableMaxNeg [0%Z]) x_max_value
           x_uniform 3%Z (uniform01 (Fin (- (15 / 100))))).
  reflexivity.
Defined.

End DensityRuleStatements.

(* ===================================================================== *)
(** * Round trips of the scalar maps *)
(* ===================================================================== *)

Section ScalarMaps.
Import Transforms.
Local Open Scope R_scope.









Lemma sigmoid_unit y : 0 < sigmoid y < 1.
Proof.
  unfold sigmoid. pose proof (exp_pos (- y)) as He.
  replace (1 / (1 + exp (- y))) with (/ (1 + exp (- y))) by (field; lra).
  split.
  - apply Rinv_0_lt_compat. lra.
  - rewrite <- Rinv_1 at 2. apply Rinv_lt_contravar; lra.
Qed.



End ScalarMaps.

Section CircularMap.
Import Transforms.
Local Open Scope R_scope.

Lemma arctan2_pos_cos t :
  - (PI / 2) < t < PI / 2 -> arctan2 (sin t) (cos t) = t.
Proof.
  intros [H1 H2]. pose proof (cos_gt_0 t H1 H2) as Hc.
  unfold arctan2. destruct (Rlt_dec 0 (cos t)); [|lra].
  change (sin t / cos t) with (tan t). by apply atan_tan.
Qed.

(** The angle of a point of the circle is the parameter it came from. *)
Lemma arctan2_sin_cos t : - PI < t <= PI -> arctan2 (sin t) (cos t) = t.
Proof.
  intros [Hlo Hhi]. pose proof PI_RGT_0 as Hpi.
  destruct (Rtotal_order t (PI / 2)) as [Hlt|[->|Hgt]].
  - destruct (Rtotal_order t (- (PI / 2))) as [Hlt'|[->|Hgt']].
    + (* third quadrant *)
      set (u := t + PI).
      assert (sin t = - sin u) as Hs by (unfold u; rewrite neg_sin; lra).
      assert (cos t = - cos u) as Hc by (unfold u; rewrite neg_cos; lra).
      assert (0 < cos u) as Hcu by (apply cos_gt_0; unfold u; lra).
      assert (0 < sin u) as Hsu by (apply sin_gt_0; unfold u; lra).
      unfold arctan2.
      destruct (Rlt_dec 0 (cos t)); [lra|].
      destruct (Rlt_dec (cos t) 0); [|lra].
      destruct (Rle_dec 0 (sin t)); [lra|].
      rewrite Hs, Hc.
      replace (- sin u / - cos u) with (tan u) by (unfold tan; field; lra).
      rewrite atan_tan by (unfold u; lra). unfold u. lra.
    + rewrite sin_neg, cos_neg, sin_PI2, cos_PI2. unfold arctan2.
      destruct (Rlt_dec 0 0); [lra|].
      destruct (Rlt_dec 0 (- (1))); [lra|].
      destruct (Rlt_dec (- (1)) 0); [reflexivity|lra].
    + apply arctan2_pos_cos. lra.
  - rewrite sin_PI2, cos_PI2. unfold arctan2.
    destruct (Rlt_dec 0 0); [lra|].
    destruct (Rlt_dec 0 1); [reflexivity|lra].
  - (* second quadrant *)
    set (u := t - PI).
    assert (sin t = - sin u) as Hs.
    { replace t with (u + PI) by (unfold u; lra). apply neg_sin. }
    assert (cos t = - cos u) as Hc.
    { replace t with (u + PI) by (unfold u; lra). apply neg_cos. }
    assert (0 < cos u) as Hcu by (apply cos_gt_0; unfold u; lra).
    assert (0 <= sin t) as Hst by (apply sin_ge_0; lra).
    unfold arctan2.
    destruct (Rlt_dec 0 (cos t)); [lra|].
    destruct (Rlt_dec (cos t) 0); [|lra].
    destruct (Rle_dec 0 (sin t)); [|lra].
    rewrite Hs, Hc.
    replace (- sin u / - cos u) with (tan u) by (unfold tan; field; lra).
    rewrite atan_tan by (unfold u; lra). unfold u. lra.
Qed.

End CircularMap.

(* ===================================================================== *)
(** * Lifting round trips to tensors *)
(* ===================================================================== *)

Section Lifting.
Import Py Tensor Transforms.
Local Open Scope R_scope.

Lemma map_roundtrip {A B : Type} (f : A -> B) (g : B -> A)
    (P : A -> Prop) (Q : B -> Prop) (l : list A) :
  (forall x, P x -> Q (f x) /\ g (f x) = x) ->
  Forall P l -> Forall Q (map f l) /\ map g (map f l) = l.
Proof.
  intros Hfg. induction 1 as [|x l Hx _ [IH1 IH2]]; simpl; [done|].
  destruct (Hfg x Hx) as [HQ Hg]. split; [by constructor|]. by rewrite Hg, IH2.
Qed.


Lemma tmap_roundtrip (f g : R -> R) (P Q : R -> Prop) t :
  (forall x, P x -> Q (f x) /\ g (f x) = x) ->
  tall P t -> tall Q (tmap f t) /\ tmap g (tmap f t) = t.
Proof.
  intros Hfg. destruct t as [x|v|m]; simpl; intros Ht.
  - destruct (Hfg x Ht) as [HQ Hg]. split; [done|]. by rewrite Hg.
  - destruct (map_roundtrip f g P Q v Hfg Ht) as [H1 H2]. split; [done|]. by rewrite H2.
  - destruct (map_roundtrip (map f) (map g) (Forall P) (Forall Q) m) as [H1 H2];
      [|done|].
    { intros v Hv. by apply (map_roundtrip f g P Q v). }
    split; [done|]. by rewrite H2.
Qed.




End Lifting.

(* ===================================================================== *)
(** * Round trips of the maps along the last axis *)
(* ===================================================================== *)

Section VectorMaps.
Import Py Tensor Transforms.
Local Open Scope R_scope.




(** ** [SumTo1] *)



(** ** [Ordered] *)







(** ** [StickBreaking] *)







End VectorMaps.

Section DiagonalMaps.
Import Py Tensor Transforms.
Local Open Scope R_scope.




End DiagonalMaps.

(* ===================================================================== *)
(** * [Chain]: order of application, and round trips *)
(* ===================================================================== *)

Section ChainFacts.
Import Py Tensor Transforms.
Local Open Scope R_scope.







Lemma tmap_fixed (g : R -> R) (P : R -> Prop) t :
  (forall x, P x -> g x = x) -> tall P t -> tmap g t = t.
Proof.
  intros Hg Ht.
  destruct (tmap_roundtrip (fun x => x) g P P t) as [_ H]; [|done|].
  { intros x Hx. split; [done|]. by apply Hg. }
  destruct t as [x|v|m]; simpl in *.
  - done.
  - by rewrite map_id in H.
  - rewrite (map_ext (map (fun x => x)) (fun r => r)) in H by apply map_id.
    by rewrite map_id in H.
Qed.

End ChainFacts.

(* ===================================================================== *)
(** * The transforms round-trip *)
(* ===================================================================== *)

Section RoundTrips.
Import Py Tensor Transforms.
Local Open Scope R_scope.














End RoundTrips.

Section TransformStatements.
Import Py Tensor Transforms Samples.
Local Open Scope R_scope.



(** C10.  With the last axis of [rv_var] of length one,
    [StickBreaking] returns its argument in [forward] and [backward].
    [SumTo1] has no such case: [forward] drops the last entry (of a
    one-entry vector nothing is left) and [backward] appends what is missing
    to one.  [Interval] with a lower bound only maps by [log (x - a)] and
    back by [exp y + a]; with an upper bound only by [log (b - x)] and back
    by [b - exp y]; with no bound both maps return their argument. *)
Theorem degenerate_and_one_sided :
  (forall rv t, broadcastable_last rv = Return true ->
     forward StickBreaking rv t = Return t /\ backward StickBreaking rv t = Return t) /\
  (forall rv v,
     forward SumTo1 rv (T1 v) = Return (T1 (removelast v)) /\
     backward SumTo1 rv (T1 v) = Return (T1 (v ++ [1 - Rsum v]))) /\
  (forall fn rv a t, fn rv = (Some a, None) ->
     forward (Interval fn) rv t = Return (tmap (fun x => ln (x - a)) t) /\
     backward (Interval fn) rv t = Return (tmap (fun y => exp y + a) t)) /\
  (forall fn rv b t, fn rv = (None, Some b) ->
     forward (Interval fn) rv t = Return (tmap (fun x => ln (b - x)) t) /\
     backward (Interval fn) rv t = Return (tmap (fun y => b - exp y) t)) /\
  (forall fn rv t, fn rv = (None, None) ->
     forward (Interval fn) rv t = Return t /\ backward (Interval fn) rv t = Return t).
Proof.
  repeat apply conj.
  - intros rv t Hb. cbn [forward backward StickBreaking].
    unfold StickBreaking_forward, StickBreaking_backward. by rewrite Hb.
  - done.
  - intros fn rv a t Hfn. cbn [forward backward Interval].
    unfold Interval_forward, Interval_backward. by rewrite Hfn.
  - intros fn rv b t Hfn. cbn [forward backward Interval].
    unfold Interval_forward, Interval_backward. by rewrite Hfn.
  - intros fn rv t Hfn. cbn [forward backward Interval].
    unfold Interval_forward, Interval_backward. by rewrite Hfn.
Qed.

Lemma degenerate_and_one_sided_witness :
  forward StickBreaking degenerate_rv (T1 [1]) = Return (T1 [1]) /\
  backward StickBreaking degenerate_rv (T1 [1]) = Return (T1 [1]).
Proof.
  apply (proj1 degenerate_and_one_sided degenerate_rv (T1 [1])).
  reflexivity.
Defined.

(** On the one-point simplex [SumTo1] is not the identity, in either
    direction. *)
Lemma SumTo1_size_one_not_identity :
  forward SumTo1 degenerate_rv (T1 [1]) <> Return (T1 [1]) /\
  backward SumTo1 degenerate_rv (T1 [1]) <> Return (T1 [1]).
Proof. split; intros H; discriminate H. Qed.

(** It still round-trips there, through the empty vector. *)
Example SumTo1_size_one :
  forward SumTo1 degenerate_rv (T1 [1]) = Return (T1 []) /\
  backward SumTo1 degenerate_rv (T1 []) = Return (T1 [1 - 0]).
Proof. split; reflexivity. Qed.

End TransformStatements.

(* ===================================================================== *)
(** * [Chain.jacobian_det] *)
(* ===================================================================== *)

Section ChainJacobian.
Import Py Tensor Transforms Samples.
Local Open Scope R_scope.

Lemma mapM_ext {A B : Type} (f g : A -> outcome B) l :
  (forall x, f x = g x) -> mapM f l = mapM g l.
Proof.
  intros Hfg. induction l as [|x l IH]; simpl; [done|]. by rewrite Hfg, IH.
Qed.

Lemma mapM_combine_comm {A : Type} (add : A -> A -> outcome A) :
  (forall a b, add a b = add b a) ->
  forall u v,
    mapM (fun p => add (fst p) (snd p)) (combine u v)
    = mapM (fun p => add (fst p) (snd p)) (combine v u).
Proof.
  intros Hc. induction u as [|a u IH]; intros [|b v]; simpl; try done.
  by rewrite Hc, IH.
Qed.

Lemma zip_bcast_comm {A : Type} (add : A -> A -> outcome A) :
  (forall a b, add a b = add b a) ->
  forall u v, zip_bcast add u v = zip_bcast add v u.
Proof.
  intros Hc u v. unfold zip_bcast.
  rewrite (Nat.eqb_sym (length v) (length u)).
  destruct (Nat.eqb (length u) (length v)) eqn:E.
  { by apply mapM_combine_comm. }
  apply Nat.eqb_neq in E.
  destruct u as [|a [|a' u]], v as [|b [|b' v]]; cbn [length] in E;
    try lia; lazy beta iota; try reflexivity;
    apply mapM_ext; intros x; apply Hc.
Qed.

Lemma radd_comm a b : radd a b = radd b a.
Proof. unfold radd. f_equal. lra. Qed.

(** Broadcast addition is commutative. *)
Lemma tadd_comm t1 t2 : tadd t1 t2 = tadd t2 t1.
Proof.
  destruct t1 as [a|u|m1], t2 as [b|v|m2]; simpl.
  - do 2 f_equal. lra.
  - do 2 f_equal. apply map_ext. intros x. lra.
  - do 2 f_equal. apply map_ext. intros r. apply map_ext. intros x. lra.
  - do 2 f_equal. apply map_ext. intros x. lra.
  - by rewrite (zip_bcast_comm radd radd_comm u v).
  - f_equal. apply mapM_ext. intros r. apply (zip_bcast_comm radd radd_comm).
  - do 2 f_equal. apply map_ext. intros r. apply map_ext. intros x. lra.
  - f_equal. apply mapM_ext. intros r. apply (zip_bcast_comm radd radd_comm).
  - by rewrite (zip_bcast_comm (zip_bcast radd) (zip_bcast_comm radd radd_comm) m1 m2).
Qed.

(** [0.0 + t] is [t]. *)
Lemma tadd_zero t : tadd (T0 0) t = Return t.
Proof.
  simpl. f_equal. apply (tmap_fixed _ (fun _ => True)).
  - intros x _. lra.
  - destruct t as [x|v|m]; simpl; [done| |].
    + apply Forall_forall. done.
    + apply Forall_forall. intros r _. apply Forall_forall. done.
Qed.

(** The two loops of [jacobian_det] on a chain of two transforms: the
    terms are those of the second child at [y] and of the first child at
    the second child's [backward] of [y]; each is added to the running sum,
    summed over its last axis first when its rank is above the smallest rank
    seen. *)
Lemma Chain_jacobian_det_two Ta Tb rv y d2 y1 d1 x :
  jacobian_det Tb rv y = Return d2 ->
  backward Tb rv y = Return y1 ->
  jacobian_det Ta rv y1 = Return d1 ->
  backward Ta rv y1 = Return x ->
  jacobian_det (Chain [Ta; Tb]) rv y =
    let ndim0 := Nat.min (Nat.min (ndim y) (ndim d2)) (ndim d1) in
    Chain_det_add ndim0 (Chain_det_add ndim0 (Return (T0 0)) d2) d1.
Proof.
  intros Hd2 Hy1 Hd1 Hx. cbn [jacobian_det Chain]. unfold Chain_jacobian_det.
  cbn [rev app fold_left]. unfold Chain_det_step at 2. cbn [bind y_ det_list ndim0].
  rewrite Hd2, Hy1. cbn [bind]. unfold Chain_det_step. cbn [bind y_ det_list ndim0].
  rewrite Hd1, Hx. cbn [bind app fold_left det_list ndim0]. reflexivity.
Qed.

(** With terms of one rank, not above that of the value, the chain's
    log-determinant is the sum of the two terms. *)
Lemma Chain_jacobian_det_law Ta Tb rv y d2 y1 d1 x s :
  jacobian_det Tb rv y = Return d2 ->
  backward Tb rv y = Return y1 ->
  jacobian_det Ta rv y1 = Return d1 ->
  backward Ta rv y1 = Return x ->
  ndim d1 = ndim d2 -> (ndim d2 <= ndim y)%nat ->
  tadd d1 d2 = Return s ->
  jacobian_det (Chain [Ta; Tb]) rv y = Return s.
Proof.
  intros Hd2 Hy1 Hd1 Hx Hrank Hle Hs.
  rewrite (Chain_jacobian_det_two Ta Tb rv y d2 y1 d1 x) by done.
  cbn zeta. rewrite Hrank.
  replace (Nat.min (Nat.min (ndim y) (ndim d2)) (ndim d2)) with (ndim d2) by lia.
  unfold Chain_det_add. cbn [bind]. rewrite Nat.ltb_irrefl.
  rewrite tadd_zero. cbn [bind]. rewrite <- Hrank, Nat.ltb_irrefl.
  by rewrite tadd_comm.
Qed.


End ChainJacobian.

(* ===================================================================== *)
(** * Parameters of the continuous distributions *)
(* ===================================================================== *)

Section ParameterFacts.
Import PyFloat Continuous.
Local Open Scope R_scope.

Lemma float_pow_pos x y : 0 < x -> float_pow x y = Return (Rpower x y).
Proof. intros Hx. unfold float_pow. by destruct (Rlt_dec 0 x). Qed.

Lemma Rpower_neg_two x : 0 < x -> Rpower x (- 2) = / x ^ 2.
Proof.
  intros Hx. replace (- 2) with (- (2)) by lra. rewrite Rpower_Ropp. f_equal.
  replace 2 with (INR 2) by (simpl; lra). by apply Rpower_pow.
Qed.

Lemma Rpower_neg_half x : 0 < x -> Rpower x (- (5 / 10)) = / sqrt x.
Proof.
  intros Hx. rewrite Rpower_Ropp. f_equal.
  replace (5 / 10) with (/ 2) by lra. by apply Rpower_sqrt.
Qed.

Lemma truediv_nonzero x y : y <> 0 -> truediv x y = Return (x / y).
Proof. intros Hy. unfold truediv. by destruct (Req_dec_T y 0). Qed.

Lemma truediv_zero x : truediv x 0 = Raise ZeroDivisionError.
Proof. unfold truediv. by destruct (Req_dec_T 0 0). Qed.

Lemma truediv_Return x y q : truediv x y = Return q -> y <> 0 /\ q = x / y.
Proof.
  unfold truediv. destruct (Req_dec_T y 0); [done|]. intros [= <-]. done.
Qed.

Lemma get_tau_sd_of_sd sd :
  0 < sd -> get_tau_sd None (Some sd) = Return (/ sd ^ 2, sd).
Proof.
  intros Hsd. unfold get_tau_sd. rewrite float_pow_pos by done. cbn [bind].
  rewrite Rpower_neg_two by done. do 2 f_equal; lra.
Qed.

Lemma get_tau_sd_of_tau tau :
  0 < tau -> get_tau_sd (Some tau) None = Return (tau, / sqrt tau).
Proof.
  intros Htau. unfold get_tau_sd. rewrite float_pow_pos by done. cbn [bind].
  rewrite Rpower_neg_half by done. do 2 f_equal; lra.
Qed.

(** X1.  [get_tau_sd] returns [(1, 1)] when neither parameter is given and
    raises [ValueError] when both are, whatever their values.  Given a
    positive standard deviation alone it returns the precision [1 / sd^2]
    beside it, given a positive precision alone the standard deviation
    [1 / sqrt tau]; either way the pair satisfies [tau * sd^2 = 1], and
    feeding the computed component back alone returns the same pair. *)
Theorem get_tau_sd_pair :
  get_tau_sd None None = Return (1, 1) /\
  (forall tau sd, get_tau_sd (Some tau) (Some sd) = Raise ValueError) /\
  (forall sd, 0 < sd ->
     exists tau,
       get_tau_sd None (Some sd) = Return (tau, sd) /\
       tau = / sd ^ 2 /\ 0 < tau /\ tau * sd ^ 2 = 1 /\
       get_tau_sd (Some tau) None = Return (tau, sd)) /\
  (forall tau, 0 < tau ->
     exists sd,
       get_tau_sd (Some tau) None = Return (tau, sd) /\
       sd = / sqrt tau /\ 0 < sd /\ tau * sd ^ 2 = 1 /\
       get_tau_sd None (Some sd) = Return (tau, sd)).
Proof.
  split; [|split; [|split]].
  - unfold get_tau_sd. do 2 f_equal; lra.
  - reflexivity.
  - intros sd Hsd. exists (/ sd ^ 2).
    assert (0 < sd ^ 2) as Hsq by (apply pow_lt; lra).
    assert (0 < / sd ^ 2) as Htau by (by apply Rinv_0_lt_compat).
    split; [by apply get_tau_sd_of_sd|]. split; [done|]. split; [done|].
    split; [field; lra|].
    rewrite get_tau_sd_of_tau by done. do 2 f_equal.
    rewrite sqrt_inv, sqrt_pow2 by lra. field; lra.
  - intros tau Htau. exists (/ sqrt tau).
    assert (0 < sqrt tau) as Hs by (by apply sqrt_lt_R0).
    assert (0 < / sqrt tau) as Hsd by (by apply Rinv_0_lt_compat).
    assert (sqrt tau ^ 2 = tau) as Hsq by (rewrite pow2_sqrt; lra).
    split; [by apply get_tau_sd_of_tau|]. split; [done|]. split; [done|].
    split.
    + rewrite pow_inv, Hsq. field; lra.
    + rewrite get_tau_sd_of_sd by done. do 2 f_equal.
      rewrite pow_inv, Hsq. field; lra.
Qed.

Lemma get_tau_sd_pair_witness :
  exists tau,
    get_tau_sd None (Some 2) = Return (tau, 2) /\
    tau = / 2 ^ 2 /\ 0 < tau /\ tau * 2 ^ 2 = 1 /\
    get_tau_sd (Some tau) None = Return (tau, 2).
Proof.
  apply (proj1 (proj2 (proj2 get_tau_sd_pair)) 2). lra.
Defined.

(** X2.  Whenever [Wald.get_mu_lam_phi] returns, the triple satisfies
    [lam = mu * phi] and holds the given parameters unchanged; it raises
    [ValueError] exactly for the four combinations the message leaves out:
    nothing given, [lam] alone, [phi] alone, and all three. *)
Theorem get_mu_lam_phi_relation mu lam phi :
  (forall m l p,
     get_mu_lam_phi mu lam phi = Return (m, l, p) ->
     l = m * p /\
     (forall x, mu = Some x -> m = x) /\
     (forall x, lam = Some x -> l = x) /\
     (forall x, phi = Some x -> p = x)) /\
  (get_mu_lam_phi mu lam phi = Raise ValueError <->
     (mu = None /\ (lam = None \/ phi = None)) \/
     (mu <> None /\ lam <> None /\ phi <> None)).
Proof.
  split.
  - intros m l p. unfold get_mu_lam_phi.
    destruct mu as [mu|], lam as [lam|], phi as [phi|]; try done.
    + destruct (truediv lam mu) as [q|] eqn:E; [|done]. cbn [bind].
      apply truediv_Return in E as [Hmu ->]. intros [= <- <- <-].
      repeat split; try congruence. field; done.
    + intros [= <- <- <-]. repeat split; congruence.
    + destruct (truediv 1 mu) as [q|] eqn:E; [|done]. cbn [bind].
      apply truediv_Return in E as [Hmu ->]. intros [= <- <- <-].
      repeat split; try congruence. field; done.
    + destruct (truediv lam phi) as [q|] eqn:E; [|done]. cbn [bind].
      apply truediv_Return in E as [Hphi ->]. intros [= <- <- <-].
      repeat split; try congruence. field; done.
  - unfold get_mu_lam_phi.
    destruct mu as [mu|], lam as [lam|], phi as [phi|]; cbn [bind];
      try (split; [done|intros [[? [?|?]]|(? & ? & ?)]; done]);
      try (split; [intros _|done]; by (left + right); auto).
    + unfold truediv. destruct (Req_dec_T mu 0); cbn [bind];
        (split; [done|intros [[? [?|?]]|(? & ? & ?)]; done]).
    + unfold truediv. destruct (Req_dec_T mu 0); cbn [bind];
        (split; [done|intros [[? [?|?]]|(? & ? & ?)]; done]).
    + unfold truediv. destruct (Req_dec_T phi 0); cbn [bind];
        (split; [done|intros [[? [?|?]]|(? & ? & ?)]; done]).
Qed.

Lemma get_mu_lam_phi_relation_witness :
  3 = 2 * (3 / 2) /\
  (forall x, Some 2 = Some x -> 2 = x) /\
  (forall x, Some 3 = Some x -> 3 = x) /\
  (forall x, @None R = Some x -> 3 / 2 = x).
Proof.
  apply (proj1 (get_mu_lam_phi_relation (Some 2) (Some 3) None) 2 3 (3 / 2)).
  unfold get_mu_lam_phi. rewrite truediv_nonzero by lra. reflexivity.
Defined.

(** X3.  For a mean [0 < mu < 1] and a standard deviation with
    [0 < sd^2 < mu * (1 - mu)], [Beta.get_alpha_beta] returns positive
    [alpha] and [beta] for which the mean and the variance that
    [Beta.__init__] computes are [mu] and [sd^2].  A given [alpha] and
    [beta] are returned as they are, [mu] and [sd] then being ignored; with
    neither pair complete it raises [ValueError]. *)
Theorem Beta_get_alpha_beta_moments :
  (forall mu sd alpha0 beta0,
     0 < mu < 1 -> 0 < sd ^ 2 < mu * (1 - mu) ->
     alpha0 = None \/ beta0 = None ->
     exists alpha beta,
       Beta_get_alpha_beta alpha0 beta0 (Some mu) (Some sd) = Return (alpha, beta) /\
       0 < alpha /\ 0 < beta /\
       Beta_mean alpha beta = mu /\
       Beta_variance alpha beta = sd ^ 2) /\
  (forall alpha beta mu sd,
     Beta_get_alpha_beta (Some alpha) (Some beta) mu sd = Return (alpha, beta)) /\
  (forall alpha0 beta0 mu sd,
     alpha0 = None \/ beta0 = None -> mu = None \/ sd = None ->
     Beta_get_alpha_beta alpha0 beta0 mu sd = Raise ValueError).
Proof.
  split; [|split].
  - intros mu sd alpha0 beta0 Hmu Hsd Hnone.
    set (kappa := mu * (1 - mu) / sd ^ 2 - 1).
    assert (0 < kappa) as Hk.
    { unfold kappa. apply Rlt_0_minus.
      apply (Rmult_lt_reg_r (sd ^ 2)); [lra|].
      unfold Rdiv. rewrite Rmult_assoc, Rinv_l by lra. lra. }
    exists (mu * kappa), ((1 - mu) * kappa).
    split.
    { unfold Beta_get_alpha_beta.
      destruct Hnone as [-> | ->]; [|destruct alpha0];
        rewrite truediv_nonzero by lra; reflexivity. }
    split; [apply Rmult_lt_0_compat; lra|].
    split; [apply Rmult_lt_0_compat; lra|].
    unfold Beta_mean, Beta_variance.
    replace (mu * kappa + (1 - mu) * kappa) with kappa by ring.
    split; [field; lra|].
    replace (kappa + 1) with (mu * (1 - mu) / sd ^ 2) by (unfold kappa; ring).
    field. repeat split; try lra.
    intros ->. replace (0 ^ 2) with 0 in Hsd by ring. lra.
  - reflexivity.
  - intros alpha0 beta0 mu sd Hab Hms. unfold Beta_get_alpha_beta.
    destruct Hab as [-> | ->], Hms as [-> | ->];
      repeat match goal with
             | |- context [match ?x with _ => _ end] => destruct x
             end; reflexivity.
Qed.

Lemma Beta_get_alpha_beta_moments_witness :
  exists alpha beta,
    Beta_get_alpha_beta None None (Some (1 / 2)) (Some (1 / 4)) = Return (alpha, beta) /\
    0 < alpha /\ 0 < beta /\
    Beta_mean alpha beta = 1 / 2 /\
    Beta_variance alpha beta = (1 / 4) ^ 2.
Proof.
  apply (proj1 Beta_get_alpha_beta_moments (1 / 2) (1 / 4) None None);
    [lra | lra | by left].
Defined.

(** X4.  For a mean [mu > 0] and a standard deviation [sd <> 0],
    [Gamma.get_alpha_beta] returns positive [alpha] and [beta] for which
    the mean and the variance that [Gamma.__init__] computes are [mu] and
    [sd^2]; a zero [sd] raises [ZeroDivisionError].  The parameters
    [ChiSquared] hands to [Gamma] give the mean [nu] and the variance
    [2 * nu]. *)
Theorem Gamma_get_alpha_beta_moments :
  (forall mu sd alpha0 beta0,
     0 < mu -> sd <> 0 ->
     alpha0 = None \/ beta0 = None ->
     exists alpha beta,
       Gamma_get_alpha_beta alpha0 beta0 (Some mu) (Some sd) = Return (alpha, beta) /\
       0 < alpha /\ 0 < beta /\
       Gamma_mean alpha beta = mu /\
       Gamma_variance alpha beta = sd ^ 2) /\
  (forall mu, Gamma_get_alpha_beta None None (Some mu) (Some 0) = Raise ZeroDivisionError) /\
  (forall nu alpha beta,
     Gamma_get_alpha_beta (fst (ChiSquared_alpha_beta nu)) (snd (ChiSquared_alpha_beta nu))
       None None = Return (alpha, beta) ->
     Gamma_mean alpha beta = nu /\ Gamma_variance alpha beta = 2 * nu).
Proof.
  split; [|split].
  - intros mu sd alpha0 beta0 Hmu Hsd Hnone.
    assert (0 < sd ^ 2) as Hsq.
    { replace (sd ^ 2) with (sd * sd) by ring.
      destruct (Rtotal_order sd 0) as [H|[H|H]]; [|done|]; nra. }
    exists (mu ^ 2 / sd ^ 2), (mu / sd ^ 2).
    split.
    { unfold Gamma_get_alpha_beta.
      destruct Hnone as [-> | ->]; [|destruct alpha0];
        rewrite !truediv_nonzero by lra; reflexivity. }
    split; [apply Rdiv_lt_0_compat; nra|].
    split; [apply Rdiv_lt_0_compat; nra|].
    unfold Gamma_mean, Gamma_variance. split; field; lra.
  - intros mu. unfold Gamma_get_alpha_beta.
    replace (0 ^ 2) with 0 by ring. by rewrite truediv_zero.
  - intros nu alpha beta. cbn. intros [= <- <-].
    unfold Gamma_mean, Gamma_variance. split; field.
Qed.

Lemma Gamma_get_alpha_beta_moments_witness :
  exists alpha beta,
    Gamma_get_alpha_beta None None (Some 3) (Some 2) = Return (alpha, beta) /\
    0 < alpha /\ 0 < beta /\
    Gamma_mean alpha beta = 3 /\
    Gamma_variance alpha beta = 2 ^ 2.
Proof.
  apply (proj1 Gamma_get_alpha_beta_moments 3 2 None None); [lra | lra | by left].
Defined.

End ParameterFacts.

(* ===================================================================== *)
(** * Log-densities and log-CDFs of the continuous distributions *)
(* ===================================================================== *)

Section DerivativeFacts.
Import XReal XRealOps.
Local Open Scope R_scope.

Lemma prob_Fin v : prob (Fin v) = exp v.
Proof. reflexivity. Qed.

Lemma prob_NInf : prob NInf = 0.
Proof. reflexivity. Qed.

Lemma derivable_pt_lim_value f x l l' :
  l = l' -> derivable_pt_lim f x l -> derivable_pt_lim f x l'.
Proof. by intros ->. Qed.

(** A function that agrees with [g] around [x] has the derivative of [g]
    there. *)
Lemma derivable_pt_lim_near f g x l a b :
  a < x < b -> (forall z, a < z < b -> f z = g z) ->
  derivable_pt_lim g x l -> derivable_pt_lim f x l.
Proof.
  intros Hx Hfg Hg. apply (derivable_pt_lim_locally_ext g f x a b l Hx); [|done].
  intros z Hz. symmetry. by apply Hfg.
Qed.

(** Two pieces that meet at [x] with the same derivative. *)
Lemma derivable_pt_lim_glue f g1 g2 x l :
  (forall t, t <= x -> f t = g1 t) ->
  (forall t, x < t -> f t = g2 t) ->
  g1 x = g2 x ->
  derivable_pt_lim g1 x l -> derivable_pt_lim g2 x l ->
  derivable_pt_lim f x l.
Proof.
  intros H1 H2 Hx D1 D2 eps Heps.
  destruct (D1 eps Heps) as [d1 Hd1]. destruct (D2 eps Heps) as [d2 Hd2].
  assert (0 < Rmin d1 d2) as Hd by (apply Rmin_pos; apply cond_pos).
  exists (mkposreal _ Hd). intros h Hh0 Hh. cbn [pos] in Hh.
  assert (Rabs h < d1) by (eapply Rlt_le_trans; [exact Hh|apply Rmin_l]).
  assert (Rabs h < d2) by (eapply Rlt_le_trans; [exact Hh|apply Rmin_r]).
  rewrite (H1 x) by lra.
  destruct (Rlt_dec 0 h) as [Hpos|Hneg].
  - rewrite (H2 (x + h)) by lra. rewrite Hx. by apply Hd2.
  - rewrite (H1 (x + h)) by lra. by apply Hd1.
Qed.

Lemma derivable_pt_lim_affine a b x :
  derivable_pt_lim (fun t => a * t + b) x a.
Proof.
  apply (derivable_pt_lim_value _ _ (a * 1 + 0)); [ring|].
  apply (derivable_pt_lim_plus (fun t => a * t) (fun _ => b)).
  - apply (derivable_pt_lim_scal id a x 1), derivable_pt_lim_id.
  - apply (derivable_pt_lim_const b).
Qed.

Lemma derivable_pt_lim_exp_affine a b x :
  derivable_pt_lim (fun t => exp (a * t + b)) x (a * exp (a * x + b)).
Proof.
  apply (derivable_pt_lim_value _ _ (exp (a * x + b) * a)); [ring|].
  apply (derivable_pt_lim_comp (fun t => a * t + b) exp).
  - apply derivable_pt_lim_affine.
  - apply derivable_pt_lim_exp.
Qed.

(** [c + d * exp (a * t + b)]. *)
Lemma derivable_pt_lim_exp_shape c d a b x :
  derivable_pt_lim (fun t => c + d * exp (a * t + b)) x (d * (a * exp (a * x + b))).
Proof.
  apply (derivable_pt_lim_value _ _ (0 + d * (a * exp (a * x + b)))); [ring|].
  apply (derivable_pt_lim_plus (fun _ => c) (fun t => d * exp (a * t + b))).
  - apply (derivable_pt_lim_const c).
  - apply (derivable_pt_lim_scal (fun t => exp (a * t + b)) d x),
      derivable_pt_lim_exp_affine.
Qed.

End DerivativeFacts.

Section ExponentialFacts.
Import XReal XRealOps ContinuousLogp.
Local Open Scope R_scope.

Lemma Exponential_logcdf_pos lam x :
  0 < lam -> 0 < x ->
  Exponential_logcdf (Fin lam) (Fin x) = Fin (ln (1 - exp (- (lam * x)))).
Proof.
  intros Hlam Hx. unfold Exponential_logcdf.
  assert (0 < lam * x) as Ha by (by apply Rmult_lt_0_compat).
  assert (exp (- (lam * x)) < 1) as He.
  { rewrite <- exp_0. apply exp_increasing. lra. }
  cbn [xmul xleb]. destruct (Rle_dec x 0) as [|_]; [lra|].
  rewrite (xlog_pos 2) by lra. cbn [xleb].
  destruct (Rle_dec (lam * x) (ln 2)).
  - unfold xexpm1. cbn [xneg xexp xsub xadd]. rewrite xlog_pos by lra.
    do 2 f_equal. lra.
  - unfold xlog1p. cbn [xneg xexp xadd]. rewrite xlog_pos by lra.
    do 2 f_equal.
Qed.

Lemma Exponential_logcdf_nonpos lam x :
  x <= 0 -> Exponential_logcdf (Fin lam) (Fin x) = NInf.
Proof.
  intros Hx. unfold Exponential_logcdf. cbn [xleb].
  by destruct (Rle_dec x 0).
Qed.

Lemma Exponential_logp_pos lam x :
  0 < lam -> 0 < x ->
  Exponential_logp (Fin lam) (Fin x) = Fin (ln lam - lam * x).
Proof.
  intros Hlam Hx. unfold Exponential_logp, bound. cbn [forallb xltb].
  destruct (Rlt_dec 0 x); [|lra]. destruct (Rlt_dec 0 lam); [|lra].
  cbn [andb]. rewrite xlog_pos by done. reflexivity.
Qed.

Lemma Exponential_logp_nonpos lam x :
  x <= 0 -> Exponential_logp (Fin lam) (Fin x) = NInf.
Proof.
  intros Hx. unfold Exponential_logp, bound. cbn [forallb xltb].
  destruct (Rlt_dec 0 x); [lra|]. reflexivity.
Qed.

(** X5.  For a rate [lam > 0]: at a value [x <= 0] both [Exponential.logp]
    and [Exponential.logcdf] are [-inf]; at [x > 0] the log-density is
    [log lam - lam * x], the two branches of [logcdf] both give
    [log (1 - exp (- lam * x))], and the CDF [exp (logcdf)] has the density
    [exp (logp)] as its derivative.  The [median] that [__init__] computes
    is the point where the CDF is one half. *)
Theorem Exponential_logcdf_logp lam :
  0 < lam ->
  (forall x, x <= 0 ->
     Exponential_logp (Fin lam) (Fin x) = NInf /\
     Exponential_logcdf (Fin lam) (Fin x) = NInf) /\
  (forall x, 0 < x ->
     Exponential_logp (Fin lam) (Fin x) = Fin (ln lam - lam * x) /\
     Exponential_logcdf (Fin lam) (Fin x) = Fin (ln (1 - exp (- (lam * x)))) /\
     derivable_pt_lim (fun t => prob (Exponential_logcdf (Fin lam) (Fin t))) x
       (prob (Exponential_logp (Fin lam) (Fin x)))) /\
  Exponential_logcdf (Fin lam) (Exponential_median (Fin lam)) = Fin (ln (1 / 2)).
Proof.
  intros Hlam. split; [|split].
  - intros x Hx. split.
    + by apply Exponential_logp_nonpos.
    + by apply Exponential_logcdf_nonpos.
  - intros x Hx. split; [by apply Exponential_logp_pos|].
    split; [by apply Exponential_logcdf_pos|].
    rewrite Exponential_logp_pos, prob_Fin by done.
    apply (derivable_pt_lim_near _ (fun t => 1 + (- 1) * exp ((- lam) * t + 0))
             x _ 0 (x + 1)); [lra| |].
    + intros z Hz. rewrite Exponential_logcdf_pos, prob_Fin by lra.
      assert (exp (- (lam * z)) < 1) as He.
      { rewrite <- exp_0. apply exp_increasing. nra. }
      rewrite exp_ln by lra. replace (- lam * z + 0) with (- (lam * z)) by ring. ring.
    + apply (derivable_pt_lim_value _ _ (- 1 * (- lam * exp (- lam * x + 0))));
        [|apply derivable_pt_lim_exp_shape].
      replace (- lam * x + 0) with (- (lam * x)) by ring.
      unfold Rminus. rewrite exp_plus, exp_ln by done. ring.
  - unfold Exponential_median, Exponential_mean. cbn [xdiv].
    destruct (Req_dec_T lam 0); [lra|]. rewrite (xlog_pos 2) by lra. cbn [xmul].
    assert (0 < ln 2) as Hln2 by (rewrite <- ln_1; apply ln_increasing; lra).
    rewrite Exponential_logcdf_pos; [|done|].
    + do 2 f_equal. replace (lam * (1 / lam * ln 2)) with (ln 2) by (field; lra).
      rewrite exp_Ropp, exp_ln by lra. lra.
    + apply Rmult_lt_0_compat; [|done]. apply Rdiv_lt_0_compat; lra.
Qed.

Lemma Exponential_logcdf_logp_witness :
  Exponential_logcdf (Fin 2) (Exponential_median (Fin 2)) = Fin (ln (1 / 2)).
Proof.
  apply (proj2 (proj2 (Exponential_logcdf_logp 2 ltac:(lra)))).
Defined.

End ExponentialFacts.

Section LaplaceFacts.
Import XReal XRealOps ContinuousLogp.
Local Open Scope R_scope.

Lemma exp_neg_lt_1 y : 0 < y -> exp (- y) < 1.
Proof. intros Hy. rewrite <- exp_0. apply exp_increasing. lra. Qed.

Lemma Laplace_logcdf_value mu b x :
  0 < b ->
  Laplace_logcdf (Fin mu) (Fin b) (Fin x) =
  Fin (if Rle_dec x mu then ln (5 / 10) + (x - mu) / b
       else ln (1 - 5 / 10 * exp (- ((x - mu) / b)))).
Proof.
  intros Hb. unfold Laplace_logcdf. cbn [xsub xneg xadd xdiv xleb].
  destruct (Req_dec_T b 0) as [|_]; [lra|].
  destruct (Rle_dec x mu) as [Hle|Hgt].
  - rewrite xlog_pos by lra. reflexivity.
  - assert (0 < (x + - mu) / b) as Hy by (apply Rdiv_lt_0_compat; lra).
    pose proof (exp_neg_lt_1 _ Hy) as He.
    pose proof (exp_pos (- ((x + - mu) / b))) as Hp.
    cbn [xltb]. destruct (Rlt_dec 1 ((x + - mu) / b)).
    + unfold xlog1p. cbn [xneg xexp xmul xadd]. rewrite xlog_pos by lra.
      do 2 f_equal. unfold Rminus. lra.
    + cbn [xneg xexp xmul xsub xadd]. rewrite xlog_pos by lra.
      do 2 f_equal.
Qed.

Lemma Laplace_logp_value mu b x :
  0 < b ->
  Laplace_logp (Fin mu) (Fin b) (Fin x) = Fin (- ln (2 * b) - Rabs (x - mu) / b).
Proof.
  intros Hb. unfold Laplace_logp. cbn [xmul xsub xneg xadd xabs xdiv].
  destruct (Req_dec_T b 0) as [|_]; [lra|].
  rewrite xlog_pos by lra. reflexivity.
Qed.

(** The two pieces of the Laplace CDF. *)
Lemma Laplace_cdf_below mu b t :
  0 < b -> t <= mu ->
  prob (Laplace_logcdf (Fin mu) (Fin b) (Fin t)) =
  0 + 1 / 2 * exp (/ b * t + - (mu / b)).
Proof.
  intros Hb Ht. rewrite Laplace_logcdf_value, prob_Fin by done.
  destruct (Rle_dec t mu); [|done].
  rewrite exp_plus, exp_ln by lra.
  replace (/ b * t + - (mu / b)) with ((t - mu) / b) by (field; lra). lra.
Qed.

Lemma Laplace_cdf_above mu b t :
  0 < b -> mu < t ->
  prob (Laplace_logcdf (Fin mu) (Fin b) (Fin t)) =
  1 + - (1 / 2) * exp (- / b * t + mu / b).
Proof.
  intros Hb Ht. rewrite Laplace_logcdf_value, prob_Fin by done.
  destruct (Rle_dec t mu); [lra|].
  assert (0 < (t - mu) / b) as Hy by (apply Rdiv_lt_0_compat; lra).
  pose proof (exp_neg_lt_1 _ Hy) as He.
  rewrite exp_ln by lra.
  replace (- / b * t + mu / b) with (- ((t - mu) / b)) by (field; lra). lra.
Qed.

(** X6.  For a scale [b > 0], [Laplace.logp] is
    [- log (2 b) - |x - mu| / b] and [Laplace.logcdf] is
    [log (1/2) + (x - mu) / b] up to [mu] and
    [log (1 - exp (- (x - mu) / b) / 2)] above it, whichever of its two
    upper branches is taken; at every [x], the point [mu] included, the CDF
    [exp (logcdf)] has the density [exp (logp)] as its derivative, and at
    the median [mu] the CDF is one half. *)
Theorem Laplace_logcdf_logp mu b :
  0 < b ->
  (forall x,
     Laplace_logp (Fin mu) (Fin b) (Fin x) = Fin (- ln (2 * b) - Rabs (x - mu) / b) /\
     Laplace_logcdf (Fin mu) (Fin b) (Fin x) =
       Fin (if Rle_dec x mu then ln (5 / 10) + (x - mu) / b
            else ln (1 - 5 / 10 * exp (- ((x - mu) / b)))) /\
     derivable_pt_lim (fun t => prob (Laplace_logcdf (Fin mu) (Fin b) (Fin t))) x
       (prob (Laplace_logp (Fin mu) (Fin b) (Fin x)))) /\
  Laplace_logcdf (Fin mu) (Fin b) (Fin mu) = Fin (ln (1 / 2)).
Proof.
  intros Hb. split.
  - intros x. split; [by apply Laplace_logp_value|].
    split; [by apply Laplace_logcdf_value|].
    rewrite Laplace_logp_value, prob_Fin by done.
    assert (exp (- ln (2 * b)) = / (2 * b)) as Hc.
    { rewrite exp_Ropp, exp_ln by lra. done. }
    assert (forall u, exp (- ln (2 * b) - u) = / (2 * b) * exp (- u)) as Hsplit.
    { intros u. unfold Rminus. by rewrite exp_plus, Hc. }
    pose proof (derivable_pt_lim_exp_shape 0 (1 / 2) (/ b) (- (mu / b)) x) as D1.
    pose proof (derivable_pt_lim_exp_shape 1 (- (1 / 2)) (- / b) (mu / b) x) as D2.
    assert (x <= mu ->
            1 / 2 * (/ b * exp (/ b * x + - (mu / b))) =
            exp (- ln (2 * b) - Rabs (x - mu) / b)) as E1.
    { intros Hx. rewrite Hsplit, Rabs_left1 by lra.
      replace (- (- (x - mu) / b)) with (/ b * x + - (mu / b)) by (field; lra).
      field; lra. }
    assert (mu <= x ->
            - (1 / 2) * (- / b * exp (- / b * x + mu / b)) =
            exp (- ln (2 * b) - Rabs (x - mu) / b)) as E2.
    { intros Hx. rewrite Hsplit, Rabs_right by lra.
      replace (- ((x - mu) / b)) with (- / b * x + mu / b) by (field; lra).
      field; lra. }
    destruct (Rtotal_order x mu) as [Hlt|[Heq|Hgt]].
    + apply (derivable_pt_lim_near _ _ x _ (x - 1) mu
               ltac:(lra) (fun z Hz => Laplace_cdf_below mu b z Hb ltac:(lra))).
      apply (derivable_pt_lim_value _ _ _ _ (E1 ltac:(lra)) D1).
    + subst x.
      apply (derivable_pt_lim_glue _ _ _ mu _
               (fun t Ht => Laplace_cdf_below mu b t Hb Ht)
               (fun t Ht => Laplace_cdf_above mu b t Hb Ht)).
      * replace (/ b * mu + - (mu / b)) with 0 by (field; lra).
        replace (- / b * mu + mu / b) with 0 by (field; lra).
        rewrite exp_0. lra.
      * apply (derivable_pt_lim_value _ _ _ _ (E1 ltac:(lra)) D1).
      * apply (derivable_pt_lim_value _ _ _ _ (E2 ltac:(lra)) D2).
    + apply (derivable_pt_lim_near _ _ x _ mu (x + 1)
               ltac:(lra) (fun z Hz => Laplace_cdf_above mu b z Hb ltac:(lra))).
      apply (derivable_pt_lim_value _ _ _ _ (E2 ltac:(lra)) D2).
  - rewrite Laplace_logcdf_value by done. destruct (Rle_dec mu mu); [|lra].
    f_equal. replace ((mu - mu) / b) with 0 by (field; lra).
    replace (5 / 10) with (1 / 2) by lra. lra.
Qed.

Lemma Laplace_logcdf_logp_witness :
  Laplace_logcdf (Fin 0) (Fin 1) (Fin 0) = Fin (ln (1 / 2)).
Proof. apply (proj2 (Laplace_logcdf_logp 0 1 ltac:(lra))). Defined.

End LaplaceFacts.

Section CauchyFacts.
Import XReal XRealOps ContinuousLogp.
Local Open Scope R_scope.



Lemma Cauchy_logp_value alpha beta x :
  0 < beta ->
  Cauchy_logp (Fin alpha) (Fin beta) (Fin x) =
  Fin (- ln PI - ln beta - ln (1 + ((x - alpha) / beta) ^ 2)).
Proof.
  intros Hb. unfold Cauchy_logp, bound. cbn [forallb xltb].
  destruct (Rlt_dec 0 beta); [|done]. cbn [andb].
  cbn [xsub xneg xadd xdiv]. destruct (Req_dec_T beta 0) as [|_]; [lra|].
  unfold xsqr, xlog1p. cbn [xmul xadd].
  pose proof PI_RGT_0 as Hpi.
  replace ((x + - alpha) / beta * ((x + - alpha) / beta))
    with (((x - alpha) / beta) ^ 2) by (unfold Rminus; ring).
  pose proof (pow2_ge_0 ((x - alpha) / beta)) as Hsq.
  rewrite !xlog_pos by lra. reflexivity.
Qed.



End CauchyFacts.

Section UniformFacts.
Import XReal XRealOps Expr Distributions.
Local Open Scope R_scope.

(** [Uniform.logp] and [Uniform.logcdf] at real bounds and a real value. *)
Let logp (l u x : R) : xreal :=
  eval no_services (Uniform_logp (EConst (Fin l)) (EConst (Fin u)) (EConst (Fin x))).
Let logcdf (l u x : R) : xreal :=
  eval no_services (Uniform_logcdf (EConst (Fin l)) (EConst (Fin u)) (EConst (Fin x))).

Lemma Uniform_logp_inside l u x :
  l < u -> l <= x <= u -> logp l u x = Fin (- ln (u - l)).
Proof.
  intros Hlu Hx. unfold logp, Uniform_logp, bound. cbn [eval beval xleb].
  destruct (Rle_dec l x); [|lra]. destruct (Rle_dec x u); [|lra]. cbn [andb].
  cbn [xsub xneg xadd]. rewrite xlog_pos by lra. reflexivity.
Qed.

Lemma Uniform_logp_outside l u x :
  x < l \/ u < x -> logp l u x = NInf.
Proof.
  intros Hx. unfold logp, Uniform_logp, bound. cbn [eval beval xleb].
  destruct (Rle_dec l x), (Rle_dec x u); try reflexivity. lra.
Qed.

Lemma Uniform_logcdf_outside l u x :
  x < l \/ u < x -> logcdf l u x = NInf.
Proof.
  intros Hx. unfold logcdf, Uniform_logcdf. cbn [eval beval xltb].
  destruct (Rlt_dec x l), (Rlt_dec u x); try reflexivity. lra.
Qed.

Lemma Uniform_logcdf_inside l u x :
  l < u -> l < x < u -> logcdf l u x = Fin (ln (x - l) - ln (u - l)).
Proof.
  intros Hlu Hx. unfold logcdf, Uniform_logcdf. cbn [eval beval xltb xeqb].
  destruct (Rlt_dec x l); [lra|]. destruct (Rlt_dec u x); [lra|]. cbn [orb].
  destruct (Req_dec_T x u); [lra|].
  cbn [xsub xneg xadd]. rewrite !xlog_pos by lra. reflexivity.
Qed.

Lemma Uniform_logcdf_upper l u : l < u -> logcdf l u u = Fin 0.
Proof.
  intros Hlu. unfold logcdf, Uniform_logcdf, EInt. cbn [eval beval xltb xeqb].
  destruct (Rlt_dec u l); [lra|]. destruct (Rlt_dec u u); [lra|]. cbn [orb].
  destruct (Req_dec_T u u); [|lra]. reflexivity.
Qed.

Lemma Uniform_logcdf_lower l u : l < u -> logcdf l u l = NInf.
Proof.
  intros Hlu. unfold logcdf, Uniform_logcdf. cbn [eval beval xltb xeqb].
  destruct (Rlt_dec l l); [lra|]. destruct (Rlt_dec u l); [lra|]. cbn [orb].
  destruct (Req_dec_T l u); [lra|].
  cbn [xsub xneg xadd]. replace (l + - l) with 0 by lra.
  rewrite xlog_zero, xlog_pos by lra. reflexivity.
Qed.

(** X8.  For bounds [lower < upper], [Uniform.logp] is
    [- log (upper - lower)] on [[lower, upper]] and [-inf] outside.
    [Uniform.logcdf] is [-inf] up to [lower], is
    [log (x - lower) - log (upper - lower)] inside, where the CDF
    [exp (logcdf)] has the density [exp (logp)] as its derivative, and is
    [0] at [upper]; at the median [(upper + lower) / 2] the CDF is one
    half.  Above [upper] the code returns [-inf] again: the CDF falls from
    one at [upper] back to zero. *)
Theorem Uniform_logcdf_logp l u :
  l < u ->
  (forall x, l <= x <= u ->
     eval no_services (Uniform_logp (EConst (Fin l)) (EConst (Fin u)) (EConst (Fin x)))
       = Fin (- ln (u - l))) /\
  (forall x, x < l \/ u < x ->
     eval no_services (Uniform_logp (EConst (Fin l)) (EConst (Fin u)) (EConst (Fin x)))
       = NInf) /\
  (forall x, x <= l ->
     eval no_services (Uniform_logcdf (EConst (Fin l)) (EConst (Fin u)) (EConst (Fin x)))
       = NInf) /\
  (forall x, l < x < u ->
     eval no_services (Uniform_logcdf (EConst (Fin l)) (EConst (Fin u)) (EConst (Fin x)))
       = Fin (ln (x - l) - ln (u - l)) /\
     derivable_pt_lim
       (fun t => prob (eval no_services
                         (Uniform_logcdf (EConst (Fin l)) (EConst (Fin u)) (EConst (Fin t)))))
       x
       (prob (eval no_services
                (Uniform_logp (EConst (Fin l)) (EConst (Fin u)) (EConst (Fin x)))))) /\
  eval no_services
    (Uniform_logcdf (EConst (Fin l)) (EConst (Fin u)) (EConst (Fin ((u + l) / 2))))
    = Fin (ln (1 / 2)) /\
  eval no_services (Uniform_logcdf (EConst (Fin l)) (EConst (Fin u)) (EConst (Fin u)))
    = Fin 0 /\
  (forall x, u < x ->
     eval no_services (Uniform_logcdf (EConst (Fin l)) (EConst (Fin u)) (EConst (Fin x)))
       = NInf).
Proof.
  intros Hlu.
  split; [intros x Hx; by apply Uniform_logp_inside|].
  split; [intros x Hx; by apply Uniform_logp_outside|].
  split.
  { intros x [Hx| ->]; [apply Uniform_logcdf_outside; by left|].
    by apply Uniform_logcdf_lower. }
  split.
  { intros x Hx. split; [by apply Uniform_logcdf_inside|].
    change (derivable_pt_lim (fun t => prob (logcdf l u t)) x (prob (logp l u x))).
    rewrite Uniform_logp_inside, prob_Fin by lra.
    apply (derivable_pt_lim_near _ (fun t => / (u - l) * t + - (l / (u - l))) x _ l u Hx).
    - intros z Hz. rewrite Uniform_logcdf_inside, prob_Fin by done.
      unfold Rminus at 1. rewrite exp_plus, exp_Ropp, !exp_ln by lra. field; lra.
    - rewrite exp_Ropp, exp_ln by lra. apply derivable_pt_lim_affine. }
  split.
  { fold (logcdf l u ((u + l) / 2)). rewrite Uniform_logcdf_inside by lra. f_equal.
    replace ((u + l) / 2 - l) with ((u - l) * (1 / 2)) by lra.
    rewrite ln_mult by lra. lra. }
  split; [by apply Uniform_logcdf_upper|].
  intros x Hx. apply Uniform_logcdf_outside. by right.
Qed.

Lemma Uniform_logcdf_logp_witness :
  eval no_services (Uniform_logcdf (EConst (Fin 0)) (EConst (Fin 1)) (EConst (Fin 2))) = NInf.
Proof.
  apply (proj2 (proj2 (proj2 (proj2 (proj2 (proj2
           (Uniform_logcdf_logp 0 1 ltac:(lra)))))))). lra.
Defined.

End UniformFacts.

Section TriangularFacts.
Import XReal XRealOps ContinuousLogp.
Local Open Scope R_scope.

Lemma derivable_pt_lim_square p q a b x :
  derivable_pt_lim (fun t => p + q * (a * t + b) ^ 2) x (q * (2 * a * (a * x + b))).
Proof.
  apply (derivable_pt_lim_value _ _ (0 + q * (INR 2 * (a * x + b) ^ pred 2 * a)));
    [simpl; ring|].
  apply (derivable_pt_lim_plus (fun _ => p) (fun t => q * (a * t + b) ^ 2)).
  - apply (derivable_pt_lim_const p).
  - apply (derivable_pt_lim_scal (fun t => (a * t + b) ^ 2) q x).
    apply (derivable_pt_lim_comp (fun t => a * t + b) (fun y => y ^ 2)).
    + apply derivable_pt_lim_affine.
    + apply derivable_pt_lim_pow.
Qed.

Variables l u c : R.
Hypothesis Hlc : l < c.
Hypothesis Hcu : c < u.

Let D1 : R := (u - l) * (c - l).
Let D2 : R := (u - l) * (u - c).

Lemma Triangular_D1_pos : 0 < D1.
Proof. unfold D1. apply Rmult_lt_0_compat; lra. Qed.

Lemma Triangular_D2_pos : 0 < D2.
Proof. unfold D2. apply Rmult_lt_0_compat; lra. Qed.

Lemma Triangular_upper_share x : c < x <= u -> 0 <= (u - x) ^ 2 / D2 < 1.
Proof.
  intros Hx. pose proof Triangular_D2_pos as HD.
  split.
  - apply Rmult_le_pos; [apply pow2_ge_0|]. left. by apply Rinv_0_lt_compat.
  - apply (Rmult_lt_reg_r D2); [done|].
    unfold Rdiv. rewrite Rmult_assoc, Rinv_l by lra. unfold D2. nra.
Qed.

Lemma Triangular_logp_left x :
  l < x < c ->
  Triangular_logp (Fin l) (Fin u) (Fin c) (Fin x) = Fin (ln (2 * (x - l) / D1)).
Proof.
  intros Hx. pose proof Triangular_D1_pos as HD.
  unfold Triangular_logp, alltrue_elemwise. cbn [forallb xleb xltb].
  destruct (Rle_dec l x); [|lra]. destruct (Rlt_dec x c); [|lra]. cbn [andb].
  cbn [xsub xneg xadd xmul xdiv]. fold (Rminus u l) (Rminus c l) (Rminus x l). fold D1.
  destruct (Req_dec_T D1 0); [lra|].
  rewrite xlog_pos; [done|]. apply Rdiv_lt_0_compat; lra.
Qed.

Lemma Triangular_logp_right x :
  c < x < u ->
  Triangular_logp (Fin l) (Fin u) (Fin c) (Fin x) = Fin (ln (2 * (u - x) / D2)).
Proof.
  intros Hx. pose proof Triangular_D2_pos as HD.
  unfold Triangular_logp, alltrue_elemwise. cbn [forallb xleb xltb xeqb].
  destruct (Rle_dec l x); [|lra]. destruct (Rlt_dec x c); [lra|]. cbn [andb].
  destruct (Req_dec_T x c); [lra|].
  destruct (Rlt_dec c x); [|lra]. destruct (Rle_dec x u); [|lra]. cbn [andb].
  cbn [xsub xneg xadd xmul xdiv]. fold (Rminus u l) (Rminus u c) (Rminus u x). fold D2.
  destruct (Req_dec_T D2 0); [lra|].
  rewrite xlog_pos; [done|]. apply Rdiv_lt_0_compat; lra.
Qed.

Lemma Triangular_logp_mode :
  Triangular_logp (Fin l) (Fin u) (Fin c) (Fin c) = Fin (ln (2 / (u - l))).
Proof.
  unfold Triangular_logp, alltrue_elemwise. cbn [forallb xleb xltb xeqb].
  destruct (Rle_dec l c); [|lra]. destruct (Rlt_dec c c); [lra|]. cbn [andb].
  destruct (Req_dec_T c c); [|lra].
  cbn [xsub xneg xadd xdiv]. fold (Rminus u l).
  destruct (Req_dec_T (u - l) 0); [lra|].
  rewrite xlog_pos; [done|]. apply Rdiv_lt_0_compat; lra.
Qed.

Lemma Triangular_logp_outside x :
  x < l \/ u < x ->
  Triangular_logp (Fin l) (Fin u) (Fin c) (Fin x) = PInf.
Proof.
  intros Hx. unfold Triangular_logp, alltrue_elemwise. cbn [forallb xleb xltb xeqb].
  destruct (Rle_dec l x), (Rlt_dec x c), (Req_dec_T x c), (Rlt_dec c x), (Rle_dec x u);
    cbn [andb]; try reflexivity; lra.
Qed.

Lemma Triangular_logcdf_left x :
  l < x <= c ->
  Triangular_logcdf (Fin l) (Fin u) (Fin c) (Fin x) = Fin (ln ((x - l) ^ 2 / D1)).
Proof.
  intros Hx. pose proof Triangular_D1_pos as HD.
  unfold Triangular_logcdf, xsqr. cbn [xleb].
  destruct (Rle_dec x l); [lra|]. destruct (Rle_dec x c); [|lra].
  cbn [xsub xneg xadd xmul xdiv]. fold (Rminus u l) (Rminus c l) (Rminus x l). fold D1.
  destruct (Req_dec_T D1 0); [lra|].
  replace ((x - l) * (x - l)) with ((x - l) ^ 2) by ring.
  rewrite xlog_pos; [done|]. apply Rdiv_lt_0_compat; [|done]. apply pow_lt. lra.
Qed.

Lemma Triangular_logcdf_right x :
  c < x < u ->
  Triangular_logcdf (Fin l) (Fin u) (Fin c) (Fin x) = Fin (ln (1 - (u - x) ^ 2 / D2)).
Proof.
  intros Hx. pose proof Triangular_D2_pos as HD.
  pose proof (Triangular_upper_share x ltac:(lra)) as Hs.
  unfold Triangular_logcdf, xsqr, xlog1p. cbn [xleb xltb].
  destruct (Rle_dec x l); [lra|]. destruct (Rle_dec x c); [lra|].
  destruct (Rlt_dec x u); [|lra].
  cbn [xsub xneg xadd xmul xdiv]. fold (Rminus u l) (Rminus u c) (Rminus u x). fold D2.
  destruct (Req_dec_T D2 0); [lra|]. cbn [xadd].
  replace (1 + - ((u - x) * (u - x)) / D2) with (1 - (u - x) ^ 2 / D2) by (field; lra).
  rewrite xlog_pos by lra. done.
Qed.

Lemma Triangular_logcdf_low x :
  x <= l -> Triangular_logcdf (Fin l) (Fin u) (Fin c) (Fin x) = NInf.
Proof.
  intros Hx. unfold Triangular_logcdf. cbn [xleb]. by destruct (Rle_dec x l).
Qed.

Lemma Triangular_logcdf_high x :
  u <= x -> Triangular_logcdf (Fin l) (Fin u) (Fin c) (Fin x) = Fin 0.
Proof.
  intros Hx. unfold Triangular_logcdf. cbn [xleb xltb].
  destruct (Rle_dec x l); [lra|]. destruct (Rle_dec x c); [lra|].
  destruct (Rlt_dec x u); [lra|]. done.
Qed.

Lemma Triangular_cdf_left t :
  l < t <= c ->
  prob (Triangular_logcdf (Fin l) (Fin u) (Fin c) (Fin t)) = 0 + / D1 * (1 * t + - l) ^ 2.
Proof.
  intros Ht. pose proof Triangular_D1_pos as HD.
  rewrite Triangular_logcdf_left, prob_Fin by done.
  rewrite exp_ln; [field; lra|]. apply Rdiv_lt_0_compat; [|done]. apply pow_lt. lra.
Qed.

Lemma Triangular_cdf_right t :
  c < t < u ->
  prob (Triangular_logcdf (Fin l) (Fin u) (Fin c) (Fin t)) =
  1 + - / D2 * (- 1 * t + u) ^ 2.
Proof.
  intros Ht. pose proof Triangular_D2_pos as HD.
  pose proof (Triangular_upper_share t ltac:(lra)) as Hs.
  rewrite Triangular_logcdf_right, prob_Fin by done.
  rewrite exp_ln by lra. field; lra.
Qed.

Lemma Triangular_density_left x :
  l < x < c ->
  derivable_pt_lim (fun t => prob (Triangular_logcdf (Fin l) (Fin u) (Fin c) (Fin t))) x
    (prob (Triangular_logp (Fin l) (Fin u) (Fin c) (Fin x))).
Proof.
  intros Hx. pose proof Triangular_D1_pos as HD.
  apply (derivable_pt_lim_near _ _ x _ l c Hx
           (fun z Hz => Triangular_cdf_left z ltac:(lra))).
  apply (derivable_pt_lim_value _ _ (/ D1 * (2 * 1 * (1 * x + - l))));
    [|apply derivable_pt_lim_square].
  rewrite Triangular_logp_left, prob_Fin by done.
  rewrite exp_ln; [field; lra|]. apply Rdiv_lt_0_compat; lra.
Qed.

Lemma Triangular_density_right x :
  c < x < u ->
  derivable_pt_lim (fun t => prob (Triangular_logcdf (Fin l) (Fin u) (Fin c) (Fin t))) x
    (prob (Triangular_logp (Fin l) (Fin u) (Fin c) (Fin x))).
Proof.
  intros Hx. pose proof Triangular_D2_pos as HD.
  apply (derivable_pt_lim_near _ _ x _ c u Hx
           (fun z Hz => Triangular_cdf_right z ltac:(lra))).
  apply (derivable_pt_lim_value _ _ (- / D2 * (2 * - 1 * (- 1 * x + u))));
    [|apply derivable_pt_lim_square].
  rewrite Triangular_logp_right, prob_Fin by done.
  rewrite exp_ln; [field; lra|]. apply Rdiv_lt_0_compat; lra.
Qed.

End TriangularFacts.

Section TriangularStatement.
Import XReal XRealOps ContinuousLogp.
Local Open Scope R_scope.

(** X9.  For [lower < c < upper]: [Triangular.logp] is the logarithm of
    the triangular density on [(lower, upper)] and [+inf], not [-inf],
    outside [[lower, upper]].  [Triangular.logcdf] is [-inf] up to
    [lower], [0] from [upper] on, and in between the logarithm of the
    triangular CDF, which has the density [exp (logp)] as its derivative
    at every point of [(lower, upper)], the mode included.  At [c], which
    [__init__] stores as [mean] and [median], the CDF is
    [(c - lower) / (upper - lower)]. *)
Theorem Triangular_logcdf_logp l u c :
  l < c -> c < u ->
  (forall x, x < l \/ u < x ->
     Triangular_logp (Fin l) (Fin u) (Fin c) (Fin x) = PInf) /\
  (forall x, l < x < c ->
     Triangular_logp (Fin l) (Fin u) (Fin c) (Fin x) =
       Fin (ln (2 * (x - l) / ((u - l) * (c - l)))) /\
     Triangular_logcdf (Fin l) (Fin u) (Fin c) (Fin x) =
       Fin (ln ((x - l) ^ 2 / ((u - l) * (c - l))))) /\
  (forall x, c < x < u ->
     Triangular_logp (Fin l) (Fin u) (Fin c) (Fin x) =
       Fin (ln (2 * (u - x) / ((u - l) * (u - c)))) /\
     Triangular_logcdf (Fin l) (Fin u) (Fin c) (Fin x) =
       Fin (ln (1 - (u - x) ^ 2 / ((u - l) * (u - c))))) /\
  (Triangular_logp (Fin l) (Fin u) (Fin c) (Fin c) = Fin (ln (2 / (u - l))) /\
   Triangular_logcdf (Fin l) (Fin u) (Fin c) (Fin c) = Fin (ln ((c - l) / (u - l)))) /\
  (forall x, l < x < u ->
     derivable_pt_lim
       (fun t => prob (Triangular_logcdf (Fin l) (Fin u) (Fin c) (Fin t))) x
       (prob (Triangular_logp (Fin l) (Fin u) (Fin c) (Fin x)))) /\
  (forall x, x <= l -> Triangular_logcdf (Fin l) (Fin u) (Fin c) (Fin x) = NInf) /\
  (forall x, u <= x -> Triangular_logcdf (Fin l) (Fin u) (Fin c) (Fin x) = Fin 0).
Proof.
  intros Hlc Hcu.
  pose proof (Triangular_D1_pos l u c Hlc Hcu) as HD1.
  pose proof (Triangular_D2_pos l u c Hlc Hcu) as HD2.
  split; [intros x Hx; by apply Triangular_logp_outside|].
  split.
  { intros x Hx. split; [by apply Triangular_logp_left|].
    apply Triangular_logcdf_left; [done..|lra]. }
  split.
  { intros x Hx. split; [by apply Triangular_logp_right|].
    by apply Triangular_logcdf_right. }
  split.
  { split; [by apply Triangular_logp_mode|].
    rewrite Triangular_logcdf_left by (done || lra). do 2 f_equal. field; lra. }
  split.
  { intros x Hx. destruct (Rtotal_order x c) as [Hlt|[->|Hgt]].
    - apply Triangular_density_left; [done..|lra].
    - set (G1 := fun t => 0 + / ((u - l) * (c - l)) * (1 * t + - l) ^ 2).
      set (G2 := fun t => 1 + - / ((u - l) * (u - c)) * (- 1 * t + u) ^ 2).
      apply (derivable_pt_lim_near _ (fun t => if Rle_dec t c then G1 t else G2 t)
               c _ l u Hx).
      { intros z Hz. destruct (Rle_dec z c).
        - apply Triangular_cdf_left; [done..|lra].
        - apply Triangular_cdf_right; [done..|lra]. }
      assert (prob (Triangular_logp (Fin l) (Fin u) (Fin c) (Fin c)) = 2 / (u - l)) as ->.
      { rewrite Triangular_logp_mode, prob_Fin by done.
        rewrite exp_ln; [done|]. apply Rdiv_lt_0_compat; lra. }
      apply (derivable_pt_lim_glue _ G1 G2).
      + intros t Ht. by destruct (Rle_dec t c).
      + intros t Ht. destruct (Rle_dec t c); [lra|done].
      + unfold G1, G2. field; lra.
      + apply (derivable_pt_lim_value _ _
                 (/ ((u - l) * (c - l)) * (2 * 1 * (1 * c + - l))));
          [field; lra|apply derivable_pt_lim_square].
      + apply (derivable_pt_lim_value _ _
                 (- / ((u - l) * (u - c)) * (2 * - 1 * (- 1 * c + u))));
          [field; lra|apply derivable_pt_lim_square].
    - apply Triangular_density_right; [done..|lra]. }
  split; [intros x Hx; by apply Triangular_logcdf_low|].
  intros x Hx. by apply Triangular_logcdf_high.
Qed.

Lemma Triangular_logcdf_logp_witness :
  Triangular_logp (Fin 0) (Fin 2) (Fin 1) (Fin 3) = PInf.
Proof.
  apply (proj1 (Triangular_logcdf_logp 0 2 1 ltac:(lra) ltac:(lra))). lra.
Defined.

End TriangularStatement.

Section NormalFacts.
Import XReal XRealOps ContinuousLogp.
Local Open Scope R_scope.

Lemma Normal_logp_value mu sd tau x :
  0 < sd -> 0 < tau ->
  Normal_logp (Fin mu) (Fin sd) (Fin tau) (Fin x) =
  Fin ((- tau * (x - mu) ^ 2 + ln (tau / PI / 2)) / 2).
Proof.
  intros Hsd Htau. pose proof PI_RGT_0 as Hpi.
  unfold Normal_logp, bound, xsqr. cbn [forallb xltb].
  destruct (Rlt_dec 0 sd); [|lra]. cbn [andb].
  cbn [xneg xsub xadd xmul xdiv].
  destruct (Req_dec_T PI 0); [lra|]. cbn [xdiv].
  destruct (Req_dec_T 2 0); [lra|].
  rewrite xlog_pos.
  - cbn [xadd xdiv]. destruct (Req_dec_T 2 0); [lra|]. apply f_equal.
    field.
  - apply Rdiv_lt_0_compat; [|lra]. apply Rdiv_lt_0_compat; lra.
Qed.

Lemma Normal_logp_of_sd mu s x :
  0 < s ->
  Normal_logp (Fin mu) (Fin s) (Fin (/ s ^ 2)) (Fin x) =
  Fin (- (x - mu) ^ 2 / (2 * s ^ 2) - ln s - ln (2 * PI) / 2).
Proof.
  intros Hs. pose proof PI_RGT_0 as Hpi.
  assert (0 < s ^ 2) as Hsq by (apply pow_lt; lra).
  assert (0 < / s ^ 2) as Htau by (by apply Rinv_0_lt_compat).
  rewrite Normal_logp_value by done. f_equal.
  replace (/ s ^ 2 / PI / 2) with (/ (s * s * (2 * PI))) by (field; lra).
  rewrite ln_Rinv by (apply Rmult_lt_0_compat; nra).
  rewrite !ln_mult by nra. field; lra.
Qed.

Lemma HalfNormal_logp_value sd tau x :
  0 < sd -> 0 < tau -> 0 <= x ->
  HalfNormal_logp (Fin sd) (Fin tau) (Fin x) =
  Fin (- (5 / 10) * tau * (x * x) + 5 / 10 * ln (tau * 2 / PI)).
Proof.
  intros Hsd Htau Hx. pose proof PI_RGT_0 as Hpi.
  unfold HalfNormal_logp, bound, xsqr. cbn [forallb xltb xleb].
  destruct (Rle_dec 0 x); [|lra]. destruct (Rlt_dec 0 tau); [|lra].
  destruct (Rlt_dec 0 sd); [|lra]. cbn [andb].
  cbn [xmul xdiv]. destruct (Req_dec_T PI 0); [lra|].
  rewrite xlog_pos; [reflexivity|].
  apply Rdiv_lt_0_compat; lra.
Qed.

Lemma HalfCauchy_logp_value beta x :
  0 < beta -> 0 <= x ->
  HalfCauchy_logp (Fin beta) (Fin x) =
  Fin (ln 2 - ln PI - ln beta - ln (1 + (x / beta) ^ 2)).
Proof.
  intros Hb Hx. pose proof PI_RGT_0 as Hpi.
  unfold HalfCauchy_logp, bound. cbn [forallb xltb xleb].
  destruct (Rle_dec 0 x); [|lra]. destruct (Rlt_dec 0 beta); [|lra].
  cbn [andb]. cbn [xdiv]. destruct (Req_dec_T beta 0) as [|_]; [lra|].
  unfold xsqr, xlog1p. cbn [xmul xadd].
  replace (x / beta * (x / beta)) with ((x / beta) ^ 2) by ring.
  pose proof (pow2_ge_0 (x / beta)) as Hsq.
  rewrite !xlog_pos by lra. reflexivity.
Qed.

Lemma Lognormal_logp_value mu tau x :
  0 < tau -> 0 < x ->
  Lognormal_logp (Fin mu) (Fin tau) (Fin x) =
  Fin (- (5 / 10) * tau * ((ln x - mu) * (ln x - mu))
       + 5 / 10 * ln (tau / (2 * PI)) - ln x).
Proof.
  intros Htau Hx. pose proof PI_RGT_0 as Hpi.
  unfold Lognormal_logp, bound, xsqr. cbn [forallb xltb].
  destruct (Rlt_dec 0 tau); [|lra]. cbn [andb].
  rewrite (xlog_pos x) by done.
  cbn [xmul xdiv xsub xneg xadd].
  destruct (Req_dec_T (2 * PI) 0); [lra|].
  rewrite xlog_pos by (apply Rdiv_lt_0_compat; lra).
  cbn [xmul xadd]. reflexivity.
Qed.

End NormalFacts.

Section NormalStatements.
Import PyFloat Continuous XReal XRealOps ContinuousLogp.
Local Open Scope R_scope.

(** X10.  A [Normal] given a standard deviation [s > 0] keeps the pair
    that [get_tau_sd] returns for it, and its [logp] is the Gaussian
    log-density [- (x - mu)^2 / (2 s^2) - log s - log (2 pi) / 2]; given
    the precision [1 / s^2] instead it keeps the same pair and has the same
    [logp].  Whatever the precision, [logp] is [-inf] for a kept standard
    deviation that is not positive. *)
Theorem Normal_logp_parametrisations mu s x :
  0 < s ->
  exists tau sd,
    get_tau_sd None (Some s) = Return (tau, sd) /\
    get_tau_sd (Some (/ s ^ 2)) None = Return (tau, sd) /\
    Normal_logp (Fin mu) (Fin sd) (Fin tau) (Fin x) =
      Fin (- (x - mu) ^ 2 / (2 * s ^ 2) - ln s - ln (2 * PI) / 2) /\
    (forall sd' tau', sd' <= 0 ->
       Normal_logp (Fin mu) (Fin sd') tau' (Fin x) = NInf).
Proof.
  intros Hs.
  assert (0 < s ^ 2) as Hsq by (apply pow_lt; lra).
  assert (0 < / s ^ 2) as Htau by (by apply Rinv_0_lt_compat).
  exists (/ s ^ 2), s.
  split; [by apply get_tau_sd_of_sd|].
  split.
  { rewrite get_tau_sd_of_tau by done. do 2 f_equal.
    rewrite sqrt_inv, sqrt_pow2 by lra. field; lra. }
  split; [by apply Normal_logp_of_sd|].
  intros sd' tau' Hsd'. unfold Normal_logp, bound. cbn [forallb xltb].
  destruct (Rlt_dec 0 sd'); [lra|reflexivity].
Qed.

Lemma Normal_logp_parametrisations_witness :
  exists tau sd,
    get_tau_sd None (Some 2) = Return (tau, sd) /\
    get_tau_sd (Some (/ 2 ^ 2)) None = Return (tau, sd) /\
    Normal_logp (Fin 0) (Fin sd) (Fin tau) (Fin 1) =
      Fin (- (1 - 0) ^ 2 / (2 * 2 ^ 2) - ln 2 - ln (2 * PI) / 2) /\
    (forall sd' tau', sd' <= 0 ->
       Normal_logp (Fin 0) (Fin sd') tau' (Fin 1) = NInf).
Proof. apply (Normal_logp_parametrisations 0 2 1). lra. Defined.

(** X11.  With positive parameters, [HalfNormal.logp] and
    [HalfCauchy.logp] at a value [x >= 0] are [log 2] above the [logp] of
    the [Normal] centred at zero with the same [sd] and [tau], and of the
    [Cauchy] centred at zero with the same [beta]; at a negative value both
    are [-inf]. *)
Theorem Half_logp_doubles sd tau beta x :
  0 < sd -> 0 < tau -> 0 < beta ->
  (0 <= x ->
     HalfNormal_logp (Fin sd) (Fin tau) (Fin x) =
       xadd (Normal_logp (Fin 0) (Fin sd) (Fin tau) (Fin x)) (Fin (ln 2)) /\
     HalfCauchy_logp (Fin beta) (Fin x) =
       xadd (Cauchy_logp (Fin 0) (Fin beta) (Fin x)) (Fin (ln 2))) /\
  (x < 0 ->
     HalfNormal_logp (Fin sd) (Fin tau) (Fin x) = NInf /\
     HalfCauchy_logp (Fin beta) (Fin x) = NInf).
Proof.
  intros Hsd Htau Hb. pose proof PI_RGT_0 as Hpi. split.
  - intros Hx. split.
    + rewrite HalfNormal_logp_value, Normal_logp_value by done.
      cbn [xadd]. apply f_equal.
      replace (tau * 2 / PI) with (tau / PI / 2 * (2 * 2)) by (field; lra).
      assert (0 < tau / PI / 2) as Hq
        by (apply Rdiv_lt_0_compat; [apply Rdiv_lt_0_compat|]; lra).
      rewrite ln_mult by lra. rewrite (ln_mult 2 2) by lra. field.
    + rewrite HalfCauchy_logp_value, Cauchy_logp_value by done.
      cbn [xadd]. apply f_equal.
      replace (x - 0) with x by lra. lra.
  - intros Hx. unfold HalfNormal_logp, HalfCauchy_logp, bound.
    cbn [forallb xleb]. destruct (Rle_dec 0 x); [lra|]. done.
Qed.

Lemma Half_logp_doubles_witness :
  HalfNormal_logp (Fin 1) (Fin 1) (Fin (- 1)) = NInf /\
  HalfCauchy_logp (Fin 1) (Fin (- 1)) = NInf.
Proof.
  apply (proj2 (Half_logp_doubles 1 1 1 (- 1) ltac:(lra) ltac:(lra) ltac:(lra))).
  lra.
Defined.

(** X12.  For [tau > 0], [Lognormal.logp] at a value [x > 0] is the
    [logp] of the [Normal] with the same [mu] and [tau] (and any positive
    [sd]) at [log x], less [log x]; at zero and at every negative value it
    is [nan], not [-inf]: only [tau > 0] is bounded. *)
Theorem Lognormal_logp_change_of_variable mu sd tau x :
  0 < sd -> 0 < tau ->
  (0 < x ->
     Lognormal_logp (Fin mu) (Fin tau) (Fin x) =
       xsub (Normal_logp (Fin mu) (Fin sd) (Fin tau) (Fin (ln x))) (Fin (ln x))) /\
  (x <= 0 -> Lognormal_logp (Fin mu) (Fin tau) (Fin x) = NaN).
Proof.
  intros Hsd Htau. pose proof PI_RGT_0 as Hpi. split.
  - intros Hx. rewrite Lognormal_logp_value, Normal_logp_value by done.
    cbn [xsub xneg xadd]. apply f_equal.
    replace (tau / (2 * PI)) with (tau / PI / 2) by (field; lra). field.
  - intros Hx. unfold Lognormal_logp, bound, xsqr. cbn [forallb xltb].
    destruct (Rlt_dec 0 tau); [|lra]. cbn [andb].
    destruct (Rlt_dec x 0) as [Hneg|Hzero].
    + rewrite (xlog_neg x) by done. reflexivity.
    + replace x with 0 by lra. rewrite xlog_zero.
      cbn [xsub xneg xadd xmul]. unfold xscale_inf.
      destruct (Rlt_dec 0 (- (5 / 10) * tau)); [lra|].
      destruct (Rlt_dec (- (5 / 10) * tau) 0); [|lra].
      cbn [xdiv xmul]. destruct (Req_dec_T (2 * PI) 0); [lra|].
      rewrite xlog_pos by (apply Rdiv_lt_0_compat; lra).
      reflexivity.
Qed.

Lemma Lognormal_logp_change_of_variable_witness :
  Lognormal_logp (Fin 0) (Fin 1) (Fin 0) = NaN.
Proof.
  apply (proj2 (Lognormal_logp_change_of_variable 0 1 1 0 ltac:(lra) ltac:(lra))).
  lra.
Defined.

End NormalStatements.

(* ===================================================================== *)
(** * The random variables of a graph *)
(* ===================================================================== *)

Section RvsInGraphFacts.
Import Graph Utils GraphQueries.

Variable inner_outputs : Op -> option (list TensorVariable).
Hypothesis Hflat : no_inner_graph inner_outputs.

Lemma expand_flat r :
  expand inner_outputs r =
  match owner r with Some o => reverse (inputs o) | None => [] end.
Proof. unfold expand. destruct (owner r) as [o|]; [|done]. by rewrite Hflat. Qed.

Lemma expand_smaller v : vars_size (expand inner_outputs v) < var_size v.
Proof.
  rewrite expand_flat.
  destruct v as [i t [[o ins]|]|i t d]; cbn [owner inputs].
  - rewrite var_size_unfold, vars_size_reverse. lia.
  - cbn. lia.
  - cbn. lia.
Qed.

Lemma elem_of_expand u v :
  v ∈ expand inner_outputs u <-> exists o, owner u = Some o /\ v ∈ inputs o.
Proof.
  rewrite expand_flat. destruct (owner u) as [o|].
  - rewrite elem_of_reverse. split; [intros H; by exists o|by intros (o' & [= <-] & H)].
  - rewrite elem_of_nil. split; [done|by intros (o & Ho & _)].
Qed.

Lemma walk_reach_ancestors vars v :
  walk_reach (expand inner_outputs) vars v -> v ∈ ancestors vars.
Proof.
  induction 1 as [v Hv|u v _ IH Hv].
  - apply elem_of_ancestors. exists v. split; [done|apply ancestors_of_self].
  - apply elem_of_expand in Hv as (o & Ho & Hv).
    apply elem_of_ancestors in IH as (x & Hx & IH).
    apply elem_of_ancestors. exists x. split; [done|].
    by apply ancestors_of_inputs with u o.
Qed.

Lemma ancestors_of_walk_reach : forall w v,
  v ∈ ancestors_of w -> walk_reach (expand inner_outputs) [w] v.
Proof.
  induction w as [w IH] using TensorVariable_size_ind. intros v Hv.
  destruct w as [i t [[o ins]|]|i t d].
  - rewrite ancestors_of_unfold in Hv. apply elem_of_cons in Hv as [->|Hv].
    { apply walk_reach_start, list_elem_of_here. }
    apply elem_of_ancestors in Hv as (x & Hx & Hv).
    apply (walk_reach_mono _ [x]).
    + intros n Hn. apply list_elem_of_singleton in Hn as ->.
      eapply walk_reach_expand; [apply walk_reach_start, list_elem_of_here|].
      apply elem_of_expand. by eexists.
    + apply IH; [|done]. rewrite var_size_unfold.
      pose proof (vars_size_elem x ins Hx). lia.
  - simpl in Hv. apply list_elem_of_singleton in Hv as ->.
    apply walk_reach_start, list_elem_of_here.
  - simpl in Hv. apply list_elem_of_singleton in Hv as ->.
    apply walk_reach_start, list_elem_of_here.
Qed.

Lemma walk_reach_iff_ancestors vars v :
  walk_reach (expand inner_outputs) vars v <-> v ∈ ancestors vars.
Proof.
  split; [apply walk_reach_ancestors|].
  intros Hv. apply elem_of_ancestors in Hv as (x & Hx & Hv).
  apply (walk_reach_mono _ [x]).
  - intros n Hn. apply list_elem_of_singleton in Hn as ->. by apply walk_reach_start.
  - by apply ancestors_of_walk_reach.
Qed.

Lemma walk_yields_reached vars v :
  v ∈ walk vars (expand inner_outputs) -> walk_reach (expand inner_outputs) vars v.
Proof.
  unfold walk. intros Hv. apply walk_loop_sound in Hv.
  eapply walk_reach_mono; [|exact Hv].
  intros n Hn. apply walk_reach_start. by rewrite elem_of_reverse in Hn.
Qed.

(** The full walk yields exactly the variables of the graphs. *)
Lemma walk_expand_ancestors vars v :
  ids_consistent vars ->
  v ∈ walk vars (expand inner_outputs) <-> v ∈ ancestors vars.
Proof.
  intros Hids. rewrite <- walk_reach_iff_ancestors. split.
  - apply walk_yields_reached.
  - apply walk_complete; [apply expand_smaller|].
    intros u y Hu Hy Hid. apply Hids; [| |done].
    + by apply walk_reach_ancestors, walk_yields_reached.
    + by apply walk_reach_ancestors.
Qed.

End RvsInGraphFacts.

Section WalkDistinct.
Import Graph Utils.

(** The walk yields no identity twice, and none it was told to skip. *)
Lemma walk_loop_NoDup expand fuel : forall nodes rval_set,
  NoDup (vid <$> walk_loop fuel expand nodes rval_set) /\
  (forall y, y ∈ walk_loop fuel expand nodes rval_set -> vid y ∉ rval_set).
Proof.
  induction fuel as [|fuel IH]; intros nodes rval_set; simpl.
  { split; [constructor|]. intros y Hy. by apply elem_of_nil in Hy. }
  destruct nodes as [|node nodes'].
  { split; [constructor|]. intros y Hy. by apply elem_of_nil in Hy. }
  destruct (decide (vid node ∈ rval_set)) as [Hin|Hnin]; [apply IH|].
  destruct (IH (reverse (expand node) ++ nodes') ({[vid node]} ∪ rval_set)) as [H1 H2].
  split.
  - rewrite fmap_cons. constructor; [|done].
    intros Hv. apply list_elem_of_fmap in Hv as (y & Hy & Hyin).
    apply H2 in Hyin. apply Hyin. rewrite <- Hy.
    apply elem_of_union. left. by apply elem_of_singleton.
  - intros y Hy. apply elem_of_cons in Hy as [->|Hy]; [done|].
    apply H2 in Hy. intros Hin. apply Hy, elem_of_union. by right.
Qed.

End WalkDistinct.

Section RvsInGraphStatements.
Import Graph Utils GraphQueries Samples.

Lemma rvs_in_graph_members inner_outputs vars :
  no_inner_graph inner_outputs ->
  ids_consistent vars ->
  forall v,
    v ∈ rvs_in_graph inner_outputs vars <->
    v ∈ ancestors vars /\
    exists o, owner v = Some o /\
              (is_RandomVariable (op o) = true \/ is_MeasurableVariable (op o) = true).
Proof.
  intros Hflat Hids v. unfold rvs_in_graph.
  rewrite list_elem_of_In, filter_In, <- list_elem_of_In.
  rewrite (walk_expand_ancestors inner_outputs Hflat vars v Hids).
  unfold is_rv_node. split.
  - intros [Hv Hf]. split; [done|]. destruct (owner v) as [o|]; [|done].
    exists o. split; [done|]. by apply orb_true_iff.
  - intros [Hv (o & Ho & Hf)]. split; [done|]. rewrite Ho. by apply orb_true_iff.
Qed.

(** X13.  In a graph none of whose operations has an inner graph,
    [rvs_in_graph vars] holds exactly the variables of the graphs under
    [vars] (the variables of [vars] and all their ancestors) whose owner's
    operation is a [RandomVariable] or a [MeasurableVariable], each of them
    once.  Identities are those of objects ([ids_consistent]). *)
Theorem rvs_in_graph_spec inner_outputs vars :
  no_inner_graph inner_outputs ->
  ids_consistent vars ->
  (forall v,
     v ∈ rvs_in_graph inner_outputs vars <->
     v ∈ ancestors vars /\
     exists o, owner v = Some o /\
               (is_RandomVariable (op o) = true \/ is_MeasurableVariable (op o) = true)) /\
  NoDup (vid <$> rvs_in_graph inner_outputs vars).
Proof.
  intros Hflat Hids. split; [by apply rvs_in_graph_members|].
  unfold rvs_in_graph, walk.
  destruct (walk_loop_NoDup (expand inner_outputs) (vars_size vars) (reverse vars) ∅)
    as [Hnd _].
  revert Hnd. generalize (walk_loop (vars_size vars) (expand inner_outputs)
                            (reverse vars) ∅).
  induction l as [|a l IH]; [done|]. rewrite fmap_cons. intros Hnd.
  apply NoDup_cons in Hnd as [Ha Hl]. simpl. destruct (is_rv_node a).
  - rewrite fmap_cons. apply NoDup_cons. split; [|by apply IH].
    intros Hin. apply Ha. apply list_elem_of_fmap in Hin as (y & Hy & Hyin).
    apply list_elem_of_fmap. exists y. split; [done|].
    apply list_elem_of_In in Hyin. apply filter_In in Hyin as [Hyin _].
    by apply list_elem_of_In.
  - by apply IH.
Qed.

Lemma rvs_in_graph_spec_witness :
  (forall v,
     v ∈ rvs_in_graph (fun _ => None) [exp_x] <->
     v ∈ ancestors [exp_x] /\
     exists o, owner v = Some o /\
               (is_RandomVariable (op o) = true \/ is_MeasurableVariable (op o) = true)) /\
  NoDup (vid <$> rvs_in_graph (fun _ => None) [exp_x]).
Proof.
  apply rvs_in_graph_spec; [done|apply ids_consistent_exp_x].
Defined.

Example rvs_in_graph_exp_x :
  rvs_in_graph (fun _ => None) [exp_x] = [x_uniform].
Proof. reflexivity. Qed.

Lemma check_potential_measurability_walk inputs valued_rvs :
  check_potential_measurability inputs valued_rvs = true <->
  exists v, v ∈ walk inputs (expand_fn (valued_set valued_rvs)) /\
            unvalued_measurable (valued_set valued_rvs) v = true.
Proof.
  unfold check_potential_measurability.
  destruct (existsb _ _) eqn:Hex.
  - split; [intros _|done]. apply existsb_exists in Hex as (v & Hv & Hf).
    exists v. split; [by apply list_elem_of_In|done].
  - split; [done|]. intros (v & Hv & Hf).
    assert (existsb (unvalued_measurable (valued_set valued_rvs))
              (walk inputs (expand_fn (valued_set valued_rvs))) = true) as Hex';
      [|congruence].
    apply existsb_exists. exists v. split; [by apply list_elem_of_In|done].
Qed.

(** Along a path from the inputs the first measurable variable is reached
    without looking inside a measurable one. *)
Lemma first_measurable_reached inner_outputs inputs v :
  no_inner_graph inner_outputs ->
  walk_reach (expand inner_outputs) inputs v ->
  (exists m o, reaches inputs ∅ m /\ owner m = Some o /\
               is_MeasurableVariable (op o) = true) \/
  reaches inputs ∅ v.
Proof.
  intros Hflat. induction 1 as [v Hv|u v _ IH Hv].
  - right. by apply reaches_input.
  - destruct IH as [IH|IH]; [by left|].
    apply (elem_of_expand inner_outputs Hflat) in Hv as (o & Ho & Hv).
    destruct (is_MeasurableVariable (op o)) eqn:Hm.
    + left. by exists u, o.
    + right. apply reaches_step with u o; [done..|apply not_elem_of_empty|done].
Qed.

(** X14.  In a graph none of whose operations has an inner graph: when
    [check_potential_measurability inputs valued_rvs] is [True], some
    variable of [rvs_in_graph inputs] is not valued; and without valued
    variables the two agree, [check_potential_measurability inputs []]
    being [True] exactly when [rvs_in_graph inputs] is not empty. *)
Theorem check_potential_measurability_rvs_in_graph inner_outputs inputs valued_rvs :
  no_inner_graph inner_outputs ->
  ids_consistent inputs ->
  (check_potential_measurability inputs valued_rvs = true ->
   exists v, v ∈ rvs_in_graph inner_outputs inputs /\
             vid v ∉ valued_set valued_rvs) /\
  (check_potential_measurability inputs [] = true <->
   rvs_in_graph inner_outputs inputs <> []).
Proof.
  intros Hflat Hids.
  pose proof (rvs_in_graph_members inner_outputs inputs Hflat Hids) as Hspec.
  split.
  - intros Hc. apply check_potential_measurability_walk in Hc as (v & Hv & Hf).
    apply walk_expand_fn_reaches in Hv; [|done].
    unfold unvalued_measurable in Hf. destruct (owner v) as [o|] eqn:Ho; [|done].
    apply andb_true_iff in Hf as [Hm Hu]. apply bool_decide_eq_true in Hu.
    exists v. split; [|done]. apply Hspec.
    split; [by apply reaches_ancestors with (valued_set valued_rvs)|].
    exists o. split; [done|by right].
  - split.
    + intros Hc. apply check_potential_measurability_walk in Hc as (v & Hv & Hf).
      apply walk_expand_fn_reaches in Hv; [|done].
      unfold unvalued_measurable in Hf. destruct (owner v) as [o|] eqn:Ho; [|done].
      apply andb_true_iff in Hf as [Hm _].
      assert (v ∈ rvs_in_graph inner_outputs inputs) as Hin.
      { apply Hspec. split; [by apply reaches_ancestors with (valued_set [])|].
        exists o. split; [done|by right]. }
      intros E. rewrite E in Hin. by apply elem_of_nil in Hin.
    + intros Hne. destruct (rvs_in_graph inner_outputs inputs) as [|v l] eqn:E; [done|].
      assert (v ∈ v :: l) as Hin by apply list_elem_of_here.
      apply Hspec in Hin as [Hv (o & Ho & Hm)].
      assert (is_MeasurableVariable (op o) = true) as Hm'.
      { destruct Hm as [Hm|Hm]; [|done]. by destruct (op o). }
      apply (walk_reach_iff_ancestors inner_outputs Hflat) in Hv.
      apply check_potential_measurability_walk.
      destruct (first_measurable_reached inner_outputs inputs v Hflat Hv)
        as [(m & o' & Hr & Ho' & Hmo')|Hr].
      * exists m. split; [by apply walk_expand_fn_reaches|].
        unfold unvalued_measurable. rewrite Ho', Hmo'. simpl.
        apply bool_decide_eq_true. apply not_elem_of_empty.
      * exists v. split; [by apply walk_expand_fn_reaches|].
        unfold unvalued_measurable. rewrite Ho, Hm'. simpl.
        apply bool_decide_eq_true. apply not_elem_of_empty.
Qed.

Lemma check_potential_measurability_rvs_in_graph_witness :
  (check_potential_measurability [exp_x] [] = true ->
   exists v, v ∈ rvs_in_graph (fun _ => None) [exp_x] /\ vid v ∉ valued_set []) /\
  (check_potential_measurability [exp_x] [] = true <->
   rvs_in_graph (fun _ => None) [exp_x] <> []).
Proof.
  apply check_potential_measurability_rvs_in_graph; [done|apply ids_consistent_exp_x].
Defined.

End RvsInGraphStatements.

(* ===================================================================== *)
(** * Indices of a subtensor *)
(* ===================================================================== *)

Section SubtensorFacts.
Import Graph Subtensor.

Lemma convert_indices_rest : forall entry indices,
  snd (convert_indices indices entry) = drop (placeholders entry) indices.
Proof.
  induction entry as [name|a IHa b IHb c IHc| | |]; intros indices; cbn [placeholders];
    try reflexivity.
  - by destruct indices.
  - cbn [convert_indices].
    destruct (convert_indices indices a) as [a' r1] eqn:Ea.
    destruct (convert_indices r1 b) as [b' r2] eqn:Eb.
    destruct (convert_indices r2 c) as [c' r3] eqn:Ec.
    cbn [snd].
    pose proof (IHa indices) as Ha. rewrite Ea in Ha. cbn [snd] in Ha.
    pose proof (IHb r1) as Hb. rewrite Eb in Hb. cbn [snd] in Hb.
    pose proof (IHc r2) as Hc. rewrite Ec in Hc. cbn [snd] in Hc.
    subst. rewrite !drop_drop. f_equal. lia.
Qed.

Lemma convert_indices_closed : forall entry indices,
  placeholders entry = 0 -> convert_indices indices entry = (entry, indices).
Proof.
  induction entry as [name|a IHa b IHb c IHc| | |]; intros indices; cbn [placeholders];
    try reflexivity.
  - done.
  - intros H. cbn [convert_indices].
    rewrite IHa, IHb, IHc by lia. reflexivity.
Qed.

Lemma convert_indices_exhausted : forall entry,
  convert_indices [] entry = (entry, []).
Proof.
  induction entry as [name|a IHa b IHb c IHc| | |]; try reflexivity.
  cbn [convert_indices]. by rewrite IHa, IHb, IHc.
Qed.

(** X15.  [convert_indices] consumes as many leading elements of [indices]
    as the entry has type objects, or all of them if there are fewer: what
    is left is [indices] without its first [placeholders entry] elements.
    An entry without type objects is returned unchanged and consumes
    nothing; with no indices left every entry is returned unchanged, type
    objects included; and the three parts of a slice are filled from left
    to right. *)
Theorem convert_indices_consumes :
  (forall entry indices,
     snd (convert_indices indices entry) = drop (placeholders entry) indices) /\
  (forall entry indices,
     placeholders entry = 0 -> convert_indices indices entry = (entry, indices)) /\
  (forall entry, convert_indices [] entry = (entry, [])) /\
  (forall a b c i0 i1 i2 rest,
     convert_indices (i0 :: i1 :: i2 :: rest) (Slice (CType a) (CType b) (CType c))
     = (Slice i0 i1 i2, rest)).
Proof.
  split; [exact convert_indices_rest|].
  split; [exact convert_indices_closed|].
  split; [exact convert_indices_exhausted|].
  reflexivity.
Qed.

Lemma convert_indices_consumes_witness :
  convert_indices [Int 7] (Slice NoneIdx (Int 3) NoneIdx)
  = (Slice NoneIdx (Int 3) NoneIdx, [Int 7]).
Proof.
  apply (proj1 (proj2 convert_indices_consumes)). reflexivity.
Defined.

(** X16.  [indices_from_subtensor] returns [indices] itself for an empty
    [idx_list]; otherwise it returns one result for each entry of
    [idx_list], each converted against the whole of [indices]: an entry
    that is a type object becomes the first index, whatever its position
    and however many type objects come before it, and an entry without
    type objects is kept. *)
Theorem indices_from_subtensor_entries :
  (forall indices, indices_from_subtensor [] indices = indices) /\
  (forall idx_list indices,
     idx_list <> [] ->
     length (indices_from_subtensor idx_list indices) = length idx_list) /\
  (forall idx_list first rest j name,
     idx_list !! j = Some (CType name) ->
     indices_from_subtensor idx_list (first :: rest) !! j = Some first) /\
  (forall idx_list indices j entry,
     idx_list !! j = Some entry -> placeholders entry = 0 ->
     indices_from_subtensor idx_list indices !! j = Some entry).
Proof.
  split; [reflexivity|]. split; [|split].
  - intros idx_list indices Hne. unfold indices_from_subtensor.
    destruct idx_list; [done|]. by rewrite length_map.
  - intros idx_list first rest j name Hj. unfold indices_from_subtensor.
    destruct idx_list as [|e l]; [by rewrite lookup_nil in Hj|].
    change (map ?f ?l) with (f <$> l). rewrite list_lookup_fmap, Hj. reflexivity.
  - intros idx_list indices j entry Hj Hp. unfold indices_from_subtensor.
    destruct idx_list as [|e l]; [by rewrite lookup_nil in Hj|].
    change (map ?f ?l) with (f <$> l). rewrite list_lookup_fmap, Hj. cbn.
    by rewrite convert_indices_closed.
Qed.

Lemma indices_from_subtensor_entries_witness :
  indices_from_subtensor [CType "int64"; CType "int64"] [Int 1; Int 2] !! 1%nat
  = Some (Int 1).
Proof.
  apply (proj1 (proj2 (proj2 indices_from_subtensor_entries))
           [CType "int64"; CType "int64"] (Int 1) [Int 2] 1%nat "int64"%string).
  reflexivity.
Defined.

End SubtensorFacts.

(* ===================================================================== *)
(** * The recognisers: acceptance, requests, errors *)
(* ===================================================================== *)

Section AxisFacts.
Import Graph Order.

Lemma Sorted_of_nat_seq n : forall a, Sorted Z.le (Z.of_nat <$> seq a n).
Proof.
  induction n as [|n IH]; intros a; [constructor|].
  cbn [seq fmap list_fmap]. constructor; [apply IH|].
  destruct n; cbn [seq fmap list_fmap]; constructor. lia.
Qed.

Lemma NoDup_range n : NoDup (range n).
Proof.
  unfold range. apply NoDup_fmap; [exact Nat2Z.inj|apply NoDup_seq].
Qed.

(** [list(set(range(n)))] is [[0, ..., n - 1]]. *)
Lemma list_of_set_range n : list_of_set (list_to_set (range n)) = range n.
Proof.
  unfold list_of_set. apply (Sorted_unique Z.le).
  - apply Sorted_merge_sort. intros x y. apply Z.le_total.
  - apply Sorted_of_nat_seq.
  - rewrite merge_sort_Permutation. apply elements_list_to_set, NoDup_range.
Qed.

End AxisFacts.

Section RecogniserStatements.
Import Graph Py Order Samples.

(** X17.  [find_measurable_max] returns a replacement exactly when the
    session has the feature, the node is a [Max] that is not a
    [MeasurableMax], its operand is the output of a [RandomVariable] with
    scalar support all of whose inputs from the fourth on have rank 0, the
    axes of the reduction, as a set, are all the dimensions of the operand,
    and the feature grants the request for the node's inputs.  The
    replacement is then the output of a new node over the operand itself,
    whose operation is [MeasurableMaxDiscrete] if the [dtype] of the draw
    starts with [int] and [MeasurableMax] otherwise, with the axes
    [[0, ..., ndim - 1]] whatever their order or repetition in the node. *)
Theorem find_measurable_max_accepts_iff fresh fgraph node outs :
  result (find_measurable_max fresh fgraph node) = Return (Some outs) <->
  exists feature axis base_var base_owner dt,
    preserve_rv_mappings fgraph = Some feature /\
    is_MeasurableMax (op node) = false /\
    is_Max (op node) = Some axis /\
    inputs node !! 0%nat = Some base_var /\
    owner base_var = Some base_owner /\
    request_measurable feature (inputs node) = true /\
    is_univariate_rv (op base_owner) = true /\
    some_param_not_scalar (inputs base_owner) = false /\
    (list_to_set axis : gset Z) = list_to_set (range (ndim (type base_var))) /\
    op_dtype (op base_owner) = Some dt /\
    outs = make_node_outputs fresh
             ((if String.prefix "int" dt then MeasurableMaxDiscrete else MeasurableMax)
                (range (ndim (type base_var))))
             base_var.
Proof.
  unfold find_measurable_max. split.
  - destruct (preserve_rv_mappings fgraph) as [feature|] eqn:Hfe; [|done].
    destruct (is_MeasurableMax (op node)) eqn:Hmm; [done|].
    destruct (inputs node !! 0%nat) as [base_var|] eqn:Hin; [|done].
    destruct (owner base_var) as [base_owner|] eqn:Hown; [|done].
    destruct (request_measurable feature (inputs node)) eqn:Hreq; [|done]. simpl.
    destruct (is_univariate_rv (op base_owner)) eqn:Huni; [|done]. simpl.
    destruct (some_param_not_scalar (inputs base_owner)) eqn:Hpar; [done|].
    destruct (is_Max (op node)) as [axis|] eqn:Hmax; [|done].
    destruct (bool_decide _) eqn:Hax; [done|].
    apply bool_decide_eq_false in Hax. apply dec_stable in Hax.
    destruct (op_dtype (op base_owner)) as [dt|] eqn:Hdt; [|done]. simpl.
    intros [= <-]. exists feature, axis, base_var, base_owner, dt.
    do 10 (split; [done|]).
    rewrite Hax, list_of_set_range. by destruct (String.prefix "int" dt).
  - intros (feature & axis & base_var & base_owner & dt & -> & -> & -> & -> & -> &
            -> & -> & -> & Hax & -> & ->). simpl.
    rewrite bool_decide_eq_false_2 by (intros H; by apply H).
    simpl. rewrite Hax, list_of_set_range. by destruct (String.prefix "int" dt).
Qed.

Lemma find_measurable_max_accepts_iff_witness :
  exists feature axis base_var base_owner dt,
    preserve_rv_mappings fgraph_granting = Some feature /\
    is_MeasurableMax (op max_x) = false /\
    is_Max (op max_x) = Some axis /\
    inputs max_x !! 0%nat = Some base_var /\
    owner base_var = Some base_owner /\
    request_measurable feature (inputs max_x) = true /\
    is_univariate_rv (op base_owner) = true /\
    some_param_not_scalar (inputs base_owner) = false /\
    (list_to_set axis : gset Z) = list_to_set (range (ndim (type base_var))) /\
    op_dtype (op base_owner) = Some dt /\
    [mkVar 9 float_scalar (Some (mkApply (MeasurableMax [0%Z]) [x_uniform]))] =
      make_node_outputs 9
        ((if String.prefix "int" dt then MeasurableMaxDiscrete else MeasurableMax)
           (range (ndim (type base_var))))
        base_var.
Proof.
  apply (proj1 (find_measurable_max_accepts_iff 9 fgraph_granting max_x _)).
  vm_compute. reflexivity.
Defined.

(** A reduction written with its axes out of order and repeated. *)
Example find_measurable_max_normalises_axes :
  let x2 := mkVar 7 (mkType "float64" 2)
              (Some (mkApply (RandomVariable "uniform" 0 "float64")
                       [rng; size3; dtype_in; zero; one])) in
  result (find_measurable_max 9 fgraph_granting (mkApply (Max [1; 0; 1]%Z) [x2]))
  = Return (Some [mkVar 9 float_scalar
                    (Some (mkApply (MeasurableMax [0; 1]%Z) [x2]))]).
Proof. vm_compute. reflexivity. Qed.

(** X18.  [find_measurable_max] asks the feature before it looks at the
    operand's operation: whenever the session has the feature, the node is
    not a [MeasurableMax] and its operand has an owner, the node's inputs
    have been requested, also when the node is then left alone; in every
    other case no request is made.  [find_measurable_max_neg] asks last:
    if it made a request, the request was for the negated variable alone
    and every test on it had passed. *)
Theorem recognisers_requests find_negated_var fresh fgraph node :
  (requests (find_measurable_max fresh fgraph node) = [inputs node] \/
   requests (find_measurable_max fresh fgraph node) = []) /\
  (requests (find_measurable_max fresh fgraph node) = [inputs node] <->
   exists feature base_var base_owner,
     preserve_rv_mappings fgraph = Some feature /\
     is_MeasurableMax (op node) = false /\
     inputs node !! 0%nat = Some base_var /\
     owner base_var = Some base_owner) /\
  (requests (find_measurable_max_neg find_negated_var fresh fgraph node) <> [] ->
   exists base_var base_rv rv_owner axis,
     inputs node !! 0%nat = Some base_var /\
     find_negated_var base_var = Some base_rv /\
     owner base_rv = Some rv_owner /\
     is_univariate_rv (op rv_owner) = true /\
     some_param_not_scalar (inputs rv_owner) = false /\
     is_Max (op node) = Some axis /\
     (list_to_set axis : gset Z) = list_to_set (range (ndim (type base_var))) /\
     requests (find_measurable_max_neg find_negated_var fresh fgraph node)
       = [[base_rv]]).
Proof.
  split; [|split].
  - unfold find_measurable_max.
    repeat (match goal with
            | |- context [match ?x with _ => _ end] => destruct x
            end; simpl; auto).
  - unfold find_measurable_max. split.
    + destruct (preserve_rv_mappings fgraph) as [feature|]; [|done].
      destruct (is_MeasurableMax (op node)); [done|].
      destruct (inputs node !! 0%nat) as [base_var|]; [|done].
      destruct (owner base_var) as [base_owner|] eqn:Hown; [|done].
      intros _. by exists feature, base_var, base_owner.
    + intros (feature & base_var & base_owner & -> & -> & -> & ->).
      repeat (match goal with
              | |- context [match ?x with _ => _ end] => destruct x
              end; simpl; auto).
  - unfold find_measurable_max_neg.
    destruct (preserve_rv_mappings fgraph) as [feature|]; [|done].
    destruct (is_MeasurableMaxNeg (op node)); [done|].
    destruct (inputs node !! 0%nat) as [base_var|]; [|done].
    destruct (negb _); [done|].
    destruct (find_negated_var base_var) as [base_rv|] eqn:Hneg; [|done].
    destruct (owner base_rv) as [rv_owner|] eqn:Hown; [|done].
    destruct (is_univariate_rv (op rv_owner)) eqn:Huni; [|done]. simpl.
    destruct (some_param_not_scalar (inputs rv_owner)) eqn:Hpar; [done|].
    destruct (is_Max (op node)) as [axis|]; [|done].
    destruct (bool_decide _) eqn:Hax; [done|].
    apply bool_decide_eq_false in Hax. apply dec_stable in Hax.
    intros _. exists base_var, base_rv, rv_owner, axis.
    do 7 (split; [done|]).
    destruct (request_measurable feature [base_rv]); simpl; [|done].
    by destruct (op_dtype (op rv_owner)).
Qed.

Lemma recognisers_requests_witness :
  exists base_var base_rv rv_owner axis,
    inputs max_neg_x !! 0%nat = Some base_var /\
    find_negated_var base_var = Some base_rv /\
    owner base_rv = Some rv_owner /\
    is_univariate_rv (op rv_owner) = true /\
    some_param_not_scalar (inputs rv_owner) = false /\
    is_Max (op max_neg_x) = Some axis /\
    (list_to_set axis : gset Z) = list_to_set (range (ndim (type base_var))) /\
    requests (find_measurable_max_neg find_negated_var 9 fgraph_granting max_neg_x)
      = [[base_rv]].
Proof.
  apply (proj2 (proj2 (recognisers_requests find_negated_var 9 fgraph_granting max_neg_x))).
  vm_compute. discriminate.
Defined.

(** The request of a node that is then left alone. *)
Example find_measurable_max_requests_then_rejects :
  find_measurable_max 9 fgraph_granting (mkApply (Max [0%Z]) [exp_x])
  = mkTraced [[exp_x]] (Return None).
Proof. vm_compute. reflexivity. Qed.

(** X19.  When the operand of the node is the output of an [Elemwise] and
    [find_negated_var] finds that it negates a variable without owner (a
    graph input or a constant), [find_measurable_max_neg] raises
    [AttributeError] on reading [base_rv.owner.op], before any request. *)
Theorem find_measurable_max_neg_ownerless find_negated_var fresh fgraph node
    feature base_var base_owner base_rv :
  preserve_rv_mappings fgraph = Some feature ->
  is_MeasurableMaxNeg (op node) = false ->
  inputs node !! 0%nat = Some base_var ->
  owner base_var = Some base_owner ->
  is_Elemwise (op base_owner) = true ->
  find_negated_var base_var = Some base_rv ->
  owner base_rv = None ->
  find_measurable_max_neg find_negated_var fresh fgraph node = raised [] AttributeError.
Proof.
  intros Hf Hm Hin Ho He Hn Hr. unfold find_measurable_max_neg.
  by rewrite Hf, Hm, Hin, Ho, He, Hn, Hr.
Qed.

Lemma find_measurable_max_neg_ownerless_witness :
  find_measurable_max_neg find_negated_var 9 fgraph_granting
    (mkApply (Max [0%Z])
       [mkVar 6 float_vector (Some (mkApply (Elemwise Mul) [minus_one; free_input]))])
  = raised [] AttributeError.
Proof.
  apply (find_measurable_max_neg_ownerless find_negated_var 9 fgraph_granting _
           (mkFeature (fun _ => true))
           (mkVar 6 float_vector (Some (mkApply (Elemwise Mul) [minus_one; free_input])))
           (mkApply (Elemwise Mul) [minus_one; free_input]) free_input);
    reflexivity.
Defined.

End RecogniserStatements.

(* ===================================================================== *)
(** * The density rules as densities of order statistics *)
(* ===================================================================== *)

Section OrderStatistics.
Import Graph Py XReal XRealOps Expr Order Support.
Local Open Scope R_scope.

Lemma pred_to_nat n : (1 <= n)%Z -> pred (Z.to_nat n) = Z.to_nat (n - 1).
Proof. intros Hn. lia. Qed.

Lemma derivable_pt_lim_pow_comp F x l N :
  derivable_pt_lim F x l ->
  derivable_pt_lim (fun t => F t ^ N) x (INR N * F x ^ pred N * l).
Proof.
  intros HF. apply (derivable_pt_lim_comp F (fun y => y ^ N)); [done|].
  apply derivable_pt_lim_pow.
Qed.

(** X20.  Let the base variable have the CDF [F] with derivative [f] at
    the observed value [x], both positive there, and let the two services
    return their logarithms.  Then the graph that [max_logprob] builds for
    [n] draws has a finite value, and its exponential is the derivative at
    [x] of [F^n], the CDF of the maximum of [n] independent draws. *)
Theorem max_logprob_is_density constant_fold_size op value base_rv n I F f x :
  constant_fold_size base_rv = Return n -> (1 <= n)%Z ->
  eval I value = Fin x ->
  derivable_pt_lim F x (f x) -> 0 < F x -> 0 < f x ->
  logcdf_of I base_rv (Fin x) = Fin (ln (F x)) ->
  logprob_of I base_rv (Fin x) = Fin (ln (f x)) ->
  exists e v,
    max_logprob constant_fold_size op [value] base_rv = Return e /\
    eval I e = Fin v /\
    derivable_pt_lim (fun t => F t ^ Z.to_nat n) x (exp v).
Proof.
  intros Hn Hn1 Hx HF HFx Hfx Hlc Hlp.
  eexists. exists (ln (IZR n) + IZR (n - 1) * ln (F x) + ln (f x)).
  split; [by apply max_logprob_graph|].
  assert (0 < IZR n) as Hnpos by (apply IZR_lt; lia).
  split.
  { rewrite max_logprob_eval. cbn zeta. rewrite Hx, Hlc, Hlp.
    rewrite xlog_pos by done. reflexivity. }
  apply (derivable_pt_lim_value _ _
           (INR (Z.to_nat n) * F x ^ pred (Z.to_nat n) * f x));
    [|by apply derivable_pt_lim_pow_comp].
  rewrite !exp_plus, !exp_ln by done.
  rewrite IZR_to_nat by lia. rewrite pred_to_nat by done.
  f_equal. f_equal.
  rewrite <- (IZR_to_nat (n - 1)) by lia.
  rewrite <- ln_pow by done. rewrite exp_ln; [done|by apply pow_lt].
Qed.

Lemma max_logprob_is_density_witness :
  exists e v,
    max_logprob Samples.fold_three (MeasurableMax [0%Z]) [Samples.x_max_value]
      Samples.x_uniform = Return e /\
    eval (mkInterp (fun _ _ => Fin (ln 1)) (fun _ _ => Fin (ln (1 / 2)))
            (fun _ => Fin (1 / 2))) e = Fin v /\
    derivable_pt_lim (fun t => (1 * t + 0) ^ Z.to_nat 3) (1 / 2) (exp v).
Proof.
  apply (max_logprob_is_density Samples.fold_three (MeasurableMax [0%Z])
           Samples.x_max_value Samples.x_uniform 3%Z
           (mkInterp (fun _ _ => Fin (ln 1)) (fun _ _ => Fin (ln (1 / 2)))
              (fun _ => Fin (1 / 2)))
           (fun t => 1 * t + 0) (fun _ => 1) (1 / 2)).
  - reflexivity.
  - lia.
  - reflexivity.
  - apply derivable_pt_lim_affine.
  - lra.
  - lra.
  - cbn [logcdf_of]. do 2 f_equal. lra.
  - reflexivity.
Defined.

(** X21.  Let the base variable have the CDF [F] with derivative [f] at
    [- x], with [0 < F (- x) < 1] and [f (- x) > 0], and let the two
    services return their logarithms at the negated value.  Then the graph
    that [max_neg_logprob] builds for [n] draws has a finite value, and its
    exponential is the derivative at [x] of [(1 - F (- t))^n], the CDF of
    the maximum of the [n] negated draws. *)
Theorem max_neg_logprob_is_density constant_fold_size op value base_rv n I F f x :
  constant_fold_size base_rv = Return n -> (1 <= n)%Z ->
  eval I value = Fin x ->
  derivable_pt_lim F (- x) (f (- x)) -> 0 < F (- x) < 1 -> 0 < f (- x) ->
  logcdf_of I base_rv (Fin (- x)) = Fin (ln (F (- x))) ->
  logprob_of I base_rv (Fin (- x)) = Fin (ln (f (- x))) ->
  exists e v,
    max_neg_logprob constant_fold_size op [value] base_rv = Return e /\
    eval I e = Fin v /\
    derivable_pt_lim (fun t => (1 - F (- t)) ^ Z.to_nat n) x (exp v).
Proof.
  intros Hn Hn1 Hx HF HFx Hfx Hlc Hlp.
  eexists. exists (ln (IZR n) + IZR (n - 1) * ln (1 - F (- x)) + ln (f (- x))).
  assert (0 < IZR n) as Hnpos by (apply IZR_lt; lia).
  split; [unfold max_neg_logprob; rewrite Hn; reflexivity|].
  split.
  { cbn [eval EInt _logcdf_helper _logprob_helper]. rewrite Hx. cbn [xneg].
    rewrite Hlc, Hlp. cbn [xexp xsub xneg xadd]. rewrite exp_ln by lra.
    rewrite !xlog_pos by lra. cbn [xmul xadd]. f_equal.
    unfold Rminus. lra. }
  set (S1 := fun t => 1 - F (- t)).
  assert (derivable_pt_lim S1 x (f (- x))) as HS.
  { unfold S1.
    apply (derivable_pt_lim_value _ _ (0 - f (- x) * - 1)); [ring|].
    apply (derivable_pt_lim_minus (fun _ => 1) (fun t => F (- t))).
    - apply (derivable_pt_lim_const 1).
    - apply (derivable_pt_lim_comp (fun t => - t) F).
      + apply (derivable_pt_lim_value _ _ (- (1))); [ring|].
        apply (derivable_pt_lim_opp id), derivable_pt_lim_id.
      + done. }
  apply (derivable_pt_lim_value _ _
           (INR (Z.to_nat n) * S1 x ^ pred (Z.to_nat n) * f (- x)));
    [|by apply (derivable_pt_lim_pow_comp S1)].
  unfold S1. rewrite !exp_plus, !exp_ln by lra.
  rewrite IZR_to_nat by lia. rewrite pred_to_nat by done.
  f_equal. f_equal.
  rewrite <- (IZR_to_nat (n - 1)) by lia.
  rewrite <- ln_pow by lra. rewrite exp_ln; [done|apply pow_lt; lra].
Qed.

(** X22.  Where the base log-CDF is [-inf] and so is the base log-density
    (a value below the support), the graph of [max_logprob], evaluated as
    it is built, gives [-inf] for two draws or more, but [nan] for a
    single draw, through the product [0 * -inf]; for a single draw it
    gives the base log-density wherever the base log-CDF is finite. *)
Theorem max_logprob_single_draw constant_fold_size op value base_rv n I :
  constant_fold_size base_rv = Return n ->
  exists e,
    max_logprob constant_fold_size op [value] base_rv = Return e /\
    let x := eval I value in
    (n = 1%Z -> forall a, logcdf_of I base_rv x = Fin a ->
       eval I e = logprob_of I base_rv x) /\
    (n = 1%Z -> logcdf_of I base_rv x = NInf -> eval I e = NaN) /\
    ((2 <= n)%Z -> logcdf_of I base_rv x = NInf -> logprob_of I base_rv x = NInf ->
       eval I e = NInf).
Proof.
  intros Hn. eexists. split; [by apply max_logprob_graph|].
  cbn zeta. rewrite max_logprob_eval. cbn zeta.
  split; [|split].
  - intros -> a ->. rewrite xlog_pos by lra. cbn [xmul xadd].
    destruct (logprob_of I base_rv (eval I value)); cbn [xadd]; try reflexivity.
    f_equal. rewrite ln_1. change (IZR (1 - 1)) with 0. lra.
  - intros -> ->. rewrite xlog_pos by lra. cbn [xmul]. unfold xscale_inf.
    change (IZR (1 - 1)) with 0.
    destruct (Rlt_dec 0 0); [lra|]. reflexivity.
  - intros Hn2 -> ->.
    assert (0 < IZR n) as Hpos by (apply IZR_lt; lia).
    rewrite xlog_pos by done. rewrite xmul_pos_NInf by (apply IZR_lt; lia).
    reflexivity.
Qed.

Lemma max_logprob_single_draw_witness :
  exists e,
    max_logprob (fun _ => Return 1%Z) (MeasurableMax [0%Z]) [Samples.x_max_value]
      Samples.x_uniform = Return e /\
    let x := eval (Distributions.uniform01 (Fin (- 1))) Samples.x_max_value in
    (1%Z = 1%Z -> forall a,
       logcdf_of (Distributions.uniform01 (Fin (- 1))) Samples.x_uniform x = Fin a ->
       eval (Distributions.uniform01 (Fin (- 1))) e
       = logprob_of (Distributions.uniform01 (Fin (- 1))) Samples.x_uniform x) /\
    (1%Z = 1%Z ->
     logcdf_of (Distributions.uniform01 (Fin (- 1))) Samples.x_uniform x = NInf ->
     eval (Distributions.uniform01 (Fin (- 1))) e = NaN) /\
    ((2 <= 1)%Z ->
     logcdf_of (Distributions.uniform01 (Fin (- 1))) Samples.x_uniform x = NInf ->
     logprob_of (Distributions.uniform01 (Fin (- 1))) Samples.x_uniform x = NInf ->
     eval (Distributions.uniform01 (Fin (- 1))) e = NInf).
Proof.
  apply (max_logprob_single_draw (fun _ => Return 1%Z) (MeasurableMax [0%Z])
           Samples.x_max_value Samples.x_uniform 1%Z
           (Distributions.uniform01 (Fin (- 1)))).
  reflexivity.
Defined.

End OrderStatistics.

Section DiscreteTotals.
Import Graph Py XReal XRealOps Expr Order Support.
Local Open Scope R_scope.

(** A sum of successive differences. *)
Lemma total_telescopes (G : Z -> R) (term : Z -> xreal) len : forall first,
  (forall k, (first <= k < first + Z.of_nat len)%Z ->
     term k = Fin (G k - G (k - 1)%Z)) ->
  foldr xadd (Fin 0) (map term (zrange_from first len))
  = Fin (G (first + Z.of_nat len - 1)%Z - G (first - 1)%Z).
Proof.
  induction len as [|len IH]; intros first Hterm.
  - cbn [zrange_from map foldr]. f_equal.
    replace (first + Z.of_nat 0 - 1)%Z with (first - 1)%Z by lia. lra.
  - cbn [zrange_from map foldr]. rewrite (IH (first + 1)%Z).
    + rewrite Hterm by lia. cbn [xadd]. f_equal.
      replace (first + 1 + Z.of_nat len - 1)%Z with (first + Z.of_nat (S len) - 1)%Z by lia.
      replace (first + 1 - 1)%Z with first by lia. lra.
    + intros k Hk. apply Hterm. lia.
Qed.

Lemma at_integer_value lp lc k name : eval (at_integer lp lc k) (EValue name) = Fin (IZR k).
Proof. reflexivity. Qed.

(** The value of the discrete-min graph for a CDF with values in
    [[0, 1]]. *)
Lemma discrete_max_neg_logprob_eval I base_rv value n F Fp :
  (1 <= n)%Z ->
  logcdf_of I base_rv (xneg (eval I value)) = xlog (Fin F) ->
  logcdf_of I base_rv (xneg (xadd (eval I value) (Fin 1))) = xlog (Fin Fp) ->
  0 <= F <= 1 -> 0 <= Fp <= 1 ->
  eval I
    (let logcdf := ELog1mexp (_logcdf_helper base_rv (ENeg value)) in
     let logcdf_prev :=
       ELog1mexp (_logcdf_helper base_rv (ENeg (EAdd value (EInt 1)))) in
     EWhere (BAnd (BEq logcdf (EConst NInf)) (BEq logcdf_prev (EConst NInf)))
       (EConst NInf)
       (logdiffexp (EMul (EInt n) logcdf_prev) (EMul (EInt n) logcdf)))
  = xlog (Fin ((1 - Fp) ^ Z.to_nat n - (1 - F) ^ Z.to_nat n)).
Proof.
  intros Hn HF HFp [HF0 HF1] [HFp0 HFp1].
  cbn zeta. unfold logdiffexp, _logcdf_helper, EInt. cbn [eval beval].
  rewrite HF, HFp, !xlog1mexp_xlog by done.
  destruct (Req_dec_T (1 - F) 0) as [EF|NF];
    [destruct (Req_dec_T (1 - Fp) 0) as [EFp|NFp]|].
  - rewrite EF, EFp, xlog_zero. cbn [xeqb andb].
    rewrite pow_zero_to_nat by done. rewrite Rminus_diag. by rewrite xlog_zero.
  - rewrite EF, xlog_zero. cbn [xeqb].
    rewrite (xlog_pos (1 - Fp)) by lra. cbn [xeqb andb].
    rewrite <- (xlog_pos (1 - Fp)) by lra. rewrite <- xlog_zero.
    apply xlogdiffexp_pow; [done|lra|lra|]. intros [H _]. lra.
  - assert (xeqb (xlog (Fin (1 - F))) NInf = false) as ->.
    { rewrite xlog_pos by lra. reflexivity. }
    cbn [andb]. apply xlogdiffexp_pow; [done|lra|lra|]. intros [_ H]. lra.
Qed.

(** X23.  Let the base variable be integer-valued with the nondecreasing
    CDF [F], zero just below [lo], positive from [lo] on and one at [hi],
    and let the log-CDF service return its logarithm.  Then the graph that
    [max_logprob_discrete] builds for [n] draws evaluates at each integer
    [k] of [lo .. hi] to [log (F k ^ n - F (k - 1) ^ n)], and the
    probabilities [exp] of it add up to one over [lo .. hi]. *)
Theorem max_logprob_discrete_total constant_fold_size op base_rv name n lp lc F lo hi :
  constant_fold_size base_rv = Return n -> (1 <= n)%Z ->
  (lo <= hi)%Z ->
  (forall k, lc base_rv (Fin (IZR k)) = xlog (Fin (F k))) ->
  F (lo - 1)%Z = 0 -> F hi = 1 ->
  (forall k, (lo <= k)%Z -> 0 < F k) ->
  (forall k, F (k - 1)%Z <= F k) ->
  exists e,
    max_logprob_discrete constant_fold_size op [EValue name] base_rv = Return e /\
    (forall k, (lo <= k <= hi)%Z ->
       eval (at_integer lp lc k) e
       = xlog (Fin (F k ^ Z.to_nat n - F (k - 1)%Z ^ Z.to_nat n))) /\
    total_mass lp lc e (zrange lo hi) = Fin 1.
Proof.
  intros Hn Hn1 Hlohi Hlc Hlo Hhi Hpos Hmono.
  eexists. split; [by apply max_logprob_discrete_graph|].
  assert (forall k, (lo <= k)%Z -> 0 <= F (k - 1)%Z) as Hprev.
  { intros k Hk. destruct (Z.eq_dec k lo) as [->|Hne]; [lra|].
    left. apply Hpos. lia. }
  assert (forall k, (lo <= k <= hi)%Z ->
            eval (at_integer lp lc k)
              (logdiffexp (EMul (EInt n) (_logcdf_helper base_rv (EValue name)))
                 (EMul (EInt n)
                    (_logcdf_helper base_rv (ESub (EValue name) (EInt 1)))))
            = xlog (Fin (F k ^ Z.to_nat n - F (k - 1)%Z ^ Z.to_nat n))) as Hval.
  { intros k Hk. apply max_logprob_discrete_eval.
    - done.
    - rewrite at_integer_value. apply Hlc.
    - rewrite at_integer_value. cbn [xsub xneg xadd logcdf_of at_integer].
      replace (IZR k + - (1)) with (IZR (k - 1)) by (rewrite minus_IZR; lra).
      apply Hlc.
    - apply Hpos. lia.
    - apply Hprev. lia. }
  split; [exact Hval|].
  unfold total_mass, zrange.
  rewrite (total_telescopes (fun k => F k ^ Z.to_nat n)).
  - rewrite Z2Nat.id by lia.
    replace (lo + (hi - lo + 1) - 1)%Z with hi by lia.
    rewrite Hhi, Hlo, pow1, pow_zero_to_nat by done. f_equal. lra.
  - intros k Hk. rewrite Z2Nat.id in Hk by lia. rewrite Hval by lia.
    apply xexp_xlog.
    assert (F (k - 1)%Z ^ Z.to_nat n <= F k ^ Z.to_nat n); [|lra].
    apply pow_incr. split; [apply Hprev; lia|apply Hmono].
Qed.

(** X24.  Under the same assumptions on the base variable, with [F]
    between zero and one, the graph that [discrete_max_neg_logprob] builds
    for [n] draws evaluates at each integer [v] of [- hi .. - lo] to
    [log ((1 - F (- v - 1)) ^ n - (1 - F (- v)) ^ n)], and the probabilities
    [exp] of it add up to one over [- hi .. - lo], the values of the
    maximum of the negated draws. *)
Theorem discrete_max_neg_logprob_total constant_fold_size op base_rv name n lp lc F lo hi :
  constant_fold_size base_rv = Return n -> (1 <= n)%Z ->
  (lo <= hi)%Z ->
  (forall k, lc base_rv (Fin (IZR k)) = xlog (Fin (F k))) ->
  F (lo - 1)%Z = 0 -> F hi = 1 ->
  (forall k, 0 <= F k <= 1) ->
  (forall k, F (k - 1)%Z <= F k) ->
  exists e,
    discrete_max_neg_logprob constant_fold_size op [EValue name] base_rv = Return e /\
    (forall v, (- hi <= v <= - lo)%Z ->
       eval (at_integer lp lc v) e
       = xlog (Fin ((1 - F (- v - 1)%Z) ^ Z.to_nat n - (1 - F (- v)%Z) ^ Z.to_nat n))) /\
    total_mass lp lc e (zrange (- hi) (- lo)) = Fin 1.
Proof.
  intros Hn Hn1 Hlohi Hlc Hlo Hhi Hunit Hmono.
  eexists. split; [by apply discrete_max_neg_logprob_graph|].
  assert (forall v,
            eval (at_integer lp lc v)
              (let logcdf := ELog1mexp (_logcdf_helper base_rv (ENeg (EValue name))) in
               let logcdf_prev :=
                 ELog1mexp
                   (_logcdf_helper base_rv (ENeg (EAdd (EValue name) (EInt 1)))) in
               EWhere (BAnd (BEq logcdf (EConst NInf)) (BEq logcdf_prev (EConst NInf)))
                 (EConst NInf)
                 (logdiffexp (EMul (EInt n) logcdf_prev) (EMul (EInt n) logcdf)))
            = xlog (Fin ((1 - F (- v - 1)%Z) ^ Z.to_nat n
                         - (1 - F (- v)%Z) ^ Z.to_nat n))) as Hval.
  { intros v. apply discrete_max_neg_logprob_eval.
    - done.
    - rewrite at_integer_value. cbn [xneg logcdf_of at_integer].
      rewrite <- opp_IZR. apply Hlc.
    - rewrite at_integer_value. cbn [xneg xadd logcdf_of at_integer].
      replace (- (IZR v + 1)) with (IZR (- v - 1)) by (rewrite minus_IZR, opp_IZR; lra).
      apply Hlc.
    - apply Hunit.
    - apply Hunit. }
  split; [intros v _; apply Hval|].
  unfold total_mass, zrange.
  rewrite (total_telescopes (fun v => (1 - F (- v - 1)%Z) ^ Z.to_nat n)).
  - rewrite Z2Nat.id by lia.
    replace (- (- hi + (- lo - - hi + 1) - 1) - 1)%Z with (lo - 1)%Z by lia.
    replace (- (- hi - 1) - 1)%Z with hi by lia.
    rewrite Hhi, Hlo, Rminus_0_r, pow1, Rminus_diag, pow_zero_to_nat by done.
    f_equal. lra.
  - intros v Hv. rewrite Hval.
    replace (- (v - 1) - 1)%Z with (- v)%Z by lia.
    apply xexp_xlog.
    assert ((1 - F (- v)%Z) ^ Z.to_nat n <= (1 - F (- v - 1)%Z) ^ Z.to_nat n); [|lra].
    apply pow_incr. pose proof (Hunit (- v)%Z). pose proof (Hmono (- v)%Z). lra.
Qed.

End DiscreteTotals.

Section OrderStatisticsSamples.
Import Graph Py XReal XRealOps Expr Order Distributions Support Samples.
Local Open Scope R_scope.

Lemma uniform04_cdf_logcdf k :
  discrete_uniform_logcdf 0 4 (Fin (IZR k)) = xlog (Fin (uniform04_cdf k)).
Proof.
  unfold uniform04_cdf.
  destruct (Z.ltb_spec k 0) as [Hneg|Hk0].
  - apply IZR_lt in Hneg. unfold discrete_uniform_logcdf. cases_R.
    by rewrite xlog_zero.
  - destruct (Z.leb_spec 4 k) as [Hk4|Hk4].
    + apply IZR_le in Hk0, Hk4. unfold discrete_uniform_logcdf. cases_R.
      rewrite xlog_pos by lra. by rewrite ln_1.
    + rewrite discrete_uniform04_logcdf by lia. by rewrite plus_IZR.
Qed.

Lemma uniform04_cdf_pos k : (0 <= k)%Z -> 0 < uniform04_cdf k.
Proof.
  intros Hk. unfold uniform04_cdf.
  destruct (Z.ltb_spec k 0); [lia|]. destruct (Z.leb_spec 4 k); [lra|].
  apply IZR_le in Hk. lra.
Qed.

Lemma uniform04_cdf_unit k : 0 <= uniform04_cdf k <= 1.
Proof.
  unfold uniform04_cdf.
  destruct (Z.ltb_spec k 0) as [|Hk0]; [lra|].
  destruct (Z.leb_spec 4 k) as [|Hk4]; [lra|].
  apply IZR_le in Hk0. assert (k <= 3)%Z as Hk3 by lia. apply IZR_le in Hk3. lra.
Qed.

Lemma uniform04_cdf_mono k : uniform04_cdf (k - 1) <= uniform04_cdf k.
Proof.
  unfold uniform04_cdf.
  destruct (Z.ltb_spec (k - 1) 0) as [Hp|Hp], (Z.ltb_spec k 0) as [Hk|Hk]; try lia;
    destruct (Z.leb_spec 4 (k - 1)) as [Hp4|Hp4], (Z.leb_spec 4 k) as [Hk4|Hk4];
    try lia; try lra.
  - apply IZR_le in Hk. lra.
  - assert (k <= 4)%Z as Hle by lia. apply IZR_le in Hle.
    rewrite minus_IZR. lra.
  - rewrite minus_IZR. lra.
Qed.

Lemma max_logprob_discrete_total_witness :
  exists e,
    max_logprob_discrete fold_three (MeasurableMaxDiscrete [0%Z]) [EValue "k"] x_discrete
      = Return e /\
    (forall k, (0 <= k <= 4)%Z ->
       eval (at_integer (fun _ => discrete_uniform_logp 0 4)
               (fun _ => discrete_uniform_logcdf 0 4) k) e
       = xlog (Fin (uniform04_cdf k ^ Z.to_nat 3
                    - uniform04_cdf (k - 1)%Z ^ Z.to_nat 3))) /\
    total_mass (fun _ => discrete_uniform_logp 0 4)
      (fun _ => discrete_uniform_logcdf 0 4) e (zrange 0 4) = Fin 1.
Proof.
  apply (max_logprob_discrete_total fold_three (MeasurableMaxDiscrete [0%Z]) x_discrete
           "k" 3%Z (fun _ => discrete_uniform_logp 0 4)
           (fun _ => discrete_uniform_logcdf 0 4) uniform04_cdf 0%Z 4%Z).
  - reflexivity.
  - lia.
  - lia.
  - intros k. apply uniform04_cdf_logcdf.
  - reflexivity.
  - reflexivity.
  - apply uniform04_cdf_pos.
  - apply uniform04_cdf_mono.
Defined.

Lemma discrete_max_neg_logprob_total_witness :
  exists e,
    discrete_max_neg_logprob fold_three (MeasurableDiscreteMaxNeg [0%Z]) [EValue "k"]
      x_discrete = Return e /\
    (forall v, (- 4 <= v <= - 0)%Z ->
       eval (at_integer (fun _ => discrete_uniform_logp 0 4)
               (fun _ => discrete_uniform_logcdf 0 4) v) e
       = xlog (Fin ((1 - uniform04_cdf (- v - 1)%Z) ^ Z.to_nat 3
                    - (1 - uniform04_cdf (- v)%Z) ^ Z.to_nat 3))) /\
    total_mass (fun _ => discrete_uniform_logp 0 4)
      (fun _ => discrete_uniform_logcdf 0 4) e (zrange (- 4) (- 0)) = Fin 1.
Proof.
  apply (discrete_max_neg_logprob_total fold_three (MeasurableDiscreteMaxNeg [0%Z])
           x_discrete "k" 3%Z (fun _ => discrete_uniform_logp 0 4)
           (fun _ => discrete_uniform_logcdf 0 4) uniform04_cdf 0%Z 4%Z).
  - reflexivity.
  - lia.
  - lia.
  - intros k. apply uniform04_cdf_logcdf.
  - reflexivity.
  - reflexivity.
  - apply uniform04_cdf_unit.
  - apply uniform04_cdf_mono.
Defined.

Lemma max_neg_logprob_is_density_witness :
  exists e v,
    max_neg_logprob fold_three (MeasurableMaxNeg [0%Z]) [x_max_value] x_uniform
      = Return e /\
    eval (mkInterp (fun _ _ => Fin (ln 1)) (fun _ _ => Fin (ln (1 / 2)))
            (fun _ => Fin (- (1 / 2)))) e = Fin v /\
    derivable_pt_lim (fun t => (1 - (1 * - t + 0)) ^ Z.to_nat 3) (- (1 / 2)) (exp v).
Proof.
  apply (max_neg_logprob_is_density fold_three (MeasurableMaxNeg [0%Z])
           x_max_value x_uniform 3%Z
           (mkInterp (fun _ _ => Fin (ln 1)) (fun _ _ => Fin (ln (1 / 2)))
              (fun _ => Fin (- (1 / 2))))
           (fun t => 1 * t + 0) (fun _ => 1) (- (1 / 2))).
  - reflexivity.
  - lia.
  - reflexivity.
  - apply derivable_pt_lim_affine.
  - lra.
  - lra.
  - cbn [logcdf_of]. do 2 f_equal. lra.
  - reflexivity.
Defined.

End OrderStatisticsSamples.

(* ===================================================================== *)
(** * Log-determinants of the elementwise transforms *)
(* ===================================================================== *)

Section ElementwiseJacobians.
Import Py Tensor Transforms TransformLaws.
Local Open Scope R_scope.

Lemma tmap_ext (f g : R -> R) t : (forall x, f x = g x) -> tmap f t = tmap g t.
Proof.
  intros Hfg. destruct t as [x|v|m]; cbn [tmap]; f_equal.
  - apply Hfg.
  - by apply map_ext.
  - apply map_ext. intros r. by apply map_ext.
Qed.

Lemma tmap_id t : tmap (fun x => x) t = t.
Proof.
  destruct t as [x|v|m]; cbn [tmap]; f_equal.
  - apply map_id.
  - rewrite <- (map_id m) at 2. apply map_ext. intros r. apply map_id.
Qed.

Lemma tmap_T0_inj (f g : R -> R) :
  (forall t, Return (tmap f t) = Return (tmap g t)) -> forall x, f x = g x.
Proof. intros H x. specialize (H (T0 x)). by injection H. Qed.

Lemma sigmoid_pos y : 0 < sigmoid y.
Proof.
  unfold sigmoid. pose proof (exp_pos (- y)).
  apply Rdiv_lt_0_compat; lra.
Qed.

Lemma softplus_shift y : softplus y = y + softplus (- y).
Proof.
  unfold softplus. pose proof (exp_pos y) as He. pose proof (exp_pos (- y)) as Hn.
  rewrite <- (ln_exp y) at 2. rewrite <- ln_mult by lra. f_equal.
  rewrite Rmult_plus_distr_l, <- exp_plus. replace (y + - y) with 0 by lra.
  rewrite exp_0. lra.
Qed.

Lemma ln_sigmoid y : ln (sigmoid y) = - softplus (- y).
Proof.
  unfold sigmoid, softplus. pose proof (exp_pos (- y)).
  unfold Rdiv. rewrite Rmult_1_l, ln_Rinv by lra. reflexivity.
Qed.

(** The derivative of the sigmoid. *)
Lemma derivable_pt_lim_sigmoid y :
  derivable_pt_lim sigmoid y (sigmoid y * (1 - sigmoid y)).
Proof.
  pose proof (exp_pos (- y)) as He.
  apply (derivable_pt_lim_ext (fun t => 1 / (1 + 1 * exp (- 1 * t + 0)))).
  { intros z. unfold sigmoid. do 3 f_equal. rewrite Rmult_1_l. f_equal. ring. }
  apply (derivable_pt_lim_value _ _
           ((0 * (1 + 1 * exp (- 1 * y + 0))
             - 1 * (- 1 * exp (- 1 * y + 0)) * 1)
            / Rsqr (1 + 1 * exp (- 1 * y + 0)))).
  { unfold sigmoid, Rsqr. replace (- 1 * y + 0) with (- y) by ring. field. lra. }
  apply (derivable_pt_lim_div (fun _ => 1) (fun t => 1 + 1 * exp (- 1 * t + 0))).
  - apply (derivable_pt_lim_const 1).
  - apply (derivable_pt_lim_exp_shape 1 1 (- 1) 0 y).
  - replace (- 1 * y + 0) with (- y) by ring. lra.
Qed.

Lemma derivable_pt_lim_softplus y : derivable_pt_lim softplus y (sigmoid y).
Proof.
  pose proof (exp_pos y) as He. pose proof (exp_pos (- y)) as Hn.
  apply (derivable_pt_lim_value _ _ (/ (1 + 1 * exp (1 * y + 0)) * (1 * (1 * exp (1 * y + 0))))).
  { unfold sigmoid. replace (1 * y + 0) with y by ring.
    assert (exp (- y) = / exp y) as -> by apply exp_Ropp.
    field. split; [lra|].
    assert (0 < / exp y) by (by apply Rinv_0_lt_compat).
    replace (exp y + 1) with (exp y * (1 + / exp y)) by (field; lra). nra. }
  apply (derivable_pt_lim_ext (fun t => ln (1 + 1 * exp (1 * t + 0)))).
  { intros z. unfold softplus. do 2 f_equal. rewrite Rmult_1_l. f_equal. ring. }
  apply (derivable_pt_lim_comp (fun t => 1 + 1 * exp (1 * t + 0)) ln).
  - apply derivable_pt_lim_exp_shape.
  - apply derivable_pt_lim_ln. replace (1 * y + 0) with y by ring. lra.
Qed.

Lemma invlogit_sigmoid y : invlogit y 0 = sigmoid y.
Proof. unfold invlogit, sigmoid. field. pose proof (exp_pos (- y)). lra. Qed.

(** The derivative that [LogOdds] hands to
    [ElemwiseTransform_jacobian_det] is the derivative of its [backward]. *)
Lemma LogOdds_jacobian rv_var :
  elementwise_jacobian LogOdds rv_var
    (fun y => invlogit y 0) (fun y => invlogit y 0 * (1 - invlogit y 0)).
Proof.
  split; [done|]. split; [|done].
  intros y. apply (derivable_pt_lim_ext sigmoid).
  { intros z. by rewrite invlogit_sigmoid. }
  rewrite invlogit_sigmoid. apply derivable_pt_lim_sigmoid.
Qed.

(** X25.  [Log] and [LogExpM1] override the [jacobian_det] of
    [ElemwiseTransform] with a formula of their own, and the formula is
    what the inherited method computes: at every entry [y], the logarithm
    of the absolute derivative of [backward] at [y].  The backward maps are
    [exp] and [softplus], with the derivatives [exp] and the sigmoid. *)
Theorem elementwise_jacobians rv_var :
  (elementwise_jacobian Log rv_var exp exp /\
   forall t, jacobian_det Log rv_var t = ElemwiseTransform_jacobian_det exp rv_var t) /\
  (elementwise_jacobian LogExpM1 rv_var softplus sigmoid /\
   forall t, jacobian_det LogExpM1 rv_var t
             = ElemwiseTransform_jacobian_det sigmoid rv_var t).
Proof.
  assert (elementwise_jacobian Log rv_var exp exp) as HLog.
  { split; [done|]. split; [apply derivable_pt_lim_exp|].
    intros t. cbn [jacobian_det Log]. unfold Log_jacobian_det. f_equal.
    rewrite <- (tmap_id t) at 1.
    apply tmap_ext. intros y. pose proof (exp_pos y).
    rewrite Rabs_right by lra. by rewrite ln_exp. }
  assert (elementwise_jacobian LogExpM1 rv_var softplus sigmoid) as HLogExpM1.
  { split; [done|]. split; [apply derivable_pt_lim_softplus|].
    intros t. cbn [jacobian_det LogExpM1]. unfold LogExpM1_jacobian_det. f_equal.
    apply tmap_ext. intros y.
    pose proof (sigmoid_pos y). rewrite Rabs_right by lra.
    by rewrite ln_sigmoid. }
  split; (split; [done|]); intros t.
  - by destruct HLog as (_ & _ & ->).
  - by destruct HLogExpM1 as (_ & _ & ->).
Qed.

End ElementwiseJacobians.

Section IntervalJacobian.
Import Py Tensor Transforms TransformLaws.
Local Open Scope R_scope.

Lemma ln_one_minus_sigmoid y : ln (1 - sigmoid y) = - y - softplus (- y).
Proof.
  unfold sigmoid, softplus. pose proof (exp_pos (- y)) as He.
  replace (1 - 1 / (1 + exp (- y))) with (exp (- y) * / (1 + exp (- y))) by (field; lra).
  rewrite ln_mult, ln_exp, ln_Rinv; try lra.
  apply Rinv_0_lt_compat. lra.
Qed.

(** X26.  [Interval.jacobian_det] is the logarithm of the absolute
    derivative of [Interval.backward] at every entry when the interval has
    both bounds [a < b], only a lower bound, or only an upper bound.  With
    neither bound [backward] is the identity, whose derivative is one, but
    [jacobian_det] returns the value itself and not zero: there it is not
    the log-derivative of [backward]. *)
Theorem Interval_jacobian fn rv_var :
  (forall a b, fn rv_var = (Some a, Some b) -> a < b ->
     elementwise_jacobian (Interval fn) rv_var
       (fun y => sigmoid y * b + (1 - sigmoid y) * a)
       (fun y => (b - a) * (sigmoid y * (1 - sigmoid y)))) /\
  (forall a, fn rv_var = (Some a, None) ->
     elementwise_jacobian (Interval fn) rv_var (fun y => exp y + a) exp) /\
  (forall b, fn rv_var = (None, Some b) ->
     elementwise_jacobian (Interval fn) rv_var (fun y => b - exp y) (fun y => - exp y)) /\
  (fn rv_var = (None, None) ->
     (forall t, backward (Interval fn) rv_var t = Return t) /\
     (forall t, jacobian_det (Interval fn) rv_var t = Return t) /\
     (forall b db, ~ elementwise_jacobian (Interval fn) rv_var b db)).
Proof.
  split; [|split; [|split]].
  - intros a b Hfn Hab. split; [|split].
    + intros t. cbn [backward Interval]. unfold Interval_backward. by rewrite Hfn.
    + intros y.
      apply (derivable_pt_lim_ext (fun t => a + (b - a) * sigmoid t)).
      { intros z. ring. }
      apply (derivable_pt_lim_value _ _ (0 + (b - a) * (sigmoid y * (1 - sigmoid y))));
        [ring|].
      apply (derivable_pt_lim_plus (fun _ => a) (fun t => (b - a) * sigmoid t)).
      * apply (derivable_pt_lim_const a).
      * apply (derivable_pt_lim_scal sigmoid (b - a) y), derivable_pt_lim_sigmoid.
    + intros t. cbn [jacobian_det Interval]. unfold Interval_jacobian_det.
      rewrite Hfn. f_equal. apply tmap_ext. intros y. cbn zeta.
      pose proof (sigmoid_unit y) as [Hs0 Hs1].
      rewrite Rabs_right.
      * rewrite !ln_mult; try lra; [|apply Rmult_lt_0_compat; lra].
        rewrite ln_sigmoid, ln_one_minus_sigmoid. lra.
      * apply Rle_ge. apply Rmult_le_pos; [lra|]. apply Rmult_le_pos; lra.
  - intros a Hfn. split; [|split].
    + intros t. cbn [backward Interval]. unfold Interval_backward. by rewrite Hfn.
    + intros y. apply (derivable_pt_lim_ext (fun t => a + 1 * exp (1 * t + 0))).
      { intros z. replace (1 * z + 0) with z by ring. ring. }
      apply (derivable_pt_lim_value _ _ (1 * (1 * exp (1 * y + 0))));
        [replace (1 * y + 0) with y by ring; ring|].
      apply derivable_pt_lim_exp_shape.
    + intros t. cbn [jacobian_det Interval]. unfold Interval_jacobian_det.
      rewrite Hfn. f_equal. rewrite <- (tmap_id t) at 1. apply tmap_ext. intros y.
      pose proof (exp_pos y). rewrite Rabs_right by lra. by rewrite ln_exp.
  - intros b Hfn. split; [|split].
    + intros t. cbn [backward Interval]. unfold Interval_backward. by rewrite Hfn.
    + intros y. apply (derivable_pt_lim_ext (fun t => b + - 1 * exp (1 * t + 0))).
      { intros z. replace (1 * z + 0) with z by ring. ring. }
      apply (derivable_pt_lim_value _ _ (- 1 * (1 * exp (1 * y + 0))));
        [replace (1 * y + 0) with y by ring; ring|].
      apply derivable_pt_lim_exp_shape.
    + intros t. cbn [jacobian_det Interval]. unfold Interval_jacobian_det.
      rewrite Hfn. f_equal. rewrite <- (tmap_id t) at 1. apply tmap_ext. intros y.
      pose proof (exp_pos y). rewrite Rabs_left by lra.
      rewrite Ropp_involutive. by rewrite ln_exp.
  - intros Hfn.
    assert (forall t, backward (Interval fn) rv_var t = Return t) as Hback.
    { intros t. cbn [backward Interval]. unfold Interval_backward. by rewrite Hfn. }
    assert (forall t, jacobian_det (Interval fn) rv_var t = Return t) as Hjac.
    { intros t. cbn [jacobian_det Interval]. unfold Interval_jacobian_det.
      by rewrite Hfn. }
    split; [done|]. split; [done|].
    intros b db (Hb & Hd & Hj).
    assert (forall y, b y = y) as Hid.
    { intros y. specialize (Hb (T0 y)). rewrite Hback in Hb. by injection Hb. }
    assert (db 1 = 1) as Hdb.
    { apply (uniqueness_limite b 1); [apply Hd|].
      apply (derivable_pt_lim_ext (fun t => 1 * t + 0)).
      - intros z. rewrite Hid. ring.
      - apply derivable_pt_lim_affine. }
    specialize (Hj (T0 1)). rewrite Hjac in Hj. injection Hj as Hj.
    rewrite Hdb, Rabs_R1, ln_1 in Hj. lra.
Qed.

Lemma Interval_jacobian_witness :
  elementwise_jacobian (Interval Samples.unit_bounds) Samples.vector_rv
    (fun y => sigmoid y * 1 + (1 - sigmoid y) * 0)
    (fun y => (1 - 0) * (sigmoid y * (1 - sigmoid y))).
Proof.
  apply (proj1 (Interval_jacobian Samples.unit_bounds Samples.vector_rv) 0 1);
    [reflexivity|lra].
Defined.

End IntervalJacobian.

Section CircularWrap.
Import Py Tensor Transforms TransformLaws.
Local Open Scope R_scope.

Lemma sin_cos_period_nat y n :
  sin (y + 2 * INR n * PI) = sin y /\ cos (y + 2 * INR n * PI) = cos y.
Proof. split; [apply sin_period|apply cos_period]. Qed.

Lemma sin_cos_period_Z y k :
  sin (y + 2 * IZR k * PI) = sin y /\ cos (y + 2 * IZR k * PI) = cos y.
Proof.
  destruct (Z_le_gt_dec 0 k) as [Hk|Hk].
  - rewrite <- (Z2Nat.id k) by done. rewrite <- INR_IZR_INZ.
    apply sin_cos_period_nat.
  - destruct (sin_cos_period_nat (y + 2 * IZR k * PI) (Z.to_nat (- k))) as [Hs Hc].
    rewrite INR_IZR_INZ, Z2Nat.id, opp_IZR in Hs, Hc by lia.
    replace (y + 2 * IZR k * PI + 2 * - IZR k * PI) with y in Hs, Hc by ring.
    by split.
Qed.

(** Every angle has a representative in [(-pi, pi]]. *)
Lemma angle_reduction y : exists k : Z, - PI < y + 2 * IZR k * PI <= PI.
Proof.
  pose proof PI_RGT_0 as Hpi.
  set (r := (PI - y) / (2 * PI)).
  destruct (archimed r) as [Hup1 Hup2].
  exists (up r - 1)%Z. rewrite minus_IZR.
  assert (r * (2 * PI) = PI - y) as Hr by (unfold r; field; lra).
  split; nra.
Qed.

Lemma wrap_value y : exists k : Z, wrap y = y + 2 * IZR k * PI /\ - PI < wrap y <= PI.
Proof.
  destruct (angle_reduction y) as [k Hk]. exists k.
  destruct (sin_cos_period_Z y k) as [Hs Hc].
  assert (wrap y = y + 2 * IZR k * PI) as E.
  { unfold wrap. rewrite <- Hs, <- Hc. by apply arctan2_sin_cos. }
  split; [done|]. by rewrite E.
Qed.

Lemma wrap_fixed t : - PI < t <= PI -> wrap t = t.
Proof. apply arctan2_sin_cos. Qed.

(** X27.  [Circular.backward] maps every entry [y] to [wrap y], the
    angle in [(-pi, pi]] that differs from [y] by a whole number of turns:
    it has the sine and the cosine of [y], is unchanged by a further turn
    of [y], and is a fixed point.  Inside [(-pi, pi)] its derivative is
    one, of which the [jacobian_det], zero at every entry, is the
    logarithm. *)
Theorem Circular_backward_wraps rv_var :
  (forall t, backward Circular rv_var t = Return (tmap wrap t)) /\
  (forall y,
     - PI < wrap y <= PI /\
     (exists k : Z, wrap y = y + 2 * IZR k * PI) /\
     sin (wrap y) = sin y /\ cos (wrap y) = cos y /\
     wrap (y + 2 * PI) = wrap y /\
     wrap (wrap y) = wrap y) /\
  (forall y, - PI < y < PI -> derivable_pt_lim wrap y 1) /\
  (forall t, jacobian_det Circular rv_var t = Return (tmap (fun _ => ln (Rabs 1)) t)).
Proof.
  split; [done|]. split; [|split].
  - intros y. destruct (wrap_value y) as (k & E & Hr).
    split; [done|]. split; [by exists k|].
    destruct (sin_cos_period_Z y k) as [Hs Hc].
    split; [by rewrite E|]. split; [by rewrite E|].
    split.
    + unfold wrap. by rewrite sin_plus, cos_plus, sin_2PI, cos_2PI, !Rmult_0_r,
        !Rmult_1_r, Rplus_0_r, Rminus_0_r.
    + by apply wrap_fixed.
  - intros y Hy.
    apply (derivable_pt_lim_near _ (fun t => 1 * t + 0) y _ (- PI) PI Hy).
    + intros z Hz. rewrite wrap_fixed by lra. ring.
    + apply derivable_pt_lim_affine.
  - intros t. cbn [jacobian_det Circular]. unfold Circular_jacobian_det. f_equal.
    apply tmap_ext. intros y. by rewrite Rabs_R1, ln_1.
Qed.

Lemma Circular_backward_wraps_witness : derivable_pt_lim wrap 0 1.
Proof.
  apply (proj1 (proj2 (proj2 (Circular_backward_wraps Samples.vector_rv))) 0).
  pose proof PI_RGT_0. lra.
Defined.

End CircularWrap.
